(** * LLL lattice-basis reduction: the unblocked drivers of Elemental

    A shallow embedding of [src/src/lattice/LLL/Unblocked.hpp]
    ([ExpandQR], [HouseholderStep], [Step], [UnblockedAlg], [DeepColSwap],
    [DeepRowSwap], [UnblockedDeepAlg]) together with the control and
    result records of [src/include/El/lattice.hpp].

    The source is a template over a scalar field [F] with base real type
    [Base<F>]; the embedding is generic over a [Scalar] interface that
    lists the scalar operations the code uses.  Matrices are kept as the
    code has them: a column-major buffer with a leading dimension, and
    the BLAS calls address it through offsets and strides. *)

From Stdlib Require Import List Arith PeanoNat Lia Bool ZArith QArith Qabs Qcanon.
From Stdlib Require Import Ring Permutation.
Import ListNotations.
Local Open Scope nat_scope.

(* ================================================================== *)
(** * Part I: definitions                                               *)
(* ================================================================== *)

(** ** Scalars

    [F] is the template parameter, [Real] is [Base<F>].  Integer
    literals of the source ([0], [1], [-1], [Real(2)] ...) are the
    conversions [Fint] and [Rint]; a real used where an [F] is expected
    goes through [ofReal].  A comparison [a > b] of the source is
    [Rltb b a].  The last four fields are the numerical library routines
    the file calls but does not define ([blas::Nrm2], [FrobeniusNorm],
    [lapack::SafeNorm], [LeftReflector]); [LeftReflector chi x] returns
    the triple (tau, new chi, new x). *)
Class Scalar : Type := {
  F : Type;
  Real : Type;
  Fint : Z -> F;
  Fadd : F -> F -> F;
  Fsub : F -> F -> F;
  Fmul : F -> F -> F;
  Fdiv : F -> F -> F;
  Fopp : F -> F;
  Conj : F -> F;
  ofReal : Real -> F;
  RealPart : F -> Real;
  ImagPart : F -> Real;
  Abs : F -> Real;
  Round : F -> F;
  Rint : Z -> Real;
  Radd : Real -> Real -> Real;
  Rsub : Real -> Real -> Real;
  Rmul : Real -> Real -> Real;
  Rdiv : Real -> Real -> Real;
  RealAbs : Real -> Real;
  Rleb : Real -> Real -> bool;
  Rltb : Real -> Real -> bool;
  Sqrt : Real -> Real;
  IsFinite : Real -> bool;
  Epsilon : Real;
  Nrm2 : list F -> Real;
  FrobeniusNorm : list F -> Real;
  SafeNorm : Real -> F -> Real;
  LeftReflector : F -> list F -> F * F * list F
}.

(** ** Loops *)

(** [for( Int i=lo; i<lo+cnt; ++i ) body(i)] *)
Fixpoint forUp {A : Type} (lo cnt : nat) (body : nat -> A -> A) (a : A) : A :=
  match cnt with
  | O => a
  | S c => forUp (S lo) c body (body lo a)
  end.

(** [for( Int i=lo+cnt-1; i>=lo; --i ) body(i)] *)
Fixpoint forDown {A : Type} (lo cnt : nat) (body : nat -> A -> A) (a : A) : A :=
  match cnt with
  | O => a
  | S c => forDown lo c body (body (lo + c) a)
  end.

(** ** Buffers and dense matrices *)

(** In-place store [buf[p] = v]. *)
Fixpoint wr {A : Type} (buf : list A) (p : nat) (v : A) : list A :=
  match buf, p with
  | [], _ => []
  | _ :: r, O => v :: r
  | x :: r, S q => x :: wr r q v
  end.

(** [Matrix<T>]: height, width, leading dimension, column-major buffer. *)
Record Matrix (A : Type) : Type := mkMatrix {
  Height : nat;
  Width : nat;
  LDim : nat;
  Buffer : list A
}.
Arguments mkMatrix {A} _ _ _ _.
Arguments Height {A} _.
Arguments Width {A} _.
Arguments LDim {A} _.
Arguments Buffer {A} _.

Definition withBuffer {A : Type} (M : Matrix A) (buf : list A) : Matrix A :=
  mkMatrix (Height M) (Width M) (LDim M) buf.

Definition SetEntry {A : Type} (M : Matrix A) (i j : nat) (v : A) : Matrix A :=
  withBuffer M (wr (Buffer M) (i + j * LDim M) v).

(** [LLLCtrl<Real>] of lattice.hpp. *)
Record LLLCtrl (R : Type) : Type := mkCtrl {
  delta : R;
  eta : R;
  weak : bool;
  deep : bool;
  presort : bool;
  smallestFirst : bool;
  reorthogTol : R;
  numOrthog : nat;
  zeroTol : R;
  progress : bool;
  time : bool
}.
Arguments mkCtrl {R} _ _ _ _ _ _ _ _ _ _ _.
Arguments delta {R} _.
Arguments eta {R} _.
Arguments weak {R} _.
Arguments deep {R} _.
Arguments presort {R} _.
Arguments smallestFirst {R} _.
Arguments reorthogTol {R} _.
Arguments numOrthog {R} _.
Arguments zeroTol {R} _.
Arguments progress {R} _.
Arguments time {R} _.

(** [LLLInfo<Real>] of lattice.hpp. *)
Record LLLInfo (R : Type) : Type := mkInfo {
  info_delta : R;
  info_eta : R;
  rank : nat;
  nullity : nat;
  numSwaps : nat;
  logVol : R
}.
Arguments mkInfo {R} _ _ _ _ _ _.
Arguments info_delta {R} _.
Arguments info_eta {R} _.
Arguments rank {R} _.
Arguments nullity {R} _.
Arguments numSwaps {R} _.
Arguments logVol {R} _.

(** The two [RuntimeError]s raised by [Step]. *)
Inductive RuntimeError : Type :=
| UnboundedNorm          (* "Encountered an unbounded norm; increase precision" *)
| NormExceedsInvEps.     (* "Encountered norm greater than 1/eps" *)

(** Outcome of a computation that may throw, or (for the loops that the
    model runs on fuel) not finish within the fuel given. *)
Inductive result (A : Type) : Type :=
| Ok (a : A)
| Raised (e : RuntimeError)
| OutOfFuel.
Arguments Ok {A} _.
Arguments Raised {A} _.
Arguments OutOfFuel {A}.

Definition bind {A B : Type} (r : result A) (f : A -> result B) : result B :=
  match r with
  | Ok a => f a
  | Raised e => Raised e
  | OutOfFuel => OutOfFuel
  end.

Section Model.
Context {Sc : Scalar}.

Definition rd (buf : list F) (p : nat) : F := nth p buf (Fint 0).
Definition rdR (buf : list Real) (p : nat) : Real := nth p buf (Rint 0).

(** [M.Get(i,j)] *)
Definition Get (M : Matrix F) (i j : nat) : F := rd (Buffer M) (i + j * LDim M).
Definition GetRealPart (M : Matrix F) (i j : nat) : Real := RealPart (Get M i j).
Definition GetR (M : Matrix Real) (i j : nat) : Real := rdR (Buffer M) (i + j * LDim M).

(** The [n] entries [buf[off], buf[off+inc], ...] a BLAS vector argument
    denotes. *)
Definition gather (buf : list F) (off inc n : nat) : list F :=
  map (fun l => rd buf (off + l * inc)) (seq 0 n).

(** Modelled from the spec: [Zeros( M, m, n )] allocates the zero
    [m x n] matrix ("allocate/zero [QR], [t], [d]"). *)
Definition Zeros (m n : nat) : Matrix F :=
  mkMatrix m n (Nat.max m 1) (repeat (Fint 0) (Nat.max m 1 * n)).
(** Modelled from the spec: [Zeros] for a real matrix. *)
Definition ZerosR (m n : nat) : Matrix Real :=
  mkMatrix m n (Nat.max m 1) (repeat (Rint 0) (Nat.max m 1 * n)).

(** ** BLAS routines

    The file calls [blas::Dot], [Axpy], [Gemv], [Geru] and [Copy]; they
    are defined in the library's BLAS layer, which is not part of this
    development.  The spec takes "the standard level-1/2 numerical
    primitives (dot, axpy, gemv, geru, nrm2, Householder reflector)" as
    given; they are modelled below with their reference semantics, each
    acting on the buffer through an offset and a stride as in the
    calls. *)

(** Modelled from the spec: [blas::Dot], the inner product of two
    strided vectors, conjugating the first ("use conjugated dot for
    complex"). *)
Definition Dot (n : nat) (x : list F) (xoff incx : nat)
    (y : list F) (yoff incy : nat) : F :=
  forUp 0 n
    (fun l acc => Fadd acc (Fmul (Conj (rd x (xoff + l * incx))) (rd y (yoff + l * incy))))
    (Fint 0).

(** Modelled from the spec: [blas::Axpy], [y := alpha x + y], both
    vectors inside [buf]. *)
Definition Axpy (n : nat) (alpha : F) (buf : list F)
    (xoff incx yoff incy : nat) : list F :=
  forUp 0 n
    (fun l b => wr b (yoff + l * incy)
                  (Fadd (rd b (yoff + l * incy)) (Fmul alpha (rd b (xoff + l * incx)))))
    buf.

(** Modelled from the spec: row [i] of the [m x k] matrix at [aoff] times
    the vector [x] (the inner sum of [blas::Gemv]). *)
Definition rowDot (k : nat) (b : list F) (aoff lda i : nat) (x : list F) : F :=
  forUp 0 k
    (fun l acc => Fadd acc (Fmul (rd b (aoff + i + l * lda)) (rd x l)))
    (Fint 0).

(** Modelled from the spec: [blas::Gemv], [y := alpha A x + beta y] with
    the [m x k] matrix [A] (no transpose) and [y] inside [buf]; [x] is a
    separate vector of stride one. *)
Definition Gemv (m k : nat) (alpha : F) (buf : list F) (aoff lda : nat)
    (x : list F) (beta : F) (yoff incy : nat) : list F :=
  forUp 0 m
    (fun i b =>
       wr b (yoff + i * incy)
         (Fadd (Fmul alpha (rowDot k b aoff lda i x))
               (Fmul beta (rd b (yoff + i * incy)))))
    buf.

(** Modelled from the spec: [blas::Geru], [A := alpha x y^T + A] with the
    [m x n] matrix [A] and [y] inside [buf]; [x] is a separate vector of
    stride one. *)
Definition Geru (m n : nat) (alpha : F) (x : list F) (buf : list F)
    (yoff incy aoff lda : nat) : list F :=
  forUp 0 n
    (fun j b =>
       forUp 0 m
         (fun i b' =>
            wr b' (aoff + i + j * lda)
              (Fadd (rd b' (aoff + i + j * lda))
                    (Fmul (Fmul alpha (rd x i)) (rd b' (yoff + j * incy)))))
         b)
    buf.

(** Modelled from the spec: [blas::Copy( n, x, incx, y, incy )], both
    vectors inside [buf]. *)
Definition Copy (n : nat) (buf : list F) (xoff incx yoff incy : nat) : list F :=
  forUp 0 n (fun l b => wr b (yoff + l * incy) (rd b (xoff + l * incx))) buf.

(** ** Matrix utilities of the library

    [ColSwap], [RowSwap], [Zero] and [MakeTrapezoidal] are library
    routines the drivers call; they are not part of this development
    either. *)

(** Modelled from the spec: [ColSwap( M, j1, j2 )] exchanges columns
    [j1] and [j2]. *)
Definition ColSwap (M : Matrix F) (j1 j2 : nat) : Matrix F :=
  withBuffer M
    (forUp 0 (Height M)
       (fun i b =>
          let a := rd b (i + j1 * LDim M) in
          wr (wr b (i + j1 * LDim M) (rd b (i + j2 * LDim M))) (i + j2 * LDim M) a)
       (Buffer M)).

(** Modelled from the spec: [RowSwap( M, i1, i2 )] exchanges rows [i1]
    and [i2]. *)
Definition RowSwap (M : Matrix F) (i1 i2 : nat) : Matrix F :=
  withBuffer M
    (forUp 0 (Width M)
       (fun j b =>
          let a := rd b (i1 + j * LDim M) in
          wr (wr b (i1 + j * LDim M) (rd b (i2 + j * LDim M))) (i2 + j * LDim M) a)
       (Buffer M)).

(** Modelled from the spec: [Zero( M(ALL,IR(j)) )] clears column [j]
    ("zero column 0"). *)
Definition ZeroCol (M : Matrix F) (j : nat) : Matrix F :=
  withBuffer M
    (forUp 0 (Height M) (fun i b => wr b (i + j * LDim M) (Fint 0)) (Buffer M)).

(** Modelled from the spec: [MakeTrapezoidal( UPPER, QR )] "zeros the
    reflector storage" below the diagonal. *)
Definition MakeTrapezoidalUpper (M : Matrix F) : Matrix F :=
  withBuffer M
    (forUp 0 (Width M)
       (fun j b =>
          forUp (S j) (Height M - S j) (fun i b' => wr b' (i + j * LDim M) (Fint 0)) b)
       (Buffer M)).

(** The column [M(ALL,IR(j))] as a vector. *)
Definition column (M : Matrix F) (j : nat) : list F :=
  gather (Buffer M) (j * LDim M) 1 (Height M).

(** ** [lll::ExpandQR] (Unblocked.hpp, lines 18-73) *)

(** One application of the [i]'th Householder reflector to column [k]
    (the body of the inner loop, lines 48-68). *)
Definition ApplyReflector (m k QRLDim : nat) (tBuf : list F) (dBuf : list Real)
    (i : nat) (QRBuf : list F) : list F :=
  (* Temporarily replace QR(i,i) with 1 *)
  let alpha := RealPart (rd QRBuf (i + i * QRLDim)) in
  let QRBuf := wr QRBuf (i + i * QRLDim) (Fint 1) in
  let innerProd :=
    Dot (m - i) QRBuf (i + i * QRLDim) 1 QRBuf (i + k * QRLDim) 1 in
  let QRBuf :=
    Axpy (m - i) (Fmul (Fopp (rd tBuf i)) innerProd) QRBuf
      (i + i * QRLDim) 1 (i + k * QRLDim) 1 in
  (* Fix the scaling *)
  let QRBuf :=
    wr QRBuf (i + k * QRLDim)
      (Fmul (rd QRBuf (i + k * QRLDim)) (ofReal (rdR dBuf i))) in
  (* Restore H(i,i) *)
  wr QRBuf (i + i * QRLDim) (ofReal alpha).

(** The copy of column [k] of [B] into [QR] (lines 39-40). *)
Definition CopyInColumn (k : nat) (B QR : Matrix F) : list F :=
  forUp 0 (Height B)
    (fun i b => wr b (i + k * LDim QR) (rd (Buffer B) (i + k * LDim B)))
    (Buffer QR).

Definition ExpandQR (k : nat) (B QR : Matrix F) (t : Matrix F)
    (d : Matrix Real) (numOrthog : nat) : Matrix F :=
  let m := Height B in
  let QRLDim := LDim QR in
  withBuffer QR
    (forUp 0 numOrthog
       (fun _ QRBuf =>
          forUp 0 k (ApplyReflector m k QRLDim (Buffer t) (Buffer d)) QRBuf)
       (CopyInColumn k B QR)).

(** ** [lll::HouseholderStep] (lines 75-100) *)
Definition HouseholderStep (k : nat) (QR t : Matrix F) (d : Matrix Real)
    : Matrix F * Matrix F * Matrix Real :=
  let QRLDim := LDim QR in
  let cnt := Height QR - S k in
  let rhokk := rd (Buffer QR) (k + k * QRLDim) in
  let qr21 := gather (Buffer QR) (S k + k * QRLDim) 1 cnt in
  let '(tau, rhokk, v) := LeftReflector rhokk qr21 in
  let QRBuf := wr (Buffer QR) (k + k * QRLDim) rhokk in
  let QRBuf :=
    forUp 0 cnt (fun l b => wr b (S k + k * QRLDim + l) (nth l v (Fint 0))) QRBuf in
  let t := SetEntry t k 0 tau in
  if Rltb (RealPart rhokk) (Rint 0)
  then (withBuffer QR (wr QRBuf (k + k * QRLDim) (Fmul rhokk (Fint (-1)))),
        t, SetEntry d k 0 (Rint (-1)))
  else (withBuffer QR QRBuf, t, SetEntry d k 0 (Rint 1)).

(** ** The working set of the reducer

    The matrices [B], [U], [UInv], [QR] and the vectors [t], [d] that
    [Step] and the drivers take by reference. *)
Record LLLState : Type := mkState {
  stB : Matrix F;
  stU : Matrix F;
  stUInv : Matrix F;
  stQR : Matrix F;
  stT : Matrix F;
  stD : Matrix Real
}.

(** ** [lll::Step] (lines 116-263) *)

(** The pair of guards applied to a column norm (lines 149-152 and
    246-249). *)
Definition NormGuard (nrm : Real) : option RuntimeError :=
  if negb (IsFinite nrm) then Some UnboundedNorm
  else if Rltb (Rdiv (Rint 1) Epsilon) nrm then Some NormExceedsInvEps
  else None.

(** [Abs(RealPart(chi)) > ctrl.eta || Abs(ImagPart(chi)) > ctrl.eta] *)
Definition OverEta (ctrl : LLLCtrl Real) (chi : F) : bool :=
  Rltb (eta ctrl) (RealAbs (RealPart chi)) || Rltb (eta ctrl) (RealAbs (ImagPart chi)).

(** The zero branch (lines 156-161). *)
Definition ZeroColumn (k : nat) (s : LLLState) : LLLState :=
  let m := Height (stB s) in
  mkState
    (withBuffer (stB s)
       (forUp 0 m (fun i b => wr b (i + k * LDim (stB s)) (Fint 0)) (Buffer (stB s))))
    (stU s) (stUInv s)
    (withBuffer (stQR s)
       (forUp 0 m (fun i b => wr b (i + k * LDim (stQR s)) (Fint 0)) (Buffer (stQR s))))
    (SetEntry (stT s) k 0 (ofReal (Rdiv (Rint 1) (Rint 2))))
    (SetEntry (stD s) k 0 (Rint 1)).

(** Weak size-reduction (lines 168-199). *)
Definition WeakReduce (k : nat) (formU formUInv : bool) (ctrl : LLLCtrl Real)
    (s : LLLState) : LLLState :=
  let m := Height (stB s) in
  let n := Width (stB s) in
  let BLDim := LDim (stB s) in
  let ULDim := LDim (stU s) in
  let UInvLDim := LDim (stUInv s) in
  let QRLDim := LDim (stQR s) in
  let QRBuf := Buffer (stQR s) in
  let rho_km1_km1 := RealPart (rd QRBuf ((k - 1) + (k - 1) * QRLDim)) in
  if Rltb (zeroTol ctrl) rho_km1_km1 then
    let chi := Fdiv (rd QRBuf ((k - 1) + k * QRLDim)) (ofReal rho_km1_km1) in
    if OverEta ctrl chi then
      let chi := Round chi in
      mkState
        (withBuffer (stB s)
           (Axpy m (Fopp chi) (Buffer (stB s)) ((k - 1) * BLDim) 1 (k * BLDim) 1))
        (if formU
         then withBuffer (stU s)
                (Axpy n (Fopp chi) (Buffer (stU s)) ((k - 1) * ULDim) 1 (k * ULDim) 1)
         else stU s)
        (if formUInv
         then withBuffer (stUInv s)
                (Axpy n chi (Buffer (stUInv s)) k UInvLDim (k - 1) UInvLDim)
         else stUInv s)
        (withBuffer (stQR s)
           (Axpy k (Fopp chi) QRBuf ((k - 1) * QRLDim) 1 (k * QRLDim) 1))
        (stT s) (stD s)
    else s
  else s.

(** One pass of the standard scan, for index [i] (lines 206-223); the
    state is the pair of the [QR] buffer and [xBuf]. *)
Definition ScanStep (ctrl : LLLCtrl Real) (k QRLDim : nat) (i : nat)
    (qx : list F * list F) : list F * list F :=
  let '(QRBuf, xBuf) := qx in
  if Rleb (Abs (rd QRBuf (i + i * QRLDim))) (zeroTol ctrl) then
    (QRBuf, wr xBuf i (Fint 0))
  else
    let chi := Fdiv (rd QRBuf (i + k * QRLDim)) (rd QRBuf (i + i * QRLDim)) in
    if OverEta ctrl chi then
      let chi := Round chi in
      (Axpy (i + 1) (Fopp chi) QRBuf (i * QRLDim) 1 (k * QRLDim) 1, wr xBuf i chi)
    else
      (QRBuf, wr xBuf i (Fint 0)).

(** [vector<F> xBuf(k); for( Int i=k-1; i>=0; --i ) ...] *)
Definition Scan (ctrl : LLLCtrl Real) (k QRLDim : nat) (QRBuf : list F)
    : list F * list F :=
  forDown 0 k (ScanStep ctrl k QRLDim) (QRBuf, repeat (Fint 0) k).

(** The state of the scan when index [i] is about to be handled: the
    indices [k-1, ..., i+1] are done. *)
Definition ScanBefore (ctrl : LLLCtrl Real) (k QRLDim : nat) (QRBuf : list F)
    (i : nat) : list F * list F :=
  forDown (S i) (k - S i) (ScanStep ctrl k QRLDim) (QRBuf, repeat (Fint 0) k).

(** What every state of the scan satisfies: the buffers keep their
    lengths and only column [k] of [QR] has moved. *)
Definition ScanInv (k QRLDim : nat) (QRBuf : list F) (qx : list F * list F) : Prop :=
  length (fst qx) = length QRBuf /\ length (snd qx) = k /\
  forall a c, a < QRLDim -> c <> k ->
    rd (fst qx) (a + c * QRLDim) = rd QRBuf (a + c * QRLDim).

(** Standard size-reduction (lines 202-241). *)
Definition StandardReduce (k : nat) (formU formUInv : bool) (ctrl : LLLCtrl Real)
    (s : LLLState) : LLLState :=
  let m := Height (stB s) in
  let n := Width (stB s) in
  let BLDim := LDim (stB s) in
  let ULDim := LDim (stU s) in
  let UInvLDim := LDim (stUInv s) in
  let QRLDim := LDim (stQR s) in
  let '(QRBuf, xBuf) := Scan ctrl k QRLDim (Buffer (stQR s)) in
  mkState
    (withBuffer (stB s)
       (Gemv m k (Fint (-1)) (Buffer (stB s)) 0 BLDim xBuf (Fint 1) (k * BLDim) 1))
    (if formU
     then withBuffer (stU s)
            (Gemv n k (Fint (-1)) (Buffer (stU s)) 0 ULDim xBuf (Fint 1) (k * ULDim) 1)
     else stU s)
    (if formUInv
     then withBuffer (stUInv s)
            (Geru k n (Fint 1) xBuf (Buffer (stUInv s)) k UInvLDim 0 UInvLDim)
     else stUInv s)
    (withBuffer (stQR s) QRBuf)
    (stT s) (stD s).

Definition SizeReduce (k : nat) (formU formUInv : bool) (ctrl : LLLCtrl Real)
    (s : LLLState) : LLLState :=
  if weak ctrl then WeakReduce k formU formUInv ctrl s
  else StandardReduce k formU formUInv ctrl s.

(** How one pass through the body of [while( true )] ends. *)
Inductive StepOutcome : Type :=
| StepRaise (e : RuntimeError)   (* RuntimeError(...) *)
| StepZero (s : LLLState)        (* return true *)
| StepBreak (s : LLLState)       (* break *)
| StepAgain (s : LLLState).      (* fall through to the next pass *)

(** The state right after the call of [ExpandQR] that opens a pass. *)
Definition Expanded (k : nat) (ctrl : LLLCtrl Real) (s : LLLState) : LLLState :=
  mkState (stB s) (stU s) (stUInv s)
    (ExpandQR k (stB s) (stQR s) (stT s) (stD s) (numOrthog ctrl))
    (stT s) (stD s).

(** [blas::Nrm2( m, &BBuf[k*BLDim], 1 )] *)
Definition ColumnNorm (k : nat) (s : LLLState) : Real :=
  Nrm2 (gather (Buffer (stB s)) (k * LDim (stB s)) 1 (Height (stB s))).

(** The body of the [while( true )] loop (lines 146-258). *)
Definition StepPass (k : nat) (formU formUInv : bool) (ctrl : LLLCtrl Real)
    (s : LLLState) : StepOutcome :=
  let s := Expanded k ctrl s in
  let oldNorm := ColumnNorm k s in
  match NormGuard oldNorm with
  | Some e => StepRaise e
  | None =>
    if Rleb oldNorm (zeroTol ctrl) then StepZero (ZeroColumn k s)
    else
      let s := SizeReduce k formU formUInv ctrl s in
      let newNorm := ColumnNorm k s in
      match NormGuard newNorm with
      | Some e => StepRaise e
      | None =>
        if Rltb (Rmul (reorthogTol ctrl) oldNorm) newNorm then StepBreak s
        else StepAgain s
      end
  end.

(** The call [lll::HouseholderStep( k, QR, t, d, ctrl.time )] on the
    working set. *)
Definition Reflect (k : nat) (s : LLLState) : LLLState :=
  let '(QR, t, d) := HouseholderStep k (stQR s) (stT s) (stD s) in
  mkState (stB s) (stU s) (stUInv s) QR t d.

(** [Step]: the [while( true )] loop runs on [fuel] passes. *)
Fixpoint Step (fuel : nat) (k : nat) (formU formUInv : bool)
    (ctrl : LLLCtrl Real) (s : LLLState) : result (bool * LLLState) :=
  match fuel with
  | O => OutOfFuel
  | S fuel' =>
    match StepPass k formU formUInv ctrl s with
    | StepRaise e => Raised e
    | StepZero s' => Ok (true, s')
    | StepBreak s' => Ok (false, Reflect k s')
    | StepAgain s' => Step fuel' k formU formUInv ctrl s'
    end
  end.

(** The working set after [j] passes of the loop of [Step] that all
    fell through to the next pass. *)
Fixpoint AfterPasses (j : nat) (k : nat) (formU formUInv : bool)
    (ctrl : LLLCtrl Real) (s : LLLState) : option LLLState :=
  match j with
  | O => Some s
  | S j' =>
    match StepPass k formU formUInv ctrl s with
    | StepAgain s' => AfterPasses j' k formU formUInv ctrl s'
    | _ => None
    end
  end.

(** A column norm is rejected with error [e]: it is non-finite, or it
    is finite and greater than [1/eps]. *)
Definition NormRejected (nrm : Real) (e : RuntimeError) : Prop :=
  (IsFinite nrm = false /\ e = UnboundedNorm) \/
  (IsFinite nrm = true /\ Rltb (Rdiv (Rint 1) Epsilon) nrm = true /\
   e = NormExceedsInvEps).

(** ** Shapes

    Dimensions, leading dimension and buffer length of a matrix; no
    routine of the file changes them. *)
Definition shape {A : Type} (M : Matrix A) : nat * nat * nat * nat :=
  (Height M, Width M, LDim M, length (Buffer M)).

Definition shapes (s : LLLState)
    : (nat * nat * nat * nat) * (nat * nat * nat * nat) * (nat * nat * nat * nat)
      * (nat * nat * nat * nat) * (nat * nat * nat * nat) * (nat * nat * nat * nat) :=
  (shape (stB s), shape (stU s), shape (stUInv s), shape (stQR s),
   shape (stT s), shape (stD s)).

(** The buffer holds the whole [Height x Width] matrix at leading
    dimension [LDim]. *)
Definition Dense {A : Type} (M : Matrix A) : Prop :=
  Height M <= LDim M /\ LDim M * Width M <= length (Buffer M).

(** Column [j] of [M] is zero: [M(:,j) = 0]. *)
Definition ColumnIsZero (M : Matrix F) (j : nat) : Prop :=
  forall i, i < Height M -> Get M i j = Fint 0.

(** What [Step( k, ... )] expects of the working set: [B] and [QR] are
    dense [m x n] matrices with column [k], and [t], [d] have an entry
    [k]. *)
Definition StepReady (k : nat) (s : LLLState) : Prop :=
  Dense (stB s) /\ Dense (stQR s) /\
  Height (stQR s) = Height (stB s) /\ Width (stQR s) = Width (stB s) /\
  k < Width (stB s) /\
  k < length (Buffer (stT s)) /\ k < length (Buffer (stD s)).

(** The transposition of the indices [a] and [b]. *)
Definition transpose (a b j : nat) : nat :=
  if j =? a then b else if j =? b then a else j.

(** ** The product of the two transforms *)

(** [f 0 + f 1 + ... + f (n-1)], accumulated from the left. *)
Definition sumF (n : nat) (f : nat -> F) : F :=
  forUp 0 n (fun l acc => Fadd acc (f l)) (Fint 0).

(** The sum of a list of scalars. *)
Definition sumList (xs : list F) : F := fold_right (fun x acc => Fadd acc x) (Fint 0) xs.

(** Entry [(i,j)] of the product [U UInv] of two [n x n] matrices. *)
Definition MulEntry (n : nat) (U UInv : Matrix F) (i j : nat) : F :=
  sumF n (fun l => Fmul (Get U i l) (Get UInv l j)).

(** [U UInv = I] for the leading [n x n] blocks. *)
Definition IsInversePair (n : nat) (U UInv : Matrix F) : Prop :=
  forall i j, i < n -> j < n ->
    MulEntry n U UInv i j = if i =? j then Fint 1 else Fint 0.

(** A dense [n x n] matrix. *)
Definition Square (n : nat) (M : Matrix F) : Prop :=
  Dense M /\ Height M = n /\ Width M = n.

(** Both transforms are tracked as [n x n] matrices next to a basis of
    [n] columns, and [U UInv = I]. *)
Definition Unimodular (n : nat) (s : LLLState) : Prop :=
  Width (stB s) = n /\ Square n (stU s) /\ Square n (stUInv s) /\
  IsInversePair n (stU s) (stUInv s).

(** The cyclic shift that [DeepColSwap( M, i, k )] applies to column
    indices: the new column [c] is the old column [shiftIndex i k c]. *)
Definition shiftIndex (i k c : nat) : nat :=
  if c =? i then k else if (i <? c) && (c <=? k) then c - 1 else c.

(** ** The drivers *)

(** The loop variables of a driver next to its working set. *)
Record Driver : Type := mkDriver {
  work : LLLState;
  cur_k : nat;
  cur_nullity : nat;
  cur_numSwaps : nat
}.

(** "Perform the first step of Householder reduction" and test column
    zero (lines 294-306; again at lines 343-356 when [k] stays at one).
    Returns the working set and the nullity (one or zero). *)
Definition FirstColumn (ctrl : LLLCtrl Real) (s : LLLState) : LLLState * nat :=
  let s := Reflect 0 (Expanded 0 ctrl s) in
  if Rleb (FrobeniusNorm (column (stB s) 0)) (zeroTol ctrl)
  then (mkState (ZeroCol (stB s) 0) (stU s) (stUInv s) (ZeroCol (stQR s) 0)
          (stT s) (stD s), 1)
  else (s, 0).

(** [Max( a, b )] on reals. *)
Definition RMax (a b : Real) : Real := if Rltb a b then b else a.

(** The swap of columns [k-1] and [k] (lines 334-339). *)
Definition SwapColumns (k : nat) (formU formUInv : bool) (s : LLLState) : LLLState :=
  mkState (ColSwap (stB s) (k - 1) k)
    (if formU then ColSwap (stU s) (k - 1) k else stU s)
    (if formUInv then RowSwap (stUInv s) (k - 1) k else stUInv s)
    (stQR s) (stT s) (stD s).

(** The Lovasz test of the flat driver (lines 318-324):
    [leftTerm <= rightTerm]. *)
Definition LovaszHolds (ctrl : LLLCtrl Real) (k : nat) (s : LLLState) : bool :=
  let rho_km1_km1 := GetRealPart (stQR s) (k - 1) (k - 1) in
  let rho_km1_k := Get (stQR s) (k - 1) k in
  let rho_k_k := GetRealPart (stQR s) k k in
  let leftTerm := Rmul (Sqrt (delta ctrl)) rho_km1_km1 in
  let rightTerm := SafeNorm rho_k_k rho_km1_k in
  Rleb leftTerm rightTerm.

(** What the flat driver does after [Step] returned [zeroVector] and
    left the working set [s] (lines 313-362). *)
Definition AfterStep (formU formUInv : bool) (ctrl : LLLCtrl Real)
    (dr : Driver) (zeroVector : bool) (s : LLLState) : Driver :=
  let k := cur_k dr in
  let nullity := if zeroVector then k + 1 else Nat.min (cur_nullity dr) k in
  if LovaszHolds ctrl k s then
    mkDriver s (k + 1) nullity (cur_numSwaps dr)
  else
    let numSwaps := cur_numSwaps dr + 1 in
    let s := SwapColumns k formU formUInv s in
    if k =? 1 then
      (* We must reinitialize since we keep k=1 *)
      let '(s, nullity) := FirstColumn ctrl s in
      mkDriver s k nullity numSwaps
    else
      mkDriver s (k - 1) nullity numSwaps.

(** The body of [while( k < n )] in [UnblockedAlg] (lines 311-362). *)
Definition UnblockedIter (fuel : nat) (formU formUInv : bool)
    (ctrl : LLLCtrl Real) (dr : Driver) : result Driver :=
  bind (Step fuel (cur_k dr) formU formUInv ctrl (work dr))
       (fun zs => Ok (AfterStep formU formUInv ctrl dr (fst zs) (snd zs))).

(** [while( k < n ) body], on [fuel] iterations, for either driver. *)
Fixpoint DriverLoop (body : Driver -> result Driver) (fuel : nat) (n : nat)
    (dr : Driver) : result Driver :=
  if cur_k dr <? n then
    match fuel with
    | O => OutOfFuel
    | S fuel' => bind (body dr) (DriverLoop body fuel' n)
    end
  else Ok dr.

Section Drivers.

(** [lll::Achieved] and [lll::LogVolume] are called on the final [QR];
    they live in a file of the library that is not part of this
    development and only fill the report. *)
Variable Achieved : Matrix F -> LLLCtrl Real -> Real * Real.
Variable LogVolume : Matrix F -> Real.

(** Lines 284-306: allocation and the first column. *)
Definition Initialize (B U UInv : Matrix F) (ctrl : LLLCtrl Real) : Driver :=
  let m := Height B in
  let n := Width B in
  let minDim := Nat.min m n in
  let QR := Zeros m n in
  let d := ZerosR minDim 1 in
  let t := Zeros minDim 1 in
  let '(s, nullity) := FirstColumn ctrl (mkState B U UInv QR t d) in
  mkDriver s 1 nullity 0.

(** Lines 371-385: the report. *)
Definition Finish (n : nat) (ctrl : LLLCtrl Real) (dr : Driver)
    : LLLState * LLLInfo Real :=
  let s := work dr in
  let QR := MakeTrapezoidalUpper (stQR s) in
  let achieved := Achieved QR ctrl in
  let logVol := LogVolume QR in
  (mkState (stB s) (stU s) (stUInv s) QR (stT s) (stD s),
   mkInfo (fst achieved) (snd achieved) (n - cur_nullity dr) (cur_nullity dr)
          (cur_numSwaps dr) logVol).

(** [lll::UnblockedAlg] (lines 266-386).  [QR] is an output argument:
    it is overwritten by [Zeros( QR, m, n )] on entry. *)
Definition UnblockedAlg (fuel : nat) (B U UInv : Matrix F)
    (formU formUInv : bool) (ctrl : LLLCtrl Real)
    : result (LLLState * LLLInfo Real) :=
  let n := Width B in
  bind (DriverLoop (UnblockedIter fuel formU formUInv ctrl) fuel n
          (Initialize B U UInv ctrl))
       (fun dr => Ok (Finish n ctrl dr)).

(** ** Deep insertion *)

(** [DeepColSwap] (lines 388-402). *)
Definition DeepColSwap (B : Matrix F) (i k : nat) : Matrix F :=
  let m := Height B in
  let BLDim := LDim B in
  let bkCopy := gather (Buffer B) (k * BLDim) 1 m in
  let BBuf :=
    forDown i (k - i) (fun l b => Copy m b (l * BLDim) 1 ((l + 1) * BLDim) 1)
      (Buffer B) in
  (* bi = bkCopy *)
  withBuffer B (forUp 0 m (fun r b => wr b (r + i * BLDim) (nth r bkCopy (Fint 0))) BBuf).

(** [DeepRowSwap] (lines 404-418). *)
Definition DeepRowSwap (B : Matrix F) (i k : nat) : Matrix F :=
  let n := Width B in
  let BLDim := LDim B in
  let bkCopy := gather (Buffer B) k BLDim n in
  let BBuf :=
    forDown i (k - i) (fun l b => Copy n b l BLDim (l + 1) BLDim) (Buffer B) in
  (* bi = bkCopy *)
  withBuffer B (forUp 0 n (fun c b => wr b (i + c * BLDim) (nth c bkCopy (Fint 0))) BBuf).

(** [const bool alwaysRecomputeNorms = true;] (line 449) *)
Definition alwaysRecomputeNorms : bool := true.

(** [const Real updateTol = Sqrt(limits::Epsilon<Real>());] (line 450) *)
Definition updateTol : Real := Sqrt Epsilon.

(** [blas::Nrm2( k-i, QR.LockedBuffer(i+1,k), 1 )] (line 540); with
    [i+1 = 0] and [k-i = k+1] it is the norm of line 488. *)
Definition TailNorm (QR : Matrix F) (r k cnt : nat) : Real :=
  Nrm2 (gather (Buffer QR) (r + k * LDim QR) 1 cnt).

(** The downdate of the partial norm after index [i] did not trigger
    an insertion (lines 533-545): the new [(origNorm, partialNorm)]. *)
Definition Downdate (QR : Matrix F) (k i : nat) (origNorm partialNorm : Real)
    : Real * Real :=
  let gamma := Rdiv (Abs (Get QR i k)) partialNorm in
  let gamma :=
    RMax (Rint 0) (Rmul (Rsub (Rint 1) gamma) (Radd (Rint 1) gamma)) in
  let ratio := Rdiv partialNorm origNorm in
  let phi := Rmul gamma (Rmul ratio ratio) in
  if Rleb phi updateTol || alwaysRecomputeNorms then
    let partialNorm := TailNorm QR (i + 1) k (k - i) in
    (partialNorm, partialNorm)
  else
    (origNorm, Rmul partialNorm (Sqrt gamma)).

(** The variant the specification compares with: the downdate "with
    the LAWN-176 fallback test removed" -- the partial norm is always
    recomputed and [origNorm] reset to it. *)
Definition DowndateRecompute (QR : Matrix F) (k i : nat)
    (origNorm partialNorm : Real) : Real * Real :=
  let partialNorm := TailNorm QR (i + 1) k (k - i) in
  (partialNorm, partialNorm).

(** The scan [for( Int i=0; i<k; ++i )] of lines 490-546 up to its
    [break]: the first index [i] with [leftTerm > partialNorm], if any.
    [QR] is only read until then.  [downdate] is the else-branch. *)
Fixpoint DeepScan (downdate : Matrix F -> nat -> nat -> Real -> Real -> Real * Real)
    (ctrl : LLLCtrl Real) (QR : Matrix F) (k : nat)
    (cnt i : nat) (origNorm partialNorm : Real) : option nat :=
  match cnt with
  | O => None
  | S cnt' =>
    let rho_i_i := GetRealPart QR i i in
    let leftTerm := Rmul (Sqrt (delta ctrl)) rho_i_i in
    if Rltb partialNorm leftTerm then Some i
    else
      let '(origNorm, partialNorm) := downdate QR k i origNorm partialNorm in
      DeepScan downdate ctrl QR k cnt' (S i) origNorm partialNorm
  end.

(** The insertion of column [k] at position [i] (lines 500-504). *)
Definition InsertColumn (i k : nat) (formU formUInv : bool) (s : LLLState) : LLLState :=
  mkState (DeepColSwap (stB s) i k)
    (if formU then DeepColSwap (stU s) i k else stU s)
    (if formUInv then DeepRowSwap (stUInv s) i k else stUInv s)
    (stQR s) (stT s) (stD s).

(** What the deep driver does after [Step] (lines 472-548). *)
Definition DeepAfterStep
    (downdate : Matrix F -> nat -> nat -> Real -> Real -> Real * Real)
    (formU formUInv : bool) (ctrl : LLLCtrl Real)
    (dr : Driver) (zeroVector : bool) (s : LLLState) : Driver :=
  let k := cur_k dr in
  let nullity := if zeroVector then k + 1 else Nat.min (cur_nullity dr) k in
  let origNorm := TailNorm (stQR s) 0 k (k + 1) in
  let partialNorm := origNorm in
  match DeepScan downdate ctrl (stQR s) k k 0 origNorm partialNorm with
  | Some i =>
    let numSwaps := cur_numSwaps dr + 1 in
    let s := InsertColumn i k formU formUInv s in
    if i =? 0 then
      let '(s, nullity) := FirstColumn ctrl s in
      mkDriver s 1 nullity numSwaps
    else
      mkDriver s i nullity numSwaps
  | None => mkDriver s (k + 1) nullity (cur_numSwaps dr)
  end.

Definition DeepIter
    (downdate : Matrix F -> nat -> nat -> Real -> Real -> Real * Real)
    (fuel : nat) (formU formUInv : bool)
    (ctrl : LLLCtrl Real) (dr : Driver) : result Driver :=
  bind (Step fuel (cur_k dr) formU formUInv ctrl (work dr))
       (fun zs => Ok (DeepAfterStep downdate formU formUInv ctrl dr (fst zs) (snd zs))).

Definition DeepAlgWith
    (downdate : Matrix F -> nat -> nat -> Real -> Real -> Real * Real)
    (fuel : nat) (B U UInv : Matrix F)
    (formU formUInv : bool) (ctrl : LLLCtrl Real)
    : result (LLLState * LLLInfo Real) :=
  let n := Width B in
  bind (DriverLoop (DeepIter downdate fuel formU formUInv ctrl) fuel n
          (Initialize B U UInv ctrl))
       (fun dr => Ok (Finish n ctrl dr)).

(** [lll::UnblockedDeepAlg] (lines 420-572). *)
Definition UnblockedDeepAlg := DeepAlgWith Downdate.

(** The deep driver with [DowndateRecompute] in place of lines 533-545. *)
Definition UnblockedDeepAlgRecompute := DeepAlgWith DowndateRecompute.

End Drivers.

(** ** Properties of a run of the flat driver *)

(** What the driver loops maintain when both transforms are tracked. *)
Definition TransformsInv (n : nat) (dr : Driver) : Prop :=
  Unimodular n (work dr) /\ 1 <= cur_k dr.

(** [B'] is [B] except, possibly, in column [k]. *)
Definition SameExceptColumn (k : nat) (B B' : Matrix F) : Prop :=
  shape B' = shape B /\
  forall a j, a < LDim B -> j <> k -> Get B' a j = Get B a j.

(** The property [P] holds of the loop variables each time the loop
    [while( k < n ) body] is about to run its body (within [fuel]
    iterations). *)
Fixpoint AlongLoop (P : Driver -> Prop) (body : Driver -> result Driver)
    (fuel n : nat) (dr : Driver) : Prop :=
  if cur_k dr <? n then
    match fuel with
    | O => True
    | S fuel' =>
      P dr /\
      match body dr with
      | Ok dr' => AlongLoop P body fuel' n dr'
      | _ => True
      end
    end
  else True.


(** ** What the reduction works on *)

(** The basis and its factorisation: the part of the working set that
    decides what the reduction does. *)
Definition Reduced (s : LLLState)
    : Matrix F * Matrix F * Matrix F * Matrix Real :=
  (stB s, stQR s, stT s, stD s).

(** The loop variables of a driver, with the working set cut down to
    [Reduced]. *)
Definition Progress (dr : Driver)
    : (Matrix F * Matrix F * Matrix F * Matrix Real) * nat * nat * nat :=
  (Reduced (work dr), cur_k dr, cur_nullity dr, cur_numSwaps dr).

(** A view of whatever a computation returns. *)
Definition mapResult {A B : Type} (f : A -> B) (r : result A) : result B :=
  match r with
  | Ok a => Ok (f a)
  | Raised e => Raised e
  | OutOfFuel => OutOfFuel
  end.

(** ** Further notions about a run *)

(** [B = B0 U] on the [m x n] entries of [B]: the transform [U] records
    the column operations that led from the basis [B0] to [B]. *)
Definition Tracks (B0 : Matrix F) (s : LLLState) : Prop :=
  forall i j, i < Height (stB s) -> j < Width (stB s) ->
    Get (stB s) i j = MulEntry (Width (stB s)) B0 (stU s) i j.

(** The test of the deep driver at index [i] (lines 492-494), with the
    partial norm it holds there: [Sqrt(delta) * Re R(i,i) > || R(i..k,k) ||]. *)
Definition DeepTest (ctrl : LLLCtrl Real) (QR : Matrix F) (k i : nat) : bool :=
  Rltb (TailNorm QR i k (k + 1 - i))
       (Rmul (Sqrt (delta ctrl)) (GetRealPart QR i i)).

(** The loop variables on entry of iteration [j] of [while( k < n ) body],
    if the loop gets that far. *)
Fixpoint Iterations (body : Driver -> result Driver) (j n : nat) (dr : Driver)
    : option Driver :=
  match j with
  | O => Some dr
  | S j' =>
    if cur_k dr <? n then
      match body dr with
      | Ok dr' => Iterations body j' n dr'
      | _ => None
      end
    else None
  end.

(** With [after] what a driver does after [Step]: in the iteration
    that starts from [dr], [Step] detects no zero vector and the
    nullity is zero afterwards -- the iteration forces no column to
    zero. *)
Definition NoZeroDetected (fuel : nat) (formU formUInv : bool)
    (ctrl : LLLCtrl Real) (after : Driver -> bool -> LLLState -> Driver)
    (dr : Driver) : Prop :=
  forall z s,
    Step fuel (cur_k dr) formU formUInv ctrl (work dr) = Ok (z, s) ->
    z = false /\ cur_nullity (after dr z s) = 0.

(** What a driver maintains as long as no column is forced to zero. *)
Definition TracksInv (B0 : Matrix F) (n : nat) (dr : Driver) : Prop :=
  Tracks B0 (work dr) /\ Dense (stB (work dr)) /\ Width (stB (work dr)) = n /\
  Square n (stU (work dr)) /\ 1 <= cur_k dr /\ cur_nullity dr = 0.

(** The diagonal entries [QR(i,i)], [i < k], are real. *)
Definition RealDiagonal (QR : Matrix F) (k : nat) : Prop :=
  forall i, i < k -> ofReal (RealPart (Get QR i i)) = Get QR i i.

(** What both drivers maintain about the factorisation: [QR] is a
    dense [m x n] matrix next to a basis of [m] rows, and its diagonal
    is real up to the loop variable [k]. *)
Definition FactorInv (m n : nat) (dr : Driver) : Prop :=
  let s := work dr in
  Dense (stQR s) /\ Height (stQR s) = m /\ Width (stQR s) = n /\
  Height (stB s) = m /\ 1 <= cur_k dr /\ RealDiagonal (stQR s) (cur_k dr).

End Model.

(** ** Exact rational scalars

    A concrete [Scalar] in which every operation the code performs is
    carried out exactly over the canonical rationals [Qc]: the reducer
    "in exact arithmetic".  Nothing is ever non-finite there. *)
Module RationalScalar.

Definition ofZ (z : Z) : Qc := Q2Qc (inject_Z z).
Definition leb (x y : Qc) : bool := Qle_bool x y.
Definition ltb (x y : Qc) : bool := negb (Qle_bool y x).
Definition abs (x : Qc) : Qc := Q2Qc (Qabs x).

(** Round half away from zero. *)
Definition round (x : Qc) : Qc :=
  let n := Qnum x in
  let d := Zpos (Qden x) in
  if (0 <=? n)%Z then ofZ ((2 * n + d) / (2 * d))
  else ofZ (- ((2 * (- n) + d) / (2 * d))).

(** Square root: exact on the square of a rational, and otherwise
    rounded down to a multiple of [2^-60]. *)
Definition sqrt (x : Qc) : Qc :=
  let n := Qnum x in
  let d := Zpos (Qden x) in
  if (n <=? 0)%Z then ofZ 0
  else
    let rn := Z.sqrt n in
    let rd := Z.sqrt d in
    if ((rn * rn =? n) && (rd * rd =? d))%Z
    then Q2Qc (rn # Z.to_pos rd)
    else Q2Qc (Z.sqrt (n * 2 ^ 120 / d) # 2 ^ 60).

Definition sumsq (xs : list Qc) : Qc :=
  fold_left (fun acc x => acc + x * x)%Qc xs (ofZ 0).

(** Modelled from the spec: the 2-norm ("nrm2") of a vector. *)
Definition nrm2 (xs : list Qc) : Qc := sqrt (sumsq xs).

(** Modelled from the spec: "a [SafeNorm(x,y)] primitive computing
    [sqrt(|x|^2 + |y|^2)]". *)
Definition safeNorm (a b : Qc) : Qc := sqrt (a * a + b * b)%Qc.

(** Modelled from the spec: [LeftReflector] "overwrites [rho_kk] with
    its norm (signed) and [QR[k+1..,k]] with the reflector tail"; the
    returned [tau] makes [I - tau [1;v][1;v]^T] map the input column to
    [(rho_kk, 0, ..., 0)].  A vector whose tail is zero is reflected by
    [tau = 2] with its head negated. *)
Definition leftReflector (chi : Qc) (x : list Qc) : Qc * Qc * list Qc :=
  let norm := nrm2 x in
  let alpha := chi in
  if Qeq_bool norm 0 then (ofZ 2, (- chi)%Qc, x)
  else
    let beta :=
      if leb alpha (ofZ 0) then safeNorm alpha norm
      else (- safeNorm alpha norm)%Qc in
    let tau := ((beta - alpha) / beta)%Qc in
    (tau, beta, map (fun xi => (xi * (ofZ 1 / (alpha - beta)))%Qc) x).

#[export] Instance scalar : Scalar := {|
  F := Qc;
  Real := Qc;
  Fint := ofZ;
  Fadd := Qcplus;
  Fsub := Qcminus;
  Fmul := Qcmult;
  Fdiv := Qcdiv;
  Fopp := Qcopp;
  Conj := fun x => x;
  ofReal := fun x => x;
  RealPart := fun x => x;
  ImagPart := fun _ => ofZ 0;
  Abs := abs;
  Round := round;
  Rint := ofZ;
  Radd := Qcplus;
  Rsub := Qcminus;
  Rmul := Qcmult;
  Rdiv := Qcdiv;
  RealAbs := abs;
  Rleb := leb;
  Rltb := ltb;
  Sqrt := sqrt;
  IsFinite := fun _ => true;
  Epsilon := Q2Qc (1 # 2 ^ 52);
  Nrm2 := nrm2;
  FrobeniusNorm := nrm2;
  SafeNorm := safeNorm;
  LeftReflector := leftReflector
|}.

(** A dense [m x n] matrix with leading dimension [m] from its columns. *)
Definition ofColumns (m n : nat) (cols : list (list Z)) : Matrix Qc :=
  mkMatrix m n m (map ofZ (concat cols)).

(** The [n x n] identity. *)
Definition identity (n : nat) : Matrix Qc :=
  mkMatrix n n n
    (concat (map (fun j => map (fun i => if i =? j then ofZ 1 else ofZ 0) (seq 0 n))
                 (seq 0 n))).

(** The entries of a matrix, column by column, as fractions. *)
Definition entries (M : Matrix Qc) : list Q := map this (Buffer M).

(** A control with the default [delta = 3/4], an [eta] slightly above
    one half, no reorthogonalisation and a small positive [zeroTol]. *)
Definition ctrl0 : LLLCtrl Qc :=
  mkCtrl (Q2Qc (3 # 4)) (Q2Qc (51 # 100)) false false true true
         (ofZ 0) 1 (Q2Qc (1 # 10 ^ 12)) false false.

(** Stand-ins for the report-only routines. *)
Definition noAchieved (_ : Matrix Qc) (_ : LLLCtrl Qc) : Qc * Qc := (ofZ 0, ofZ 0).
Definition noLogVolume (_ : Matrix Qc) : Qc := ofZ 0.

(** Whatever a computation returned, or [d] if it did not return. *)
Definition returned {A : Type} (d : A) (r : result A) : A :=
  match r with Ok a => a | _ => d end.

(** *** A run on a basis with a zero column

    [B = [ (1,0) (0,0) ]], [U = UInv = I]. *)
Definition exB : Matrix Qc := ofColumns 2 2 [[1; 0]; [0; 0]]%Z.

(** The working set on entry of the first [Step(1)]. *)
Definition exStart : Driver :=
  Eval vm_compute in Initialize exB (identity 2) (identity 2) ctrl0.

(** The loop variables after the first and after the second iteration. *)
Definition exIter1 : Driver :=
  Eval vm_compute in
    returned exStart (UnblockedIter 20 true true ctrl0 exStart).
Definition exIter2 : Driver :=
  Eval vm_compute in
    returned exIter1 (UnblockedIter 20 true true ctrl0 exIter1).

(** What [Step(1)] returns in the first iteration. *)
Definition exStep : bool * LLLState :=
  Eval vm_compute in
    returned (false, work exStart) (Step 20 1 true true ctrl0 (work exStart)).

(** What the flat driver returns. *)
Definition exRun : LLLState * LLLInfo Qc :=
  Eval vm_compute in
    returned (work exStart, mkInfo (ofZ 0) (ofZ 0) 0 0 0 (ofZ 0))
      (UnblockedAlg noAchieved noLogVolume 20 exB (identity 2) (identity 2)
         true true ctrl0).

(** *** A basis whose second column needs reducing

    [B = [ (1,0) (3,1) ]]: [Step(1)] finds [chi = 3] and subtracts three
    times column 0. *)
Definition exB2 : Matrix Qc := ofColumns 2 2 [[1; 0]; [3; 1]]%Z.

(** The working set on entry of [Step(1)], and with column 1 expanded. *)
Definition exStart2 : Driver :=
  Eval vm_compute in Initialize exB2 (identity 2) (identity 2) ctrl0.
Definition exExpanded2 : LLLState :=
  Eval vm_compute in Expanded 1 ctrl0 (work exStart2).

(** A [QR] whose column 0 is [(3,4)], before its reflector is formed. *)
Definition exQR : Matrix Qc := ofColumns 2 2 [[3; 4]; [0; 0]]%Z.

(** *** A basis of three columns: zero, [e0], zero *)
Definition exB3 : Matrix Qc := ofColumns 3 3 [[0; 0; 0]; [1; 0; 0]; [0; 0; 0]]%Z.

Definition exRun3 : LLLState * LLLInfo Qc :=
  Eval vm_compute in
    returned (work exStart, mkInfo (ofZ 0) (ofZ 0) 0 0 0 (ofZ 0))
      (UnblockedAlg noAchieved noLogVolume 20 exB3 (identity 3) (identity 3)
         true true ctrl0).

(** *** Further runs *)

(** No transform: the empty matrix that stands for a [U] or [UInv] that
    is not tracked. *)
Definition noMatrix : Matrix Qc := mkMatrix 0 0 1 [].

(** The flat driver on [exB] with no transform tracked. *)
Definition exRunPlain : LLLState * LLLInfo Qc :=
  Eval vm_compute in
    returned (work exStart, mkInfo (ofZ 0) (ofZ 0) 0 0 0 (ofZ 0))
      (UnblockedAlg noAchieved noLogVolume 20 exB noMatrix noMatrix
         false false ctrl0).

(** A basis whose second column is longer than [1/eps = 2^52]. *)
Definition exBig : Matrix Qc :=
  Eval vm_compute in ofColumns 2 2 [[1; 0]; [2 ^ 53; 0]]%Z.
Definition exStartBig : Driver :=
  Eval vm_compute in Initialize exBig (identity 2) (identity 2) ctrl0.

(** A basis of one column. *)
Definition exB1 : Matrix Qc := ofColumns 2 1 [[3; 4]]%Z.

(** A [2 x 3] and a [3 x 2] matrix to rotate. *)
Definition exWide : Matrix Qc := ofColumns 2 3 [[1; 2]; [3; 4]; [5; 6]]%Z.
Definition exTall : Matrix Qc := ofColumns 3 2 [[1; 2; 3]; [4; 5; 6]]%Z.

(** [ctrl0] in weak mode. *)
Definition ctrlWeak : LLLCtrl Qc :=
  mkCtrl (Q2Qc (3 # 4)) (Q2Qc (51 # 100)) true false true true
         (ofZ 0) 1 (Q2Qc (1 # 10 ^ 12)) false false.

(** What [Step(1)] leaves of [exStart2]: it returns [false]. *)
Definition exStepped2 : LLLState :=
  Eval vm_compute in
    snd (returned (false, work exStart2)
           (Step 20 1 true true ctrl0 (work exStart2))).

(** *** A run with a swap

    [B = [ (3,0) (1,1) ]]: the first iteration exchanges the two
    columns, the second reduces the new column 1. *)
Definition exB4 : Matrix Qc := ofColumns 2 2 [[3; 0]; [1; 1]]%Z.

Definition exStart4 : Driver :=
  Eval vm_compute in Initialize exB4 (identity 2) (identity 2) ctrl0.

(** What [Step(1)] leaves in the first and in the second iteration. *)
Definition exStepped4a : LLLState :=
  Eval vm_compute in
    snd (returned (false, work exStart4)
           (Step 20 1 true true ctrl0 (work exStart4))).
Definition exIter4a : Driver :=
  Eval vm_compute in
    returned exStart4 (UnblockedIter 20 true true ctrl0 exStart4).
Definition exStepped4b : LLLState :=
  Eval vm_compute in
    snd (returned (false, work exIter4a)
           (Step 20 1 true true ctrl0 (work exIter4a))).
Definition exIter4b : Driver :=
  Eval vm_compute in
    returned exIter4a (UnblockedIter 20 true true ctrl0 exIter4a).

Definition exRun4 : LLLState * LLLInfo Qc :=
  Eval vm_compute in
    returned (work exStart4, mkInfo (ofZ 0) (ofZ 0) 0 0 0 (ofZ 0))
      (UnblockedAlg noAchieved noLogVolume 20 exB4 (identity 2) (identity 2)
         true true ctrl0).

End RationalScalar.

(** ** Exact Gaussian-rational scalars

    The complex counterpart of [RationalScalar]: [F] is the field of
    pairs (real part, imaginary part) of rationals, [Real] is [Qc]. *)
Module GaussianScalar.

Import RationalScalar.

Definition C : Type := (Qc * Qc)%type.

Definition ofInt (z : Z) : C := (ofZ z, ofZ 0).
Definition ofRe (r : Qc) : C := (r, ofZ 0).
Definition add (z w : C) : C := (fst z + fst w, snd z + snd w)%Qc.
Definition sub (z w : C) : C := (fst z - fst w, snd z - snd w)%Qc.
Definition opp (z : C) : C := (- fst z, - snd z)%Qc.
Definition mul (z w : C) : C :=
  (fst z * fst w - snd z * snd w, fst z * snd w + snd z * fst w)%Qc.
Definition conj (z : C) : C := (fst z, - snd z)%Qc.
Definition normSq (z : C) : Qc := (fst z * fst z + snd z * snd z)%Qc.
Definition div (z w : C) : C :=
  ((fst z * fst w + snd z * snd w) / normSq w,
   (snd z * fst w - fst z * snd w) / normSq w)%Qc.
Definition cabs (z : C) : Qc := sqrt (normSq z).

(** Complex rounding rounds each coordinate. *)
Definition cround (z : C) : C := (round (fst z), round (snd z)).

Definition cnrm2 (xs : list C) : Qc :=
  sqrt (fold_left (fun acc x => acc + normSq x)%Qc xs (ofZ 0)).

Definition csafeNorm (a : Qc) (z : C) : Qc := sqrt (a * a + normSq z)%Qc.

(** Modelled from the spec: [LeftReflector] for complex scalars; it
    "overwrites [rho_kk] with its norm (signed) and [QR[k+1..,k]] with
    the reflector tail", so the new [rho_kk] is real. *)
Definition cleftReflector (chi : C) (x : list C) : C * C * list C :=
  let norm := cnrm2 x in
  let alpha := chi in
  if Qeq_bool norm 0 && Qeq_bool (snd alpha) 0 then (ofInt 2, opp chi, x)
  else
    let beta :=
      if leb (fst alpha) (ofZ 0) then csafeNorm norm alpha
      else (- csafeNorm norm alpha)%Qc in
    let tau := div (sub (ofRe beta) (conj alpha)) (ofRe beta) in
    (tau, ofRe beta,
     map (fun xi => mul xi (div (ofInt 1) (sub alpha (ofRe beta)))) x).

#[export] Instance scalar : Scalar := {|
  F := C;
  Real := Qc;
  Fint := ofInt;
  Fadd := add;
  Fsub := sub;
  Fmul := mul;
  Fdiv := div;
  Fopp := opp;
  Conj := conj;
  ofReal := ofRe;
  RealPart := fst;
  ImagPart := snd;
  Abs := cabs;
  Round := cround;
  Rint := ofZ;
  Radd := Qcplus;
  Rsub := Qcminus;
  Rmul := Qcmult;
  Rdiv := Qcdiv;
  RealAbs := abs;
  Rleb := leb;
  Rltb := ltb;
  Sqrt := sqrt;
  IsFinite := fun _ => true;
  Epsilon := Q2Qc (1 # 2 ^ 52);
  Nrm2 := cnrm2;
  FrobeniusNorm := cnrm2;
  SafeNorm := csafeNorm;
  LeftReflector := cleftReflector
|}.

(** The imaginary unit. *)
Definition imag : C := (ofZ 0, ofZ 1).

(** *** A [QR] whose diagonal entry [(0,0)] is not real

    [B = [ (1,0) (1,1) ]], [QR(0,0) = i], [t = (0), d = (1)]. *)
Definition exB : Matrix C :=
  mkMatrix 2 2 2 [ofInt 1; ofInt 0; ofInt 1; ofInt 1].
Definition exQR : Matrix C :=
  mkMatrix 2 2 2 [imag; ofInt 0; ofInt 0; ofInt 0].
Definition exT : Matrix C := mkMatrix 2 1 2 [ofInt 0; ofInt 0].
Definition exD : Matrix Qc := mkMatrix 2 1 2 [ofZ 1; ofZ 1].

(** *** A complex basis

    [B = [ (1+i,0) (1,1) ]] with no transform tracked; [exStartC] is
    the working set on entry of the first [Step(1)]. *)
Definition exBc : Matrix C :=
  mkMatrix 2 2 2 [(ofZ 1, ofZ 1); ofInt 0; ofInt 1; ofInt 1].
Definition noTransformC : Matrix C := mkMatrix 0 0 1 [].
Definition exStartC : Driver :=
  Eval vm_compute in Initialize exBc noTransformC noTransformC ctrl0.

End GaussianScalar.

(** ** Scalars with the special values of floating point

    A real [Scalar] whose values are the rationals together with
    [+inf], [-inf] and NaN.  An operation is exact when its exact
    result has magnitude at most [maxFinite] (the largest finite
    double), overflows to an infinity when it has not, and yields or
    propagates NaN as IEEE 754 arithmetic does ([inf - inf], [0 * inf],
    [0 / 0], [inf / inf]); every comparison with a NaN is false.
    Rounding of finite results, signed zeros and subnormals are left
    out. *)
Module FloatingScalar.

Import RationalScalar.

Inductive fl : Type :=
| Fin (q : Qc)
| PInf
| NInf
| NaN.

(** [(2^53 - 1) * 2^971], the largest finite double. *)
Definition maxFinite : Qc := Eval vm_compute in ofZ ((2 ^ 53 - 1) * 2 ^ 971).

(** The value an exact result [q] is delivered as. *)
Definition fit (q : Qc) : fl :=
  if ltb maxFinite q then PInf
  else if ltb q (- maxFinite)%Qc then NInf
  else Fin q.

Definition ofInt (z : Z) : fl := fit (ofZ z).

Definition opp (x : fl) : fl :=
  match x with
  | Fin a => Fin (- a)%Qc
  | PInf => NInf
  | NInf => PInf
  | NaN => NaN
  end.

Definition add (x y : fl) : fl :=
  match x, y with
  | NaN, _ | _, NaN => NaN
  | Fin a, Fin b => fit (a + b)%Qc
  | PInf, NInf | NInf, PInf => NaN
  | PInf, _ | _, PInf => PInf
  | NInf, _ | _, NInf => NInf
  end.

Definition sub (x y : fl) : fl := add x (opp y).

(** The product of the finite [a] with [+inf] ([pos]) or [-inf]:
    [0 * inf] is NaN. *)
Definition signedInf (a : Qc) (pos : bool) : fl :=
  if Qeq_bool a 0 then NaN
  else if Bool.eqb (ltb a (ofZ 0)) pos then NInf else PInf.

Definition mul (x y : fl) : fl :=
  match x, y with
  | NaN, _ | _, NaN => NaN
  | Fin a, Fin b => fit (a * b)%Qc
  | Fin a, PInf | PInf, Fin a => signedInf a true
  | Fin a, NInf | NInf, Fin a => signedInf a false
  | PInf, PInf | NInf, NInf => PInf
  | PInf, NInf | NInf, PInf => NInf
  end.

(** [a / 0] is an infinity of the sign of [a] and [0 / 0] is NaN; a
    finite value over an infinity is zero; [inf / inf] is NaN. *)
Definition div (x y : fl) : fl :=
  match x, y with
  | NaN, _ | _, NaN => NaN
  | Fin a, Fin b =>
    if Qeq_bool b 0 then signedInf a true else fit (a / b)%Qc
  | Fin _, _ => Fin (ofZ 0)
  | PInf, Fin b => if ltb b (ofZ 0) then NInf else PInf
  | NInf, Fin b => if ltb b (ofZ 0) then PInf else NInf
  | _, _ => NaN
  end.

Definition fleb (x y : fl) : bool :=
  match x with
  | NaN => false
  | NInf => match y with NaN => false | _ => true end
  | PInf => match y with PInf => true | _ => false end
  | Fin a => match y with Fin b => leb a b | PInf => true | _ => false end
  end.

Definition fltb (x y : fl) : bool :=
  match x with
  | NaN | PInf => false
  | NInf => match y with NaN | NInf => false | _ => true end
  | Fin a => match y with Fin b => ltb a b | PInf => true | _ => false end
  end.

Definition fabs (x : fl) : fl :=
  match x with
  | Fin a => Fin (abs a)
  | PInf | NInf => PInf
  | NaN => NaN
  end.

Definition fsqrt (x : fl) : fl :=
  match x with
  | Fin a => if ltb a (ofZ 0) then NaN else Fin (sqrt a)
  | PInf => PInf
  | NInf | NaN => NaN
  end.

Definition fround (x : fl) : fl :=
  match x with
  | Fin a => Fin (round a)
  | _ => x
  end.

Definition isFinite (x : fl) : bool :=
  match x with
  | Fin _ => true
  | _ => false
  end.

Definition isNaN (x : fl) : bool :=
  match x with
  | NaN => true
  | _ => false
  end.

Definition isZero (x : fl) : bool :=
  match x with
  | Fin a => Qeq_bool a 0
  | _ => false
  end.

Definition value (x : fl) : Qc :=
  match x with
  | Fin a => a
  | _ => ofZ 0
  end.

(** Modelled from the spec: the 2-norm of a vector, and "a
    [SafeNorm(x,y)] primitive computing [sqrt(|x|^2 + |y|^2)] without
    overflow": only the result can overflow, not the sum of squares on
    the way. *)
Definition fnrm2 (xs : list fl) : fl :=
  if existsb isNaN xs then NaN
  else if negb (forallb isFinite xs) then PInf
  else fit (sqrt (sumsq (map value xs))).

(** Modelled from the spec: [SafeNorm], the 2-norm of the pair. *)
Definition fsafeNorm (a b : fl) : fl := fnrm2 [a; b].

(** Modelled from the spec: [LeftReflector], by the formulas of
    [RationalScalar.leftReflector] in this arithmetic. *)
Definition fleftReflector (chi : fl) (x : list fl) : fl * fl * list fl :=
  let norm := fnrm2 x in
  let alpha := chi in
  if isZero norm then (ofInt 2, opp chi, x)
  else
    let beta :=
      if fleb alpha (ofInt 0) then fsafeNorm alpha norm
      else opp (fsafeNorm alpha norm) in
    let tau := div (sub beta alpha) beta in
    (tau, beta, map (fun xi => mul xi (div (ofInt 1) (sub alpha beta))) x).

#[export] Instance scalar : Scalar := {|
  F := fl;
  Real := fl;
  Fint := ofInt;
  Fadd := add;
  Fsub := sub;
  Fmul := mul;
  Fdiv := div;
  Fopp := opp;
  Conj := fun x => x;
  ofReal := fun x => x;
  RealPart := fun x => x;
  ImagPart := fun _ => ofInt 0;
  Abs := fabs;
  Round := fround;
  Rint := ofInt;
  Radd := add;
  Rsub := sub;
  Rmul := mul;
  Rdiv := div;
  RealAbs := fabs;
  Rleb := fleb;
  Rltb := fltb;
  Sqrt := fsqrt;
  IsFinite := isFinite;
  Epsilon := Fin (Q2Qc (1 # 2 ^ 52));
  Nrm2 := fnrm2;
  FrobeniusNorm := fnrm2;
  SafeNorm := fsafeNorm;
  LeftReflector := fleftReflector
|}.

(** The control [RationalScalar.ctrl0] in this arithmetic. *)
Definition ctrlF : LLLCtrl fl :=
  mkCtrl (Fin (Q2Qc (3 # 4))) (Fin (Q2Qc (51 # 100))) false false true true
         (Fin (ofZ 0)) 1 (Fin (Q2Qc (1 # 10 ^ 12))) false false.

Definition noTransform : Matrix fl := mkMatrix 0 0 1 [].

(** *** A finite basis whose first column overflows

    [B = [ (max,max) (1,1) ]] with [max] the largest finite value: the
    norm of column 0 is not finite.  [exStartOver] is the working set
    on entry of [Step(1)], [exBrokeOver] the one its first pass leaves
    by [break], on which [HouseholderStep(1)] is called. *)
Definition exBover : Matrix fl :=
  mkMatrix 2 2 2 [Fin maxFinite; Fin maxFinite; Fin (ofZ 1); Fin (ofZ 1)].

Definition exStartOver : Driver :=
  Eval vm_compute in Initialize exBover noTransform noTransform ctrlF.

Definition exBrokeOver : LLLState :=
  Eval vm_compute in
    match StepPass 1 false false ctrlF (work exStartOver) with
    | StepBreak s => s
    | _ => work exStartOver
    end.

End FloatingScalar.

(* ================================================================== *)
(** * Part II: properties                                               *)
(* ================================================================== *)

(** ** Stores and loops *)

Lemma length_wr {A : Type} (buf : list A) (p : nat) (v : A) :
  length (wr buf p v) = length buf.
Proof.
  revert p; induction buf as [|x r IH]; intros [|q]; simpl; auto.
Qed.

Lemma nth_wr_same {A : Type} (buf : list A) (p : nat) (v d : A) :
  p < length buf -> nth p (wr buf p v) d = v.
Proof.
  revert p; induction buf as [|x r IH]; intros [|q]; simpl; intros H;
    try lia; auto.
  apply IH; lia.
Qed.

Lemma nth_wr_other {A : Type} (buf : list A) (p q : nat) (v d : A) :
  p <> q -> nth q (wr buf p v) d = nth q buf d.
Proof.
  revert p q; induction buf as [|x r IH]; intros [|p] [|q]; simpl; intros H;
    try congruence; auto.
Qed.

(** The invariant rule of an ascending loop. *)
Lemma forUp_inv {A : Type} (P : nat -> A -> Prop) (body : nat -> A -> A) :
  forall cnt lo a,
    P lo a ->
    (forall i x, lo <= i < lo + cnt -> P i x -> P (S i) (body i x)) ->
    P (lo + cnt) (forUp lo cnt body a).
Proof.
  induction cnt as [|c IH]; intros lo a H0 Hs; simpl.
  - now rewrite Nat.add_0_r.
  - replace (lo + S c) with (S lo + c) by lia.
    apply IH.
    + apply Hs; [lia | assumption].
    + intros i x Hi; apply Hs; lia.
Qed.

(** The invariant rule of a descending loop: [P j] holds when the
    indices [j, j+1, ...] have been done. *)
Lemma forDown_inv {A : Type} (P : nat -> A -> Prop) (body : nat -> A -> A) :
  forall cnt lo a,
    P (lo + cnt) a ->
    (forall i x, lo <= i < lo + cnt -> P (S i) x -> P i (body i x)) ->
    P lo (forDown lo cnt body a).
Proof.
  induction cnt as [|c IH]; intros lo a H0 Hs; simpl.
  - now rewrite Nat.add_0_r in H0.
  - apply IH.
    + apply Hs; [lia |]. now replace (S (lo + c)) with (lo + S c) by lia.
    + intros i x Hi; apply Hs; lia.
Qed.

Lemma forUp_ext {A : Type} (f g : nat -> A -> A) :
  forall cnt lo a,
    (forall i x, lo <= i < lo + cnt -> f i x = g i x) ->
    forUp lo cnt f a = forUp lo cnt g a.
Proof.
  induction cnt as [|c IH]; intros lo a H; simpl; auto.
  rewrite H by lia. apply IH. intros; apply H; lia.
Qed.

(** Column-major addressing is injective below the leading dimension. *)
Lemma index_inj (ld i j i' j' : nat) :
  i < ld -> i' < ld -> i + j * ld = i' + j' * ld -> i = i' /\ j = j'.
Proof.
  intros Hi Hi' H.
  assert (j = j') by nia. subst j'. split; lia.
Qed.

Lemma index_neq (ld i j i' j' : nat) :
  i < ld -> i' < ld -> (i <> i' \/ j <> j') -> i + j * ld <> i' + j' * ld.
Proof.
  intros Hi Hi' H E. destruct (index_inj _ _ _ _ _ Hi Hi' E). lia.
Qed.

Lemma index_bound (ld w len i j : nat) :
  i < ld -> j < w -> ld * w <= len -> i + j * ld < len.
Proof. intros. nia. Qed.

Section Buffers.
Context {Sc : Scalar}.

Lemma rd_wr_same (buf : list F) (p : nat) (v : F) :
  p < length buf -> rd (wr buf p v) p = v.
Proof. apply nth_wr_same. Qed.

Lemma rd_wr_other (buf : list F) (p q : nat) (v : F) :
  p <> q -> rd (wr buf p v) q = rd buf q.
Proof. apply nth_wr_other. Qed.

Lemma rd_wr (buf : list F) (p q : nat) (v : F) :
  p < length buf -> rd (wr buf p v) q = if q =? p then v else rd buf q.
Proof.
  intros H. destruct (Nat.eqb_spec q p) as [->|N].
  - now apply rd_wr_same.
  - apply rd_wr_other; congruence.
Qed.

(** A loop whose pass [l] stores one value at its own position
    [pos l], computed from entries no earlier pass has stored to:
    every stored value is the one computed on the initial buffer, and
    nothing else moves. *)
Lemma forUp_wr (pos : nat -> nat) (val : nat -> list F -> F)
    (buf : list F) (cnt : nat) :
  (forall l, l < cnt -> pos l < length buf) ->
  (forall l l', l < cnt -> l' < cnt -> pos l = pos l' -> l = l') ->
  (forall l b, l < cnt -> length b = length buf ->
     (forall p, (forall l', l' < l -> p <> pos l') -> rd b p = rd buf p) ->
     val l b = val l buf) ->
  let r := forUp 0 cnt (fun l b => wr b (pos l) (val l b)) buf in
  length r = length buf /\
  (forall l, l < cnt -> rd r (pos l) = val l buf) /\
  (forall p, (forall l, l < cnt -> p <> pos l) -> rd r p = rd buf p).
Proof.
  intros Hin Hinj Hval r. subst r.
  pose (P := fun (c : nat) (b : list F) =>
    length b = length buf /\
    (forall l, l < c -> rd b (pos l) = val l buf) /\
    (forall p, (forall l, l < c -> p <> pos l) -> rd b p = rd buf p)).
  change (P (0 + cnt) (forUp 0 cnt (fun l b => wr b (pos l) (val l b)) buf)).
  apply forUp_inv.
  - repeat split; intros; try lia; try reflexivity.
  - intros i x [_ Hi] (Hlen & Hdone & Hrest). simpl in Hi.
    assert (Hv : val i x = val i buf).
    { apply Hval; auto. }
    repeat split.
    + now rewrite length_wr.
    + intros l Hl. destruct (Nat.eq_dec l i) as [->|Hne].
      * rewrite rd_wr_same; [assumption | rewrite Hlen; auto].
      * rewrite rd_wr_other.
        -- apply Hdone; lia.
        -- intros E. apply Hne. symmetry. apply Hinj; auto; lia.
    + intros p Hp. rewrite rd_wr_other.
      * apply Hrest. intros l Hl. apply Hp. lia.
      * intros E. apply (Hp i); [lia | congruence].
Qed.

(** [Axpy] on two disjoint strided vectors of one buffer. *)
Lemma Axpy_spec (n : nat) (alpha : F) (buf : list F) (xoff incx yoff incy : nat) :
  (forall l, l < n -> yoff + l * incy < length buf) ->
  (forall l l', l < n -> l' < n -> yoff + l * incy = yoff + l' * incy -> l = l') ->
  (forall l l', l < n -> l' < n -> xoff + l * incx <> yoff + l' * incy) ->
  let r := Axpy n alpha buf xoff incx yoff incy in
  length r = length buf /\
  (forall l, l < n ->
     rd r (yoff + l * incy)
     = Fadd (rd buf (yoff + l * incy)) (Fmul alpha (rd buf (xoff + l * incx)))) /\
  (forall p, (forall l, l < n -> p <> yoff + l * incy) -> rd r p = rd buf p).
Proof.
  intros Hin Hinj Hdis. unfold Axpy.
  apply (forUp_wr (fun l => yoff + l * incy)
           (fun l b => Fadd (rd b (yoff + l * incy)) (Fmul alpha (rd b (xoff + l * incx)))));
    auto.
  intros l b Hl Hlen Hb.
  rewrite !Hb; auto.
  - intros l' Hl'. apply Hdis; lia.
  - intros l' Hl' E. apply Hinj in E; lia.
Qed.

(** [Copy] between two disjoint strided vectors of one buffer. *)
Lemma Copy_spec (n : nat) (buf : list F) (xoff incx yoff incy : nat) :
  (forall l, l < n -> yoff + l * incy < length buf) ->
  (forall l l', l < n -> l' < n -> yoff + l * incy = yoff + l' * incy -> l = l') ->
  (forall l l', l < n -> l' < n -> xoff + l * incx <> yoff + l' * incy) ->
  let r := Copy n buf xoff incx yoff incy in
  length r = length buf /\
  (forall l, l < n -> rd r (yoff + l * incy) = rd buf (xoff + l * incx)) /\
  (forall p, (forall l, l < n -> p <> yoff + l * incy) -> rd r p = rd buf p).
Proof.
  intros Hin Hinj Hdis. unfold Copy.
  apply (forUp_wr (fun l => yoff + l * incy) (fun l b => rd b (xoff + l * incx))); auto.
  intros l b Hl Hlen Hb. apply Hb.
  intros l' Hl'. apply Hdis; lia.
Qed.

Lemma rowDot_ext (k : nat) (b b' : list F) (aoff lda i : nat) (x : list F) :
  (forall l, l < k -> rd b (aoff + i + l * lda) = rd b' (aoff + i + l * lda)) ->
  rowDot k b aoff lda i x = rowDot k b' aoff lda i x.
Proof.
  intros H. unfold rowDot.
  assert (G : forall cnt lo a,
            lo + cnt <= k ->
            forUp lo cnt (fun l acc => Fadd acc (Fmul (rd b (aoff + i + l * lda)) (rd x l))) a
            = forUp lo cnt (fun l acc => Fadd acc (Fmul (rd b' (aoff + i + l * lda)) (rd x l))) a).
  { induction cnt as [|c IH]; intros lo a Hle; simpl; auto.
    rewrite H by lia. apply IH. lia. }
  apply G. lia.
Qed.

(** [Gemv] with the matrix and the target vector disjoint in one
    buffer. *)
Lemma Gemv_spec (m k : nat) (alpha : F) (buf : list F) (aoff lda : nat)
    (x : list F) (beta : F) (yoff incy : nat) :
  (forall i, i < m -> yoff + i * incy < length buf) ->
  (forall i i', i < m -> i' < m -> yoff + i * incy = yoff + i' * incy -> i = i') ->
  (forall i l i', i < m -> l < k -> i' < m -> aoff + i + l * lda <> yoff + i' * incy) ->
  let r := Gemv m k alpha buf aoff lda x beta yoff incy in
  length r = length buf /\
  (forall i, i < m ->
     rd r (yoff + i * incy)
     = Fadd (Fmul alpha (rowDot k buf aoff lda i x)) (Fmul beta (rd buf (yoff + i * incy)))) /\
  (forall p, (forall i, i < m -> p <> yoff + i * incy) -> rd r p = rd buf p).
Proof.
  intros Hin Hinj Hdis. unfold Gemv.
  apply (forUp_wr (fun i => yoff + i * incy)
           (fun i b => Fadd (Fmul alpha (rowDot k b aoff lda i x))
                            (Fmul beta (rd b (yoff + i * incy))))); auto.
  intros i b Hi Hlen Hb.
  rewrite (rowDot_ext k b buf).
  - rewrite Hb; auto. intros l' Hl' E. apply Hinj in E; lia.
  - intros l Hl. apply Hb. intros l' Hl'. apply Hdis; lia.
Qed.

End Buffers.

(** ** Shapes are preserved *)

Lemma length_forUp {A : Type} (body : nat -> list A -> list A) :
  (forall i b, length (body i b) = length b) ->
  forall cnt lo a, length (forUp lo cnt body a) = length a.
Proof.
  intros H; induction cnt as [|c IH]; intros lo a; simpl; auto.
  now rewrite IH, H.
Qed.

Lemma length_forDown {A : Type} (body : nat -> list A -> list A) :
  (forall i b, length (body i b) = length b) ->
  forall cnt lo a, length (forDown lo cnt body a) = length a.
Proof.
  intros H; induction cnt as [|c IH]; intros lo a; simpl; auto.
  now rewrite IH, H.
Qed.

Section Shapes.
Context {Sc : Scalar}.

Lemma length_Axpy n alpha buf xoff incx yoff incy :
  length (Axpy n alpha buf xoff incx yoff incy) = length buf.
Proof. apply length_forUp; intros; apply length_wr. Qed.

Lemma length_Copy n buf xoff incx yoff incy :
  length (Copy n buf xoff incx yoff incy) = length buf.
Proof. apply length_forUp; intros; apply length_wr. Qed.

Lemma length_Gemv m k alpha buf aoff lda x beta yoff incy :
  length (Gemv m k alpha buf aoff lda x beta yoff incy) = length buf.
Proof. apply length_forUp; intros; apply length_wr. Qed.

Lemma length_Geru m n alpha x buf yoff incy aoff lda :
  length (Geru m n alpha x buf yoff incy aoff lda) = length buf.
Proof.
  apply length_forUp; intros. apply length_forUp; intros; apply length_wr.
Qed.

Lemma length_ApplyReflector m k ld tBuf dBuf i buf :
  length (ApplyReflector m k ld tBuf dBuf i buf) = length buf.
Proof.
  unfold ApplyReflector. now rewrite !length_wr, length_Axpy, length_wr.
Qed.

Lemma length_CopyInColumn k B QR :
  length (CopyInColumn k B QR) = length (Buffer QR).
Proof. apply length_forUp; intros; apply length_wr. Qed.

Lemma shape_withBuffer {A : Type} (M : Matrix A) (buf : list A) :
  length buf = length (Buffer M) -> shape (withBuffer M buf) = shape M.
Proof. unfold shape; simpl; intros ->; reflexivity. Qed.

Lemma shape_SetEntry {A : Type} (M : Matrix A) (i j : nat) (v : A) :
  shape (SetEntry M i j v) = shape M.
Proof. apply shape_withBuffer, length_wr. Qed.

Lemma shape_ExpandQR k B QR t d numOrthog :
  shape (ExpandQR k B QR t d numOrthog) = shape QR.
Proof.
  apply shape_withBuffer.
  rewrite length_forUp.
  - apply length_CopyInColumn.
  - intros. apply length_forUp. intros. apply length_ApplyReflector.
Qed.

Lemma shape_HouseholderStep k QR t d :
  let r := HouseholderStep k QR t d in
  shape (fst (fst r)) = shape QR /\ shape (snd (fst r)) = shape t /\
  shape (snd r) = shape d.
Proof.
  unfold HouseholderStep.
  destruct (LeftReflector _ _) as [[tau rho] v].
  assert (L : forall cnt b,
    length (forUp 0 cnt
      (fun l b0 => wr b0 (S k + k * LDim QR + l) (nth l v (Fint 0))) b) = length b).
  { intros. apply length_forUp. intros. apply length_wr. }
  destruct (Rltb _ _); simpl; repeat split;
    try apply shape_SetEntry; apply shape_withBuffer;
    rewrite ?length_wr, L, ?length_wr; reflexivity.
Qed.

Lemma shape_ColSwap M j1 j2 : shape (ColSwap M j1 j2) = shape M.
Proof.
  apply shape_withBuffer, length_forUp. intros. now rewrite !length_wr.
Qed.

Lemma shape_RowSwap M i1 i2 : shape (RowSwap M i1 i2) = shape M.
Proof.
  apply shape_withBuffer, length_forUp. intros. now rewrite !length_wr.
Qed.

Lemma shape_ZeroCol M j : shape (ZeroCol M j) = shape M.
Proof. apply shape_withBuffer, length_forUp. intros. apply length_wr. Qed.

Lemma shape_DeepColSwap M i k : shape (DeepColSwap M i k) = shape M.
Proof.
  apply shape_withBuffer. rewrite length_forUp by (intros; apply length_wr).
  apply length_forDown. intros. apply length_Copy.
Qed.

Lemma shape_DeepRowSwap M i k : shape (DeepRowSwap M i k) = shape M.
Proof.
  apply shape_withBuffer. rewrite length_forUp by (intros; apply length_wr).
  apply length_forDown. intros. apply length_Copy.
Qed.

Lemma shapes_Expanded k ctrl s : shapes (Expanded k ctrl s) = shapes s.
Proof. unfold shapes; simpl. now rewrite shape_ExpandQR. Qed.

Lemma shapes_Reflect k s : shapes (Reflect k s) = shapes s.
Proof.
  unfold Reflect, shapes.
  pose proof (shape_HouseholderStep k (stQR s) (stT s) (stD s)) as H.
  destruct (HouseholderStep _ _ _ _) as [[QR t] d]; simpl in *.
  destruct H as (-> & -> & ->). reflexivity.
Qed.

Lemma shapes_ZeroColumn k s : shapes (ZeroColumn k s) = shapes s.
Proof.
  unfold ZeroColumn, shapes; simpl.
  rewrite !shape_SetEntry, !shape_withBuffer; auto;
    apply length_forUp; intros; apply length_wr.
Qed.

Lemma length_ScanStep ctrl k ld i qx :
  length (fst (ScanStep ctrl k ld i qx)) = length (fst qx) /\
  length (snd (ScanStep ctrl k ld i qx)) = length (snd qx).
Proof.
  unfold ScanStep. destruct qx as [q x].
  destruct (Rleb _ _); simpl; [now rewrite length_wr|].
  destruct (OverEta _ _); simpl; now rewrite ?length_Axpy, length_wr.
Qed.

Lemma length_Scan ctrl k ld buf :
  length (fst (Scan ctrl k ld buf)) = length buf /\
  length (snd (Scan ctrl k ld buf)) = k.
Proof.
  unfold Scan.
  pose (P := fun (_ : nat) (qx : list F * list F) =>
               length (fst qx) = length buf /\ length (snd qx) = k).
  change (P 0 (forDown 0 k (ScanStep ctrl k ld) (buf, repeat (Fint 0) k))).
  apply forDown_inv.
  - split; simpl; auto. apply repeat_length.
  - intros i x _ [H1 H2]. destruct (length_ScanStep ctrl k ld i x) as [E1 E2].
    split; congruence.
Qed.

Lemma shapes_SizeReduce k formU formUInv ctrl s :
  shapes (SizeReduce k formU formUInv ctrl s) = shapes s.
Proof.
  unfold SizeReduce, WeakReduce, StandardReduce.
  destruct (weak ctrl).
  - destruct (Rltb _ _); auto. destruct (OverEta _ _); auto.
    unfold shapes; simpl.
    destruct formU, formUInv; rewrite !shape_withBuffer; auto using length_Axpy.
  - pose proof (length_Scan ctrl k (LDim (stQR s)) (Buffer (stQR s))) as [H _].
    destruct (Scan _ _ _ _) as [q x]; simpl in H.
    unfold shapes; simpl.
    destruct formU, formUInv; rewrite !shape_withBuffer;
      auto using length_Gemv, length_Geru.
Qed.

Lemma shapes_StepPass k formU formUInv ctrl s :
  match StepPass k formU formUInv ctrl s with
  | StepRaise _ => True
  | StepZero s' | StepBreak s' | StepAgain s' => shapes s' = shapes s
  end.
Proof.
  unfold StepPass.
  destruct (NormGuard _); auto.
  destruct (Rleb _ _).
  - now rewrite shapes_ZeroColumn, shapes_Expanded.
  - destruct (NormGuard _); auto.
    destruct (Rltb _ _); now rewrite shapes_SizeReduce, shapes_Expanded.
Qed.

Lemma shapes_AfterPasses k formU formUInv ctrl :
  forall j s s',
    AfterPasses j k formU formUInv ctrl s = Some s' -> shapes s' = shapes s.
Proof.
  induction j as [|j IH]; intros s s' H; simpl in H.
  - now inversion H.
  - pose proof (shapes_StepPass k formU formUInv ctrl s) as Hs.
    destruct (StepPass _ _ _ _ _); try discriminate.
    rewrite (IH _ _ H). assumption.
Qed.

Lemma shapes_Step k formU formUInv ctrl :
  forall fuel s b s',
    Step fuel k formU formUInv ctrl s = Ok (b, s') -> shapes s' = shapes s.
Proof.
  induction fuel as [|f IH]; intros s b s' H; simpl in H; [discriminate|].
  pose proof (shapes_StepPass k formU formUInv ctrl s) as Hs.
  destruct (StepPass _ _ _ _ _); try discriminate.
  - inversion H; subst; assumption.
  - inversion H; subst. now rewrite shapes_Reflect.
  - rewrite (IH _ _ _ H). assumption.
Qed.

End Shapes.

(** ** The control flow of [Step] *)

Section StepControl.
Context {Sc : Scalar}.
Variables (k : nat) (formU formUInv : bool) (ctrl : LLLCtrl Real).

Local Abbreviation step := (fun fuel => Step fuel k formU formUInv ctrl).
Local Abbreviation pass := (StepPass k formU formUInv ctrl).
Local Abbreviation passes := (fun j => AfterPasses j k formU formUInv ctrl).

(** A run that ends does so in some pass [j < fuel], reached through
    [j] passes that fell through; what it returns is what that one pass
    decides. *)
Lemma Step_last_pass :
  forall fuel s r,
    Step fuel k formU formUInv ctrl s = r -> r <> OutOfFuel ->
    exists j s', j < fuel /\ passes j s = Some s' /\ step 1 s' = r.
Proof.
  induction fuel as [|f IH]; intros s r H Hr; simpl in H; [congruence|].
  destruct (pass s) as [e|s1|s1|s1] eqn:E.
  - exists 0, s. simpl. rewrite E. repeat split; auto; lia.
  - exists 0, s. simpl. rewrite E. repeat split; auto; lia.
  - exists 0, s. simpl. rewrite E. repeat split; auto; lia.
  - destruct (IH _ _ H Hr) as (j & s' & Hj & Hp & Hs).
    exists (S j), s'. simpl. rewrite E. repeat split; auto; lia.
Qed.

Lemma Step_from_pass :
  forall j fuel s s' r,
    passes j s = Some s' -> step 1 s' = r -> r <> OutOfFuel -> j < fuel ->
    Step fuel k formU formUInv ctrl s = r.
Proof.
  induction j as [|j IH]; intros fuel s s' r Hp Hs Hr Hj; simpl in Hp.
  - inversion Hp; subst s'. destruct fuel as [|f]; [lia|].
    simpl in *. destruct (pass s); auto. congruence.
  - destruct fuel as [|f]; [lia|]. simpl.
    destruct (pass s); try discriminate.
    apply (IH f _ s'); auto. lia.
Qed.

Lemma NormGuard_Some (nrm : Real) (e : RuntimeError) :
  NormGuard nrm = Some e <-> NormRejected nrm e.
Proof.
  unfold NormGuard, NormRejected.
  destruct (IsFinite nrm); simpl.
  - destruct (Rltb _ nrm); split.
    + intros H; inversion H; auto.
    + intros [[? _]|(_ & _ & ->)]; [discriminate | reflexivity].
    + discriminate.
    + intros [[? _]|(_ & ? & _)]; discriminate.
  - split.
    + intros H; inversion H; auto.
    + intros [[_ ->]|[? _]]; [reflexivity | discriminate].
Qed.

Lemma NormGuard_None (nrm : Real) :
  NormGuard nrm = None <-> forall e, ~ NormRejected nrm e.
Proof.
  split.
  - intros H e He. apply NormGuard_Some in He. congruence.
  - intros H. destruct (NormGuard nrm) as [e|] eqn:E; auto.
    apply NormGuard_Some in E. destruct (H _ E).
Qed.

(** A single pass raises exactly when one of the two norms it takes is
    rejected. *)
Lemma StepPass_raises (s : LLLState) (e : RuntimeError) :
  pass s = StepRaise e <->
  let s1 := Expanded k ctrl s in
  let oldNorm := ColumnNorm k s1 in
  NormRejected oldNorm e \/
  ((forall e', ~ NormRejected oldNorm e') /\
   Rleb oldNorm (zeroTol ctrl) = false /\
   NormRejected (ColumnNorm k (SizeReduce k formU formUInv ctrl s1)) e).
Proof.
  unfold StepPass. cbv zeta.
  destruct (NormGuard (ColumnNorm k (Expanded k ctrl s))) as [e0|] eqn:G0.
  - apply NormGuard_Some in G0. split.
    + intros H; inversion H; subst; auto.
    + intros [H|(H & _)].
      * apply NormGuard_Some in H, G0. congruence.
      * destruct (H _ G0).
  - pose proof (proj1 (NormGuard_None _) G0) as N0.
    destruct (Rleb _ _) eqn:Z.
    + split; [discriminate|].
      intros [H|(_ & ? & _)]; [destruct (N0 _ H) | discriminate].
    + destruct (NormGuard (ColumnNorm k (SizeReduce _ _ _ _ _))) as [e1|] eqn:G1.
      * apply NormGuard_Some in G1. split.
        -- intros H; inversion H; subst; auto.
        -- intros [H|(_ & _ & H)]; [destruct (N0 _ H)|].
           apply NormGuard_Some in H, G1. congruence.
      * split.
        -- destruct (Rltb _ _); discriminate.
        -- intros [H|(_ & _ & H)]; [destruct (N0 _ H)|].
           apply NormGuard_Some in H. congruence.
Qed.

(** C6. [Step] raises an error exactly when, in some pass of its loop,
    the norm of column [k] taken before size-reduction is rejected
    (non-finite: [UnboundedNorm]; greater than [1/eps]:
    [NormExceedsInvEps]), or that norm is accepted, the zero test does
    not fire, and the norm taken after size-reduction is rejected.  Both
    guards are applied in every pass, and a rejected norm always
    raises: there is no silent continuation. *)
Theorem Step_raises_iff_norm_rejected :
  forall (fuel : nat) (s : LLLState) (e : RuntimeError),
    Step fuel k formU formUInv ctrl s = Raised e <->
    exists j s',
      j < fuel /\ AfterPasses j k formU formUInv ctrl s = Some s' /\
      let s1 := Expanded k ctrl s' in
      let oldNorm := ColumnNorm k s1 in
      (NormRejected oldNorm e \/
       ((forall e', ~ NormRejected oldNorm e') /\
        Rleb oldNorm (zeroTol ctrl) = false /\
        NormRejected (ColumnNorm k (SizeReduce k formU formUInv ctrl s1)) e)).
Proof.
  intros fuel s e. split.
  - intros H.
    destruct (Step_last_pass fuel s _ H) as (j & s' & Hj & Hp & Hs); [discriminate|].
    exists j, s'. repeat split; auto.
    apply StepPass_raises. simpl in Hs.
    destruct (pass s'); congruence.
  - intros (j & s' & Hj & Hp & Hr).
    apply StepPass_raises in Hr.
    apply (Step_from_pass j fuel s s'); auto; [|discriminate].
    simpl. now rewrite Hr.
Qed.

(** The shape facts behind [StepReady] only depend on [shapes]. *)
Lemma StepReady_shapes (s s' : LLLState) :
  shapes s' = shapes s -> StepReady k s -> StepReady k s'.
Proof.
  unfold shapes, shape, StepReady, Dense. intros E.
  injection E; intros.
  repeat match goal with H : _ = _ |- _ => rewrite H; clear H end.
  assumption.
Qed.

(** Clearing a column: the loops of lines 156-159. *)
Lemma zero_loop (buf : list F) (ld w m j : nat) :
  m <= ld -> j < w -> ld * w <= length buf ->
  let r := forUp 0 m (fun i b => wr b (i + j * ld) (Fint 0)) buf in
  length r = length buf /\
  (forall i, i < m -> rd r (i + j * ld) = Fint 0) /\
  (forall p, (forall i, i < m -> p <> i + j * ld) -> rd r p = rd buf p).
Proof.
  intros Hm Hj Hlen.
  apply (forUp_wr (fun i => i + j * ld) (fun _ _ => Fint 0)); auto.
  - intros. apply index_bound with (ld := ld) (w := w); auto; lia.
  - intros; lia.
Qed.

Lemma ZeroColumn_spec (s : LLLState) :
  StepReady k s ->
  ColumnIsZero (stB (ZeroColumn k s)) k /\
  ColumnIsZero (stQR (ZeroColumn k s)) k /\
  Get (stT (ZeroColumn k s)) k 0 = ofReal (Rdiv (Rint 1) (Rint 2)) /\
  GetR (stD (ZeroColumn k s)) k 0 = Rint 1.
Proof.
  intros ([HB1 HB2] & [HQ1 HQ2] & HH & HW & Hk & Ht & Hd).
  unfold ColumnIsZero, Get, GetR, ZeroColumn; simpl.
  repeat split.
  - intros i Hi.
    destruct (zero_loop (Buffer (stB s)) (LDim (stB s)) (Width (stB s))
                (Height (stB s)) k HB1 Hk HB2) as (_ & H & _).
    now apply H.
  - intros i Hi. rewrite HH in HQ1, Hi. rewrite <- HW in Hk.
    destruct (zero_loop (Buffer (stQR s)) (LDim (stQR s)) (Width (stQR s))
                (Height (stB s)) k HQ1 Hk HQ2) as (_ & H & _).
    now apply H.
  - rewrite Nat.add_0_r. now apply rd_wr_same.
  - rewrite Nat.add_0_r. unfold rdR. now apply nth_wr_same.
Qed.

(** What a pass decides when the zero test fires, and when it leaves
    the loop by [break]. *)
Lemma StepPass_zero (s s' : LLLState) :
  pass s = StepZero s' <->
  let s1 := Expanded k ctrl s in
  let oldNorm := ColumnNorm k s1 in
  (forall e, ~ NormRejected oldNorm e) /\
  Rleb oldNorm (zeroTol ctrl) = true /\
  s' = ZeroColumn k s1.
Proof.
  unfold StepPass. cbv zeta.
  destruct (NormGuard (ColumnNorm k (Expanded k ctrl s))) as [e0|] eqn:G0.
  - apply NormGuard_Some in G0. split; [discriminate|].
    intros (H & _). destruct (H _ G0).
  - pose proof (proj1 (NormGuard_None _) G0) as N0.
    destruct (Rleb _ _) eqn:Z.
    + split.
      * intros H; inversion H; auto.
      * intros (_ & _ & ->). reflexivity.
    + split.
      * destruct (NormGuard (ColumnNorm k (SizeReduce _ _ _ _ _))); [discriminate|].
        destruct (Rltb (Rmul _ _) _); discriminate.
      * intros (_ & ? & _). discriminate.
Qed.

Lemma StepPass_break (s s2 : LLLState) :
  pass s = StepBreak s2 <->
  let s1 := Expanded k ctrl s in
  let oldNorm := ColumnNorm k s1 in
  let newNorm := ColumnNorm k (SizeReduce k formU formUInv ctrl s1) in
  (forall e, ~ NormRejected oldNorm e) /\
  Rleb oldNorm (zeroTol ctrl) = false /\
  (forall e, ~ NormRejected newNorm e) /\
  Rltb (Rmul (reorthogTol ctrl) oldNorm) newNorm = true /\
  s2 = SizeReduce k formU formUInv ctrl s1.
Proof.
  unfold StepPass. cbv zeta.
  destruct (NormGuard (ColumnNorm k (Expanded k ctrl s))) as [e0|] eqn:G0.
  - apply NormGuard_Some in G0. split; [discriminate|].
    intros (H & _). destruct (H _ G0).
  - pose proof (proj1 (NormGuard_None _) G0) as N0.
    destruct (Rleb _ _) eqn:Z.
    + split; [discriminate|]. intros (_ & ? & _). discriminate.
    + destruct (NormGuard (ColumnNorm k (SizeReduce _ _ _ _ _))) as [e1|] eqn:G1.
      * apply NormGuard_Some in G1. split; [discriminate|].
        intros (_ & _ & H & _). destruct (H _ G1).
      * pose proof (proj1 (NormGuard_None _) G1) as N1.
        destruct (Rltb (Rmul _ _) _) eqn:L.
        -- split.
           ++ intros H; inversion H; auto.
           ++ intros (_ & _ & _ & _ & ->). reflexivity.
        -- split; [discriminate|]. intros (_ & _ & _ & ? & _). discriminate.
Qed.

(** The call of [HouseholderStep] that ends [Step], field by field. *)
Lemma Reflect_calls_HouseholderStep (s2 s' : LLLState) :
  s' = Reflect k s2 <->
  HouseholderStep k (stQR s2) (stT s2) (stD s2) = (stQR s', stT s', stD s') /\
  stB s' = stB s2 /\ stU s' = stU s2 /\ stUInv s' = stUInv s2.
Proof.
  unfold Reflect.
  destruct (HouseholderStep k (stQR s2) (stT s2) (stD s2)) as [[QR' t'] d'].
  split.
  - intros ->. simpl. auto.
  - intros (H & HB & HU & HV). destruct s'; simpl in *.
    inversion H; subst. reflexivity.
Qed.

(** C5. [Step] returns [true] exactly when, in some pass of its loop
    (reached through passes that all fell through), the norm of
    [B(:,k)] taken right after [ExpandQR] passes both guards and is
    [<= zeroTol]; what it returns then is the expanded working set with
    [B(:,k)] and [QR(:,k)] cleared, [t[k] = 1/2] and [d[k] = 1].
    [Step] returns [false] exactly when, in some pass, the zero test
    fails, the norm taken after size-reduction passes both guards and
    is greater than [reorthogTol * oldNorm] (the [break]); it then ends
    with the call [HouseholderStep( k, QR, t, d )] on the size-reduced
    working set, which leaves [B], [U] and [UInv] as they are.  Both
    directions hold: a pass of either kind makes [Step] return. *)
Theorem Step_returns_true_iff_zero_column :
  forall (fuel : nat) (s s' : LLLState),
    (Step fuel k formU formUInv ctrl s = Ok (true, s') <->
     exists j sj,
       j < fuel /\ AfterPasses j k formU formUInv ctrl s = Some sj /\
       let s1 := Expanded k ctrl sj in
       let oldNorm := ColumnNorm k s1 in
       (forall e, ~ NormRejected oldNorm e) /\
       Rleb oldNorm (zeroTol ctrl) = true /\
       s' = ZeroColumn k s1) /\
    (Step fuel k formU formUInv ctrl s = Ok (false, s') <->
     exists j sj,
       j < fuel /\ AfterPasses j k formU formUInv ctrl s = Some sj /\
       let s1 := Expanded k ctrl sj in
       let oldNorm := ColumnNorm k s1 in
       let s2 := SizeReduce k formU formUInv ctrl s1 in
       let newNorm := ColumnNorm k s2 in
       (forall e, ~ NormRejected oldNorm e) /\
       Rleb oldNorm (zeroTol ctrl) = false /\
       (forall e, ~ NormRejected newNorm e) /\
       Rltb (Rmul (reorthogTol ctrl) oldNorm) newNorm = true /\
       HouseholderStep k (stQR s2) (stT s2) (stD s2) = (stQR s', stT s', stD s') /\
       stB s' = stB s2 /\ stU s' = stU s2 /\ stUInv s' = stUInv s2) /\
    (StepReady k s ->
     Step fuel k formU formUInv ctrl s = Ok (true, s') ->
     ColumnIsZero (stB s') k /\ ColumnIsZero (stQR s') k /\
     Get (stT s') k 0 = ofReal (Rdiv (Rint 1) (Rint 2)) /\
     GetR (stD s') k 0 = Rint 1).
Proof.
  intros fuel s s'.
  assert (Htrue :
    Step fuel k formU formUInv ctrl s = Ok (true, s') <->
    exists j sj,
      j < fuel /\ AfterPasses j k formU formUInv ctrl s = Some sj /\
      pass sj = StepZero s').
  { split.
    - intros H.
      destruct (Step_last_pass fuel s _ H) as (j & sj & Hj & Hp & Hs);
        [discriminate|].
      exists j, sj. repeat split; auto. simpl in Hs.
      destruct (pass sj); congruence.
    - intros (j & sj & Hj & Hp & Hz).
      apply (Step_from_pass j fuel s sj); auto; [|discriminate].
      simpl. now rewrite Hz. }
  assert (Hfalse :
    Step fuel k formU formUInv ctrl s = Ok (false, s') <->
    exists j sj,
      j < fuel /\ AfterPasses j k formU formUInv ctrl s = Some sj /\
      exists s2, pass sj = StepBreak s2 /\ s' = Reflect k s2).
  { split.
    - intros H.
      destruct (Step_last_pass fuel s _ H) as (j & sj & Hj & Hp & Hs);
        [discriminate|].
      exists j, sj. repeat split; auto. simpl in Hs.
      destruct (pass sj) as [e|s1|s1|s1]; try congruence.
      exists s1. split; congruence.
    - intros (j & sj & Hj & Hp & s2 & Hb & ->).
      apply (Step_from_pass j fuel s sj); auto; [|discriminate].
      simpl. now rewrite Hb. }
  split; [|split].
  - rewrite Htrue. split; intros (j & sj & Hj & Hp & H); exists j, sj;
      (split; [assumption|]); (split; [assumption|]); now apply StepPass_zero.
  - rewrite Hfalse. split.
    + intros (j & sj & Hj & Hp & s2 & Hb & Hr). exists j, sj.
      split; [assumption|]. split; [assumption|].
      apply StepPass_break in Hb. cbv zeta in Hb.
      destruct Hb as (H1 & H2 & H3 & H4 & ->).
      apply Reflect_calls_HouseholderStep in Hr. cbv zeta. tauto.
    + intros (j & sj & Hj & Hp & H). cbv zeta in H.
      destruct H as (H1 & H2 & H3 & H4 & H5).
      exists j, sj. split; [assumption|]. split; [assumption|].
      exists (SizeReduce k formU formUInv ctrl (Expanded k ctrl sj)). split.
      * apply StepPass_break. cbv zeta. tauto.
      * now apply Reflect_calls_HouseholderStep.
  - intros Hready H. apply Htrue in H.
    destruct H as (j & sj & Hj & Hp & Hz).
    apply StepPass_zero in Hz. cbv zeta in Hz. destruct Hz as (_ & _ & ->).
    apply ZeroColumn_spec.
    apply (StepReady_shapes s); auto.
    now rewrite shapes_Expanded, (shapes_AfterPasses _ _ _ _ _ _ _ Hp).
Qed.

End StepControl.

(** ** Termination of [Step] without reorthogonalisation *)

Section StepTerminates.
Context {Sc : Scalar}.
Variables (k : nat) (formU formUInv : bool) (ctrl : LLLCtrl Real).

(** [ctrl.reorthogTol = 0] and [ctrl.zeroTol >= 0]. *)
Hypothesis reorthog_zero : reorthogTol ctrl = Rint 0.
Hypothesis zeroTol_nonneg : Rleb (Rint 0) (zeroTol ctrl) = true.

(** On finite reals: a value that is not greater than [0 * x] is [<= 0];
    and [<=] is transitive. *)
Hypothesis not_above_zero :
  forall x y : Real,
    IsFinite x = true -> IsFinite y = true ->
    Rltb (Rmul (Rint 0) x) y = false -> Rleb y (Rint 0) = true.
Hypothesis Rleb_trans :
  forall x y z : Real, Rleb x y = true -> Rleb y z = true -> Rleb x z = true.

Lemma NormGuard_finite (nrm : Real) : NormGuard nrm = None -> IsFinite nrm = true.
Proof. unfold NormGuard. destruct (IsFinite nrm); simpl; congruence. Qed.

(** A pass that falls through leaves a column that the next pass
    finds to be zero. *)
Lemma pass_again_then_zero (s s1 : LLLState) :
  StepPass k formU formUInv ctrl s = StepAgain s1 ->
  StepPass k formU formUInv ctrl s1 = StepZero (ZeroColumn k (Expanded k ctrl s1)).
Proof.
  intros H. unfold StepPass in H. cbv zeta in H.
  destruct (NormGuard (ColumnNorm k (Expanded k ctrl s))) eqn:G0; [discriminate|].
  destruct (Rleb (ColumnNorm k (Expanded k ctrl s)) (zeroTol ctrl)) eqn:Z;
    [discriminate|].
  destruct (NormGuard (ColumnNorm k (SizeReduce k formU formUInv ctrl (Expanded k ctrl s))))
    eqn:G1; [discriminate|].
  destruct (Rltb _ _) eqn:L; [discriminate|].
  inversion H; subst s1; clear H.
  unfold StepPass. cbv zeta.
  change (ColumnNorm k (Expanded k ctrl (SizeReduce k formU formUInv ctrl (Expanded k ctrl s))))
    with (ColumnNorm k (SizeReduce k formU formUInv ctrl (Expanded k ctrl s))).
  rewrite G1.
  rewrite reorthog_zero in L.
  apply not_above_zero in L; auto using NormGuard_finite.
  now rewrite (Rleb_trans _ _ _ L zeroTol_nonneg).
Qed.

(** C10. With [reorthogTol = 0] and [zeroTol >= 0], [Step] ends within
    two passes of its loop on every input: a pass that neither raises
    nor returns nor breaks is followed by a pass whose zero test fires
    (so the size-reduction runs at most twice, in fact once), and more
    fuel never changes the outcome. *)
Theorem Step_terminates_within_two_passes :
  forall s : LLLState,
    (forall s1, StepPass k formU formUInv ctrl s = StepAgain s1 ->
       Step 1 k formU formUInv ctrl s1 = Ok (true, ZeroColumn k (Expanded k ctrl s1))) /\
    (forall s1, StepPass k formU formUInv ctrl s = StepBreak s1 ->
       Step 1 k formU formUInv ctrl s = Ok (false, Reflect k s1)) /\
    Step 2 k formU formUInv ctrl s <> OutOfFuel /\
    (forall fuel, 2 <= fuel ->
       Step fuel k formU formUInv ctrl s = Step 2 k formU formUInv ctrl s).
Proof.
  intros s. repeat split.
  - intros s1 H. simpl. now rewrite (pass_again_then_zero _ _ H).
  - intros s1 H. simpl. now rewrite H.
  - simpl. destruct (StepPass k formU formUInv ctrl s) eqn:E; try discriminate.
    now rewrite (pass_again_then_zero _ _ E).
  - intros [|[|f]] Hf; try lia. simpl.
    destruct (StepPass k formU formUInv ctrl s) eqn:E; auto.
    now rewrite (pass_again_then_zero _ _ E).
Qed.

End StepTerminates.

(** ** The deep driver always recomputes the partial norm *)

Section DeepRecompute.
Context {Sc : Scalar}.

Lemma Downdate_recomputes (QR : Matrix F) (k i : nat) (origNorm partialNorm : Real) :
  Downdate QR k i origNorm partialNorm = DowndateRecompute QR k i origNorm partialNorm.
Proof.
  unfold Downdate, DowndateRecompute, alwaysRecomputeNorms.
  now rewrite orb_true_r.
Qed.

Lemma DeepScan_ext (f g : Matrix F -> nat -> nat -> Real -> Real -> Real * Real)
    (ctrl : LLLCtrl Real) (QR : Matrix F) (k : nat) :
  (forall i o p, f QR k i o p = g QR k i o p) ->
  forall cnt i o p,
    DeepScan f ctrl QR k cnt i o p = DeepScan g ctrl QR k cnt i o p.
Proof.
  intros H. induction cnt as [|c IH]; intros i o p; simpl; auto.
  destruct (Rltb _ _); auto.
  rewrite H. destruct (g QR k i o p). apply IH.
Qed.

Lemma DriverLoop_ext (f g : Driver -> result Driver) (n : nat) :
  (forall dr, f dr = g dr) ->
  forall fuel dr, DriverLoop f fuel n dr = DriverLoop g fuel n dr.
Proof.
  intros H. induction fuel as [|fu IH]; intros dr; simpl; auto.
  destruct (cur_k dr <? n); auto.
  rewrite H. destruct (g dr); simpl; auto.
Qed.

(** C9. With [alwaysRecomputeNorms] hard-wired to [true] the branch
    [partialNorm *= Sqrt(gamma)] is dead: after every index [i] that
    does not trigger an insertion, [partialNorm] is the 2-norm of
    [QR(i+1..k, k)] and [origNorm] is reset to it; and the deep driver
    returns, on every input and for every fuel, exactly what the
    variant without the LAWN-176 fallback test returns. *)
Theorem UnblockedDeepAlg_equals_recompute_variant :
  (forall (QR : Matrix F) (k i : nat) (origNorm partialNorm : Real),
     Downdate QR k i origNorm partialNorm
     = (Nrm2 (gather (Buffer QR) ((i + 1) + k * LDim QR) 1 (k - i)),
        Nrm2 (gather (Buffer QR) ((i + 1) + k * LDim QR) 1 (k - i)))) /\
  (forall (Achieved : Matrix F -> LLLCtrl Real -> Real * Real)
          (LogVolume : Matrix F -> Real)
          (fuel : nat) (B U UInv : Matrix F) (formU formUInv : bool)
          (ctrl : LLLCtrl Real),
     UnblockedDeepAlg Achieved LogVolume fuel B U UInv formU formUInv ctrl
     = UnblockedDeepAlgRecompute Achieved LogVolume fuel B U UInv formU formUInv ctrl).
Proof.
  split.
  - intros. now rewrite Downdate_recomputes.
  - intros. unfold UnblockedDeepAlg, UnblockedDeepAlgRecompute, DeepAlgWith.
    f_equal. apply DriverLoop_ext. intros dr.
    unfold DeepIter.
    destruct (Step _ _ _ _ _ _) as [[z s]| |]; simpl; auto. f_equal.
    unfold DeepAfterStep.
    rewrite (DeepScan_ext Downdate DowndateRecompute); auto.
    intros. apply Downdate_recomputes.
Qed.

End DeepRecompute.

(** ** [HouseholderStep] fixes the sign of the diagonal *)

Section Householder.
Context {Sc : Scalar}.

(** Negating a scalar of negative real part gives one of non-negative
    real part, and a non-negative real is not negative.  Both hold of
    floating-point numbers, whose order is not total: a NaN is neither
    negative nor non-negative. *)
Hypothesis negate_negative :
  forall z : F,
    Rltb (RealPart z) (Rint 0) = true ->
    Rleb (Rint 0) (RealPart (Fmul z (Fint (-1)))) = true.
Hypothesis nonneg_not_negative :
  forall x : Real, Rleb (Rint 0) x = true -> Rltb x (Rint 0) = false.

Lemma tail_loop (buf : list F) (v : list F) (off cnt : nat) :
  off + cnt <= length buf ->
  let r := forUp 0 cnt (fun l b => wr b (off + l) (nth l v (Fint 0))) buf in
  length r = length buf /\
  (forall l, l < cnt -> rd r (off + l) = nth l v (Fint 0)) /\
  (forall p, (forall l, l < cnt -> p <> off + l) -> rd r p = rd buf p).
Proof.
  intros H.
  apply (forUp_wr (fun l => off + l) (fun l _ => nth l v (Fint 0))); auto.
  - intros; lia.
  - intros; lia.
Qed.

(** C7 (as the code has it). After [HouseholderStep(k)], [d[k]] is
    [-1] or [+1] and [t[k]] is the [tau] that [LeftReflector] returned;
    [d[k] = -1] with the diagonal entry negated exactly when
    [LeftReflector] left a value [rho] of negative real part, and
    otherwise [d[k] = +1] with [QR(k,k) = rho] as it is.  The real part
    of [QR(k,k)] is then never negative, and it is non-negative
    whenever the real part of [rho] is comparable with zero (negative
    or non-negative), as that of every finite value is.  Below the
    diagonal, column [k] holds the reflector that [LeftReflector]
    returned; nothing else of [QR], [t] and [d] is written. *)
Theorem HouseholderStep_diagonal_sign :
  forall (k : nat) (QR t : Matrix F) (d : Matrix Real),
    Dense QR -> k < Height QR -> k < Width QR ->
    k < length (Buffer t) -> k < length (Buffer d) ->
    let tail := gather (Buffer QR) (S k + k * LDim QR) 1 (Height QR - S k) in
    let tau := fst (fst (LeftReflector (Get QR k k) tail)) in
    let rho := snd (fst (LeftReflector (Get QR k k) tail)) in
    let v := snd (LeftReflector (Get QR k k) tail) in
    let QR' := fst (fst (HouseholderStep k QR t d)) in
    let t' := snd (fst (HouseholderStep k QR t d)) in
    let d' := snd (HouseholderStep k QR t d) in
    (GetR d' k 0 = Rint (-1) \/ GetR d' k 0 = Rint 1) /\
    Get t' k 0 = tau /\
    (Rltb (RealPart rho) (Rint 0) = true ->
       GetR d' k 0 = Rint (-1) /\ Get QR' k k = Fmul rho (Fint (-1))) /\
    (Rltb (RealPart rho) (Rint 0) = false ->
       GetR d' k 0 = Rint 1 /\ Get QR' k k = rho) /\
    Rltb (GetRealPart QR' k k) (Rint 0) = false /\
    (Rltb (RealPart rho) (Rint 0) = true \/ Rleb (Rint 0) (RealPart rho) = true ->
       Rleb (Rint 0) (GetRealPart QR' k k) = true) /\
    (forall l, l < Height QR - S k ->
       Get QR' (S k + l) k = nth l v (Fint 0)) /\
    (forall i j, i < LDim QR -> j <> k \/ i < k ->
       Get QR' i j = Get QR i j) /\
    (forall i, i <> k -> Get t' i 0 = Get t i 0) /\
    (forall i, i <> k -> GetR d' i 0 = GetR d i 0).
Proof.
  intros k QR t d [HD1 HD2] Hk Hw Ht Hd. cbv zeta.
  unfold HouseholderStep.
  change (Get QR k k) with (rd (Buffer QR) (k + k * LDim QR)).
  destruct (LeftReflector _ _) as [[tau rho] v]; cbn [fst snd].
  set (ld := LDim QR) in *.
  assert (Hkk : k + k * ld < length (Buffer QR)).
  { apply index_bound with (ld := ld) (w := Width QR); auto; lia. }
  set (b1 := wr (Buffer QR) (k + k * ld) rho).
  destruct (tail_loop b1 v (S k + k * ld) (Height QR - S k)) as (Tl & Tt & Tr).
  { subst b1. rewrite length_wr.
    assert (Height QR + k * ld <= length (Buffer QR)) by nia. lia. }
  set (QRBuf := forUp 0 (Height QR - S k)
                  (fun l b => wr b (S k + k * ld + l) (nth l v (Fint 0))) b1) in *.
  assert (Hdiag : rd QRBuf (k + k * ld) = rho).
  { rewrite Tr by (intros; lia). subst b1. now apply rd_wr_same. }
  assert (Hlen : k + k * ld < length QRBuf).
  { rewrite Tl. subst b1. now rewrite length_wr. }
  assert (Htail : forall l, l < Height QR - S k ->
            rd QRBuf (S k + l + k * ld) = nth l v (Fint 0)).
  { intros l Hl. replace (S k + l + k * ld) with (S k + k * ld + l) by lia.
    now apply Tt. }
  assert (Hframe : forall i j, i < ld -> j <> k \/ i < k ->
            rd QRBuf (i + j * ld) = rd (Buffer QR) (i + j * ld)).
  { intros i j Hi Hij. rewrite Tr.
    - subst b1. apply rd_wr_other.
      destruct (Nat.eq_dec j k) as [->|Hj]; [|apply index_neq; lia].
      destruct Hij; [congruence|lia].
    - intros l Hl. replace (S k + k * ld + l) with ((S k + l) + k * ld) by lia.
      destruct (Nat.eq_dec j k) as [->|Hj]; [|apply index_neq; lia].
      destruct Hij; [congruence|lia]. }
  clearbody QRBuf. clear Tl Tt Tr.
  assert (Ht' : Get (SetEntry t k 0 tau) k 0 = tau).
  { unfold Get, SetEntry; simpl. rewrite Nat.add_0_r. now apply rd_wr_same. }
  assert (Hd' : forall x, GetR (SetEntry d k 0 x) k 0 = x).
  { intros x. unfold GetR, SetEntry, rdR; simpl. rewrite Nat.add_0_r.
    now apply nth_wr_same. }
  assert (Hto : forall i, i <> k -> Get (SetEntry t k 0 tau) i 0 = Get t i 0).
  { intros i Hi. unfold Get, SetEntry; simpl. rewrite !Nat.add_0_r.
    apply rd_wr_other. lia. }
  assert (Hdo : forall x i, i <> k -> GetR (SetEntry d k 0 x) i 0 = GetR d i 0).
  { intros x i Hi. unfold GetR, SetEntry, rdR; simpl. rewrite !Nat.add_0_r.
    apply nth_wr_other. lia. }
  assert (Hneg : forall x,
            Get (withBuffer QR (wr QRBuf (k + k * ld) x)) k k = x).
  { intros x. unfold Get; simpl. fold ld. now apply rd_wr_same. }
  assert (Hsame : Get (withBuffer QR QRBuf) k k = rho) by exact Hdiag.
  assert (Hother : forall x i j, i + j * ld <> k + k * ld ->
            Get (withBuffer QR (wr QRBuf (k + k * ld) x)) i j
            = Get (withBuffer QR QRBuf) i j).
  { intros x i j Hne. unfold Get; simpl. fold ld. apply rd_wr_other. lia. }
  assert (Htail' : forall l, l < Height QR - S k ->
            Get (withBuffer QR QRBuf) (S k + l) k = nth l v (Fint 0))
    by exact Htail.
  assert (Hframe' : forall i j, i < ld -> j <> k \/ i < k ->
            Get (withBuffer QR QRBuf) i j = Get QR i j)
    by exact Hframe.
  destruct (Rltb (RealPart rho) (Rint 0)) eqn:E; cbn [fst snd];
    unfold GetRealPart; rewrite ?Hneg, ?Hsame, Ht', Hd'.
  - pose proof (negate_negative rho E) as Hnn.
    repeat split; auto; try discriminate.
    + intros l Hl. rewrite Hother by lia. now apply Htail'.
    + intros i j Hi Hij. rewrite Hother; [now apply Hframe'|].
      destruct (Nat.eq_dec j k) as [->|Hj]; [|apply index_neq; lia].
      destruct Hij; [congruence|lia].
  - repeat split; auto; try discriminate.
    intros [C|C]; [discriminate|assumption].
Qed.

End Householder.

(** ** Column and row swaps *)

Section Swaps.
Context {Sc : Scalar}.

(** A loop that exchanges the entries at [p1 i] and [p2 i]. *)
Lemma swap_loop (p1 p2 : nat -> nat) (buf : list F) (cnt : nat) :
  (forall i, i < cnt -> p1 i < length buf /\ p2 i < length buf) ->
  (forall i i', i < cnt -> i' < cnt -> p1 i <> p2 i') ->
  (forall i i', i < cnt -> i' < cnt -> p1 i = p1 i' -> i = i') ->
  (forall i i', i < cnt -> i' < cnt -> p2 i = p2 i' -> i = i') ->
  let r := forUp 0 cnt
             (fun i b => let a := rd b (p1 i) in
                         wr (wr b (p1 i) (rd b (p2 i))) (p2 i) a) buf in
  length r = length buf /\
  (forall i, i < cnt -> rd r (p1 i) = rd buf (p2 i) /\ rd r (p2 i) = rd buf (p1 i)) /\
  (forall p, (forall i, i < cnt -> p <> p1 i /\ p <> p2 i) -> rd r p = rd buf p).
Proof.
  intros Hin Hdis Hinj1 Hinj2 r. subst r.
  pose (P := fun (c : nat) (b : list F) =>
    length b = length buf /\
    (forall i, i < c -> rd b (p1 i) = rd buf (p2 i) /\ rd b (p2 i) = rd buf (p1 i)) /\
    (forall p, (forall i, i < c -> p <> p1 i /\ p <> p2 i) -> rd b p = rd buf p)).
  match goal with |- context [forUp 0 cnt ?f buf] =>
    change (P (0 + cnt) (forUp 0 cnt f buf)) end.
  apply forUp_inv.
  - repeat split; intros; try lia; try reflexivity.
  - intros i x [_ Hi] (Hlen & Hdone & Hrest). simpl in Hi. cbv zeta.
    destruct (Hin i Hi) as [I1 I2].
    assert (E1 : rd x (p1 i) = rd buf (p1 i)).
    { apply Hrest. intros i' Hi'. split.
      - intros E. apply Hinj1 in E; lia.
      - apply Hdis; lia. }
    assert (E2 : rd x (p2 i) = rd buf (p2 i)).
    { apply Hrest. intros i' Hi'. split.
      - intros E. symmetry in E. revert E. apply Hdis; lia.
      - intros E. apply Hinj2 in E; lia. }
    repeat split.
    + now rewrite !length_wr.
    + destruct (Nat.eq_dec i0 i) as [->|Hne].
      * rewrite rd_wr_other by (intros E; symmetry in E; revert E; apply Hdis; lia).
        rewrite rd_wr_same by (rewrite Hlen; auto). assumption.
      * rewrite !rd_wr_other.
        -- apply Hdone; lia.
        -- intros E. apply Hinj1 in E; lia.
        -- intros E. symmetry in E. revert E. apply Hdis; lia.
    + destruct (Nat.eq_dec i0 i) as [->|Hne].
      * rewrite rd_wr_same by (rewrite length_wr, Hlen; auto). assumption.
      * rewrite !rd_wr_other.
        -- apply Hdone; lia.
        -- apply Hdis; lia.
        -- intros E. apply Hinj2 in E; lia.
    + intros p Hp. rewrite !rd_wr_other.
      * apply Hrest. intros i' Hi'. apply Hp. lia.
      * intros E. destruct (Hp i); [lia|]. congruence.
      * intros E. destruct (Hp i); [lia|]. congruence.
Qed.

(** [ColSwap( M, j1, j2 )] exchanges columns [j1] and [j2] and leaves
    every other entry of the buffer. *)
Lemma ColSwap_spec (M : Matrix F) (j1 j2 : nat) :
  Dense M -> j1 < Width M -> j2 < Width M -> j1 <> j2 ->
  forall i j, i < LDim M ->
    Get (ColSwap M j1 j2) i j
    = if i <? Height M then Get M i (transpose j1 j2 j) else Get M i j.
Proof.
  intros [D1 D2] H1 H2 Hne i j Hi.
  unfold Get, ColSwap; simpl.
  destruct (swap_loop (fun r => r + j1 * LDim M) (fun r => r + j2 * LDim M)
              (Buffer M) (Height M)) as (_ & Hsw & Hrest).
  - intros r Hr. split;
      apply index_bound with (ld := LDim M) (w := Width M); auto; lia.
  - intros r r' Hr Hr'. apply index_neq; auto; lia.
  - intros; lia.
  - intros; lia.
  - unfold transpose.
    destruct (Nat.ltb_spec i (Height M)) as [Hh|Hh].
    + destruct (Nat.eqb_spec j j1) as [->|N1].
      * now apply Hsw.
      * destruct (Nat.eqb_spec j j2) as [->|N2].
        -- now apply Hsw.
        -- apply Hrest. intros r Hr. split; apply index_neq; auto; lia.
    + apply Hrest. intros r Hr. split; apply index_neq; auto; lia.
Qed.

(** [RowSwap( M, i1, i2 )] exchanges rows [i1] and [i2]. *)
Lemma RowSwap_spec (M : Matrix F) (i1 i2 : nat) :
  Dense M -> i1 < Height M -> i2 < Height M -> i1 <> i2 ->
  forall i j, i < LDim M ->
    Get (RowSwap M i1 i2) i j
    = if j <? Width M then Get M (transpose i1 i2 i) j else Get M i j.
Proof.
  intros [D1 D2] H1 H2 Hne i j Hi.
  unfold Get, RowSwap; simpl.
  destruct (swap_loop (fun c => i1 + c * LDim M) (fun c => i2 + c * LDim M)
              (Buffer M) (Width M)) as (_ & Hsw & Hrest).
  - intros c Hc. split;
      apply index_bound with (ld := LDim M) (w := Width M); auto; lia.
  - intros c c' Hc Hc'. apply index_neq; auto; lia.
  - intros c c' Hc Hc' E. apply index_inj in E; lia.
  - intros c c' Hc Hc' E. apply index_inj in E; lia.
  - unfold transpose.
    destruct (Nat.ltb_spec j (Width M)) as [Hw|Hw].
    + destruct (Nat.eqb_spec i i1) as [->|N1].
      * now apply Hsw.
      * destruct (Nat.eqb_spec i i2) as [->|N2].
        -- now apply Hsw.
        -- apply Hrest. intros c Hc. split; apply index_neq; auto; lia.
    + apply Hrest. intros c Hc. split; apply index_neq; auto; lia.
Qed.

End Swaps.

(** ** The Lovasz branch of the flat driver *)

Section Lovasz.
Context {Sc : Scalar}.
Variables (formU formUInv : bool) (ctrl : LLLCtrl Real).

(** C3. After [Step(k)], with [left = Sqrt(delta) * Re R(k-1,k-1)] and
    [right = SafeNorm(Re R(k,k), R(k-1,k))]: if [left <= right] the
    driver moves to [k+1] and swaps nothing; otherwise [numSwaps] grows
    by one, columns [k-1] and [k] of [B] are exchanged (and of [U], and
    rows [k-1] and [k] of [UInv], when tracked), and [k] becomes [k-1]
    -- except for [k = 1], where [k] stays, column [0] is re-expanded
    and re-reflected, and the nullity is reset to one (with [B(:,0)]
    and [QR(:,0)] cleared) or zero by the test against [zeroTol]. *)
Theorem AfterStep_lovasz_test :
  forall (dr : Driver) (zeroVector : bool) (s : LLLState),
    let k := cur_k dr in
    1 <= k -> Dense (stB s) -> k < Width (stB s) ->
    (formU = true -> Dense (stU s) /\ k < Width (stU s)) ->
    (formUInv = true -> Dense (stUInv s) /\ k < Height (stUInv s)) ->
    let nullity := if zeroVector then k + 1 else Nat.min (cur_nullity dr) k in
    let left := Rmul (Sqrt (delta ctrl)) (GetRealPart (stQR s) (k - 1) (k - 1)) in
    let right := SafeNorm (GetRealPart (stQR s) k k) (Get (stQR s) (k - 1) k) in
    let dr' := AfterStep formU formUInv ctrl dr zeroVector s in
    (Rleb left right = true ->
       dr' = mkDriver s (k + 1) nullity (cur_numSwaps dr)) /\
    (Rleb left right = false ->
       let sw := SwapColumns k formU formUInv s in
       cur_numSwaps dr' = cur_numSwaps dr + 1 /\
       (forall i j, i < Height (stB s) ->
          Get (stB sw) i j = Get (stB s) i (transpose (k - 1) k j)) /\
       (if formU
        then forall i j, i < Height (stU s) ->
               Get (stU sw) i j = Get (stU s) i (transpose (k - 1) k j)
        else stU sw = stU s) /\
       (if formUInv
        then forall i j, i < LDim (stUInv s) -> j < Width (stUInv s) ->
               Get (stUInv sw) i j = Get (stUInv s) (transpose (k - 1) k i) j
        else stUInv sw = stUInv s) /\
       (k <> 1 -> dr' = mkDriver sw (k - 1) nullity (cur_numSwaps dr + 1)) /\
       (k = 1 ->
          let s0 := Reflect 0 (Expanded 0 ctrl sw) in
          cur_k dr' = 1 /\
          if Rleb (FrobeniusNorm (column (stB s0) 0)) (zeroTol ctrl)
          then cur_nullity dr' = 1 /\
               work dr' = mkState (ZeroCol (stB s0) 0) (stU s0) (stUInv s0)
                            (ZeroCol (stQR s0) 0) (stT s0) (stD s0)
          else cur_nullity dr' = 0 /\ work dr' = s0)).
Proof.
  intros dr zeroVector s k Hk HB HkB HU HUInv nullity left right dr'.
  subst dr'. unfold AfterStep, LovaszHolds. fold k. fold left. fold right.
  split; intros E; rewrite E; [reflexivity|]. cbv zeta.
  split.
  { destruct (k =? 1); [destruct (FirstColumn _ _)|]; reflexivity. }
  split.
  { intros i j Hi. unfold SwapColumns; simpl.
    rewrite ColSwap_spec; auto; try lia.
    - apply Nat.ltb_lt in Hi. now rewrite Hi.
    - destruct HB; lia. }
  split.
  { destruct formU; [|reflexivity].
    destruct HU as [DU HkU]; auto.
    intros i j Hi. unfold SwapColumns; simpl.
    rewrite ColSwap_spec; auto; try lia.
    - apply Nat.ltb_lt in Hi. now rewrite Hi.
    - destruct DU; lia. }
  split.
  { destruct formUInv; [|reflexivity].
    destruct HUInv as [DU HkU]; auto.
    intros i j Hi Hj. unfold SwapColumns; simpl.
    rewrite RowSwap_spec; auto; try lia.
    apply Nat.ltb_lt in Hj. now rewrite Hj. }
  split.
  - intros Hne. apply Nat.eqb_neq in Hne. now rewrite Hne.
  - intros ->. simpl Nat.eqb. cbv iota.
    unfold FirstColumn.
    destruct (Rleb (FrobeniusNorm _) _); simpl; auto.
Qed.

End Lovasz.

(** ** [ExpandQR] *)

Section Expand.
Context {Sc : Scalar}.

Lemma CopyInColumn_spec (k : nat) (B QR : Matrix F) :
  Dense QR -> k < Width QR -> Height B <= LDim QR ->
  length (CopyInColumn k B QR) = length (Buffer QR) /\
  (forall i, i < Height B ->
     rd (CopyInColumn k B QR) (i + k * LDim QR) = Get B i k) /\
  (forall p, (forall i, i < Height B -> p <> i + k * LDim QR) ->
     rd (CopyInColumn k B QR) p = rd (Buffer QR) p).
Proof.
  intros [D1 D2] Hk Hm. unfold CopyInColumn, Get.
  apply (forUp_wr (fun i => i + k * LDim QR)
           (fun i _ => rd (Buffer B) (i + k * LDim B))); auto.
  - intros. apply index_bound with (ld := LDim QR) (w := Width QR); auto; lia.
  - intros; lia.
Qed.

(** One application of reflector [i] to column [k], entry by entry.
    [ip] is the inner product of the reflector column (head replaced by
    one) with rows [i..m-1] of column [k]. *)
Lemma ApplyReflector_spec (m k ld w : nat) (tBuf : list F) (dBuf : list Real)
    (i : nat) (buf : list F) :
  m <= ld -> ld * w <= length buf -> k < w -> i < k -> i < m ->
  let one := wr buf (i + i * ld) (Fint 1) in
  let ip := Dot (m - i) one (i + i * ld) 1 one (i + k * ld) 1 in
  let c := Fmul (Fopp (rd tBuf i)) ip in
  let r := ApplyReflector m k ld tBuf dBuf i buf in
  length r = length buf /\
  rd r (i + k * ld)
    = Fmul (Fadd (rd buf (i + k * ld)) (Fmul c (Fint 1))) (ofReal (rdR dBuf i)) /\
  (forall a, i < a -> a < m ->
     rd r (a + k * ld) = Fadd (rd buf (a + k * ld)) (Fmul c (rd buf (a + i * ld)))) /\
  rd r (i + i * ld) = ofReal (RealPart (rd buf (i + i * ld))) /\
  (forall p, p <> i + i * ld ->
     (forall a, i <= a -> a < m -> p <> a + k * ld) ->
     rd r p = rd buf p).
Proof.
  intros Hm Hlen Hk Hi Him one ip c r.
  assert (Hii : i + i * ld < length buf).
  { apply index_bound with (ld := ld) (w := w); auto; lia. }
  assert (Hik : i + k * ld < length buf).
  { apply index_bound with (ld := ld) (w := w); auto; lia. }
  assert (Hneq : i + k * ld <> i + i * ld) by (apply index_neq; lia).
  destruct (Axpy_spec (m - i) c one (i + i * ld) 1 (i + k * ld) 1)
    as (Alen & Ay & Arest).
  { intros l Hl. unfold one. rewrite length_wr.
    replace (i + k * ld + l * 1) with ((i + l) + k * ld) by lia.
    apply index_bound with (ld := ld) (w := w); auto; lia. }
  { intros; lia. }
  { intros l l' Hl Hl'.
    replace (i + i * ld + l * 1) with ((i + l) + i * ld) by lia.
    replace (i + k * ld + l' * 1) with ((i + l') + k * ld) by lia.
    apply index_neq; lia. }
  fold one in Alen. unfold one in Alen at 2. rewrite length_wr in Alen.
  subst r. unfold ApplyReflector. fold one. fold ip. fold c.
  set (ax := Axpy (m - i) c one (i + i * ld) 1 (i + k * ld) 1) in *.
  repeat split.
  - now rewrite !length_wr.
  - rewrite rd_wr_other by auto.
    rewrite rd_wr_same by (rewrite Alen; auto). f_equal.
    specialize (Ay 0). rewrite !Nat.mul_0_l, !Nat.add_0_r in Ay.
    rewrite Ay by lia. unfold one.
    rewrite rd_wr_other by auto. now rewrite rd_wr_same.
  - intros a Ha Ham.
    rewrite !rd_wr_other by (apply index_neq; lia).
    specialize (Ay (a - i)).
    replace (i + k * ld + (a - i) * 1) with (a + k * ld) in Ay by lia.
    replace (i + i * ld + (a - i) * 1) with (a + i * ld) in Ay by lia.
    rewrite Ay by lia. unfold one.
    rewrite !rd_wr_other by (apply index_neq; lia). reflexivity.
  - rewrite rd_wr_same by (rewrite length_wr, Alen; auto). reflexivity.
  - intros p Hp Hcol.
    rewrite rd_wr_other by auto.
    rewrite rd_wr_other by (apply not_eq_sym, Hcol; lia).
    rewrite Arest.
    + unfold one. now rewrite rd_wr_other by auto.
    + intros l Hl.
      replace (i + k * ld + l * 1) with ((i + l) + k * ld) by lia.
      apply Hcol; lia.
Qed.

(** Applying the reflectors [0..k-1] leaves everything outside column
    [k], as long as the diagonal entries they restore are real. *)
Lemma reflectors_frame (m k ld w : nat) (tBuf : list F) (dBuf : list Real)
    (QRBuf : list F) :
  m <= ld -> ld * w <= length QRBuf -> k < w -> k <= m ->
  (forall i, i < k ->
     ofReal (RealPart (rd QRBuf (i + i * ld))) = rd QRBuf (i + i * ld)) ->
  forall numOrthog buf,
    length buf = length QRBuf ->
    (forall a c, a < ld -> c <> k -> rd buf (a + c * ld) = rd QRBuf (a + c * ld)) ->
    let r := forUp 0 numOrthog
               (fun _ b => forUp 0 k (ApplyReflector m k ld tBuf dBuf) b) buf in
    length r = length QRBuf /\
    (forall a c, a < ld -> c <> k -> rd r (a + c * ld) = rd QRBuf (a + c * ld)).
Proof.
  intros Hm Hlen Hk Hkm Hreal numOrthog buf Hb Hf.
  pose (P := fun (_ : nat) (b : list F) =>
    length b = length QRBuf /\
    (forall a c, a < ld -> c <> k -> rd b (a + c * ld) = rd QRBuf (a + c * ld))).
  assert (Hone : forall i b, i < k -> P i b ->
                   P (S i) (ApplyReflector m k ld tBuf dBuf i b)).
  { intros i b Hi [Lb Fb].
    destruct (ApplyReflector_spec m k ld w tBuf dBuf i b)
      as (L & _ & _ & Hd & Hrest); auto; try lia.
    split; [congruence|].
    intros a c Ha Hc.
    destruct (Nat.eq_dec a i) as [->|Na]; [destruct (Nat.eq_dec c i) as [->|Nc]|].
    - rewrite Hd, Fb by auto. now apply Hreal.
    - rewrite Hrest; auto.
      + apply index_neq; lia.
      + intros; apply index_neq; lia.
    - rewrite Hrest; auto.
      + apply index_neq; lia.
      + intros; apply index_neq; lia. }
  change (P (0 + numOrthog)
            (forUp 0 numOrthog
               (fun _ b => forUp 0 k (ApplyReflector m k ld tBuf dBuf) b) buf)).
  apply forUp_inv; [split; assumption|].
  intros j b _ Pb.
  change (P (S j) (forUp 0 k (ApplyReflector m k ld tBuf dBuf) b))
    with (P (0 + k) (forUp 0 k (ApplyReflector m k ld tBuf dBuf) b)).
  apply forUp_inv; [exact Pb|].
  intros i x [_ Hi] Px. apply Hone; auto.
Qed.

(** C8. [ExpandQR(k)] overwrites [QR(:,k)] with [B(:,k)] and then,
    [numOrthog] times over, applies the reflectors [0..k-1] in
    increasing order.  Each application forms the conjugated inner
    product [ip] of the reflector column (its head [QR(i,i)] set to one
    for the time being) with rows [i..m-1] of column [k], adds
    [-t[i] * ip] times the reflector column to those rows, rescales the
    one entry [(i,k)] by [d[i]], and restores the diagonal value it had
    saved.  No entry of [QR] outside column [k] is changed, by any one
    application or by the call; [B], [t], [d] (and [U], [UInv]) are
    only read.  The diagonal entries [QR(i,i)], [i < k], are real when
    [ExpandQR(k)] is called -- [HouseholderStep] and the zero branch
    leave them so -- and the value saved is their real part. *)
Theorem ExpandQR_changes_only_column_k :
  forall (k : nat) (B QR t : Matrix F) (d : Matrix Real) (numOrthog : nat),
    Dense QR -> k < Width QR -> Height B <= LDim QR -> k <= Height B ->
    (forall i, i < k -> ofReal (RealPart (Get QR i i)) = Get QR i i) ->
    let m := Height B in
    let ld := LDim QR in
    (* the shape of the computation *)
    Buffer (ExpandQR k B QR t d numOrthog)
      = forUp 0 numOrthog
          (fun _ b => forUp 0 k (ApplyReflector m k ld (Buffer t) (Buffer d)) b)
          (CopyInColumn k B QR) /\
    (* the copy *)
    (forall i, i < m -> rd (CopyInColumn k B QR) (i + k * ld) = Get B i k) /\
    (forall i j, i < ld -> j <> k ->
       rd (CopyInColumn k B QR) (i + j * ld) = Get QR i j) /\
    (* one reflector, applied to a buffer that is [QR] outside column [k] *)
    (forall i buf, i < k -> length buf = length (Buffer QR) ->
       (forall a c, a < ld -> c <> k -> rd buf (a + c * ld) = Get QR a c) ->
       let one := wr buf (i + i * ld) (Fint 1) in
       let ip := Dot (m - i) one (i + i * ld) 1 one (i + k * ld) 1 in
       let c := Fmul (Fopp (rd (Buffer t) i)) ip in
       let r := ApplyReflector m k ld (Buffer t) (Buffer d) i buf in
       rd r (i + k * ld)
         = Fmul (Fadd (rd buf (i + k * ld)) (Fmul c (Fint 1)))
                (ofReal (rdR (Buffer d) i)) /\
       (forall a, i < a -> a < m ->
          rd r (a + k * ld)
          = Fadd (rd buf (a + k * ld)) (Fmul c (rd buf (a + i * ld)))) /\
       (forall a, a < i -> rd r (a + k * ld) = rd buf (a + k * ld)) /\
       rd r (i + i * ld) = rd buf (i + i * ld) /\
       (forall a c, a < ld -> c <> k -> rd r (a + c * ld) = rd buf (a + c * ld))) /\
    (* the frame *)
    (forall i j, i < ld -> j <> k ->
       Get (ExpandQR k B QR t d numOrthog) i j = Get QR i j) /\
    (forall (ctrl : LLLCtrl Real) (s : LLLState),
       stB (Expanded k ctrl s) = stB s /\ stT (Expanded k ctrl s) = stT s /\
       stD (Expanded k ctrl s) = stD s /\ stU (Expanded k ctrl s) = stU s /\
       stUInv (Expanded k ctrl s) = stUInv s).
Proof.
  intros k B QR t d numOrthog HD Hk Hm Hkm Hreal m ld.
  destruct (CopyInColumn_spec k B QR HD Hk Hm) as (Clen & Ccol & Crest).
  destruct HD as [D1 D2].
  assert (Cframe : forall a c, a < ld -> c <> k ->
            rd (CopyInColumn k B QR) (a + c * ld) = rd (Buffer QR) (a + c * ld)).
  { intros a c Ha Hc. apply Crest. intros i' Hi'. apply index_neq; subst m ld; lia. }
  split; [reflexivity|]. split; [exact Ccol|]. split; [exact Cframe|]. split.
  { intros i buf Hi Hlen Hbuf one ip c r.
    destruct (ApplyReflector_spec m k ld (Width QR) (Buffer t) (Buffer d) i buf)
      as (_ & H1 & H2 & H3 & H4); auto;
      try (subst m ld; lia); try (subst ld; rewrite Hlen; exact D2).
    assert (Hii : rd r (i + i * ld) = rd buf (i + i * ld)).
    { subst r. rewrite H3, Hbuf by (subst m ld; lia). now apply Hreal. }
    repeat split; auto.
    - intros a Ha. apply H4.
      + apply index_neq; subst m ld; lia.
      + intros a' Ha' Ha'm. apply index_neq; subst m ld; lia.
    - intros a c' Ha Hc.
      destruct (Nat.eq_dec a i) as [->|Na]; [destruct (Nat.eq_dec c' i) as [->|Nc]|];
        [exact Hii| |]; apply H4;
        try (apply index_neq; subst m ld; lia);
        intros; apply index_neq; subst m ld; lia. }
  split; [|repeat split].
  intros i j Hi Hj. unfold Get, ExpandQR; simpl.
  destruct (reflectors_frame m k ld (Width QR) (Buffer t) (Buffer d) (Buffer QR))
    with (numOrthog := numOrthog) (buf := CopyInColumn k B QR) as [_ Hf];
    auto.
Qed.

End Expand.

(** ** Descending loops, one index at a time *)

Lemma forDown_S {A : Type} (body : nat -> A -> A) :
  forall c lo a,
    forDown lo (S c) body a = body lo (forDown (S lo) c body a).
Proof.
  induction c as [|c IH]; intros lo a.
  - simpl. now rewrite Nat.add_0_r.
  - change (forDown lo (S (S c)) body a)
      with (forDown lo (S c) body (body (lo + S c) a)).
    rewrite IH. simpl. now replace (lo + S c) with (S (lo + c)) by lia.
Qed.

Lemma forDown_app {A : Type} (body : nat -> A -> A) :
  forall c1 c2 lo a,
    forDown lo (c1 + c2) body a
    = forDown lo c1 body (forDown (lo + c1) c2 body a).
Proof.
  induction c1 as [|c1 IH]; intros c2 lo a.
  - simpl. now rewrite Nat.add_0_r.
  - change (S c1 + c2) with (S (c1 + c2)). rewrite !forDown_S.
    rewrite IH. now replace (S lo + c1) with (lo + S c1) by lia.
Qed.

(** ** The BLAS calls of [Step], in matrix coordinates *)

Section Coordinates.
Context {Sc : Scalar}.
Variables (buf : list F) (ld w : nat).
Hypothesis buf_len : ld * w <= length buf.

(** [Axpy( cnt, alpha, &buf[j1*ld], 1, &buf[j2*ld], 1 )]:
    column [j2] gains [alpha] times column [j1] in its first [cnt]
    rows. *)
Lemma Axpy_columns (cnt : nat) (alpha : F) (j1 j2 : nat) :
  cnt <= ld -> j2 < w -> j1 <> j2 ->
  forall a j, a < ld ->
    rd (Axpy cnt alpha buf (j1 * ld) 1 (j2 * ld) 1) (a + j * ld)
    = if (j =? j2) && (a <? cnt)
      then Fadd (rd buf (a + j2 * ld)) (Fmul alpha (rd buf (a + j1 * ld)))
      else rd buf (a + j * ld).
Proof.
  intros Hc Hj Hne a j Ha.
  destruct (Axpy_spec cnt alpha buf (j1 * ld) 1 (j2 * ld) 1) as (_ & Hy & Hr).
  - intros l Hl. replace (j2 * ld + l * 1) with (l + j2 * ld) by lia.
    apply index_bound with (ld := ld) (w := w); auto; lia.
  - intros; lia.
  - intros l l' Hl Hl'.
    replace (j1 * ld + l * 1) with (l + j1 * ld) by lia.
    replace (j2 * ld + l' * 1) with (l' + j2 * ld) by lia.
    apply index_neq; lia.
  - destruct (Nat.eqb_spec j j2) as [->|Nj]; simpl.
    + destruct (Nat.ltb_spec a cnt) as [Hac|Hac].
      * specialize (Hy a Hac).
        replace (j2 * ld + a * 1) with (a + j2 * ld) in Hy by lia.
        replace (j1 * ld + a * 1) with (a + j1 * ld) in Hy by lia.
        exact Hy.
      * apply Hr. intros l Hl. lia.
    + apply Hr. intros l Hl.
      replace (j2 * ld + l * 1) with (l + j2 * ld) by lia.
      apply index_neq; lia.
Qed.

(** [Axpy( n, alpha, &buf[i1], ld, &buf[i2], ld )]: row [i2] gains
    [alpha] times row [i1] in its first [n] columns. *)
Lemma Axpy_rows (n : nat) (alpha : F) (i1 i2 : nat) :
  n <= w -> i1 < ld -> i2 < ld -> i1 <> i2 ->
  forall a j, a < ld ->
    rd (Axpy n alpha buf i1 ld i2 ld) (a + j * ld)
    = if (a =? i2) && (j <? n)
      then Fadd (rd buf (i2 + j * ld)) (Fmul alpha (rd buf (i1 + j * ld)))
      else rd buf (a + j * ld).
Proof.
  intros Hn H1 H2 Hne a j Ha.
  destruct (Axpy_spec n alpha buf i1 ld i2 ld) as (_ & Hy & Hr).
  - intros l Hl. apply index_bound with (ld := ld) (w := w); auto; lia.
  - intros l l' Hl Hl' E. apply index_inj in E; lia.
  - intros l l' Hl Hl'. apply index_neq; lia.
  - destruct (Nat.eqb_spec a i2) as [->|Na]; simpl.
    + destruct (Nat.ltb_spec j n) as [Hjn|Hjn].
      * now apply Hy.
      * apply Hr. intros l Hl. apply index_neq; lia.
    + apply Hr. intros l Hl. apply index_neq; lia.
Qed.

(** [Gemv( 'N', cnt, k, alpha, buf, ld, x, 1, beta, &buf[k*ld], 1 )]:
    column [k] becomes [beta] times itself plus [alpha] times the
    product of the first [k] columns with [x], in its first [cnt]
    rows. *)
Lemma Gemv_columns (cnt k : nat) (alpha beta : F) (x : list F) :
  cnt <= ld -> k < w ->
  forall a j, a < ld ->
    rd (Gemv cnt k alpha buf 0 ld x beta (k * ld) 1) (a + j * ld)
    = if (j =? k) && (a <? cnt)
      then Fadd (Fmul alpha (rowDot k buf 0 ld a x)) (Fmul beta (rd buf (a + k * ld)))
      else rd buf (a + j * ld).
Proof.
  intros Hc Hk a j Ha.
  destruct (Gemv_spec cnt k alpha buf 0 ld x beta (k * ld) 1) as (_ & Hy & Hr).
  - intros l Hl. replace (k * ld + l * 1) with (l + k * ld) by lia.
    apply index_bound with (ld := ld) (w := w); auto; lia.
  - intros; lia.
  - intros i l i' Hi Hl Hi'.
    replace (k * ld + i' * 1) with (i' + k * ld) by lia.
    replace (0 + i + l * ld) with (i + l * ld) by lia.
    apply index_neq; lia.
  - destruct (Nat.eqb_spec j k) as [->|Nj]; simpl.
    + destruct (Nat.ltb_spec a cnt) as [Hac|Hac].
      * specialize (Hy a Hac).
        replace (k * ld + a * 1) with (a + k * ld) in Hy by lia.
        exact Hy.
      * apply Hr. intros l Hl. lia.
    + apply Hr. intros l Hl.
      replace (k * ld + l * 1) with (l + k * ld) by lia.
      apply index_neq; lia.
Qed.

(** [Geru( k, n, alpha, x, 1, &buf[k], ld, &buf[0], ld )]: each row
    [i < k] gains [alpha x[i]] times row [k], in its first [n]
    columns. *)
Lemma Geru_rows (k n : nat) (alpha : F) (x : list F) :
  k < ld -> n <= w ->
  forall a j, a < ld ->
    rd (Geru k n alpha x buf k ld 0 ld) (a + j * ld)
    = if (a <? k) && (j <? n)
      then Fadd (rd buf (a + j * ld))
                (Fmul (Fmul alpha (rd x a)) (rd buf (k + j * ld)))
      else rd buf (a + j * ld).
Proof.
  intros Hk Hn.
  unfold Geru.
  pose (P := fun (c : nat) (b : list F) =>
    length b = length buf /\
    forall a j, a < ld ->
      rd b (a + j * ld)
      = if (a <? k) && (j <? c)
        then Fadd (rd buf (a + j * ld))
                  (Fmul (Fmul alpha (rd x a)) (rd buf (k + j * ld)))
        else rd buf (a + j * ld)).
  match goal with |- context [forUp 0 n ?f buf] =>
    enough (H : P (0 + n) (forUp 0 n f buf)) by (apply H) end.
  apply forUp_inv.
  - split; auto. intros a j Ha.
    change (j <? 0) with false. now rewrite andb_false_r.
  - intros c b [_ Hc] [Hlen Hb]. simpl in Hc.
    destruct (forUp_wr (fun i => 0 + i + c * ld)
                (fun i b' => Fadd (rd b' (0 + i + c * ld))
                               (Fmul (Fmul alpha (rd x i)) (rd b' (k + c * ld))))
                b k) as (Hl' & Hw & Hr).
    + intros i Hi. rewrite Hlen.
      apply index_bound with (ld := ld) (w := w); auto; lia.
    + intros; lia.
    + intros i b' Hi Hb' Hsame. rewrite !Hsame; auto.
      * intros l' Hl'. apply index_neq; lia.
      * intros l' Hl'. lia.
    + split; [congruence|].
      intros a j Ha.
      destruct (Nat.ltb_spec a k) as [Hak|Hak]; simpl.
      * destruct (Nat.eq_dec j c) as [->|Njc].
        -- replace (c <? S c) with true by (symmetry; apply Nat.ltb_lt; lia).
           specialize (Hw a Hak). simpl in Hw. rewrite Hw.
           rewrite !Hb by lia.
           rewrite Nat.ltb_irrefl, andb_false_r.
           replace (k <? k) with false by (symmetry; apply Nat.ltb_ge; lia).
           reflexivity.
        -- rewrite Hr by (intros i Hi; simpl; apply index_neq; lia).
           rewrite Hb by assumption.
           replace (a <? k) with true by (symmetry; apply Nat.ltb_lt; lia).
           simpl.
           destruct (Nat.ltb_spec j c), (Nat.ltb_spec j (S c)); try lia; reflexivity.
      * rewrite Hr by (intros i Hi; simpl; apply index_neq; lia).
        rewrite Hb by assumption.
        replace (a <? k) with false by (symmetry; apply Nat.ltb_ge; lia).
        reflexivity.
Qed.

End Coordinates.

(** ** The standard size-reduction *)

Section Standard.
Context {Sc : Scalar}.
Variables (ctrl : LLLCtrl Real) (k ld w : nat) (QR0 : list F).
Hypothesis QR0_len : ld * w <= length QR0.
Hypothesis k_col : k < w.
Hypothesis k_rows : k <= ld.

(** One index of the scan, entry by entry. *)
Lemma ScanStep_spec (i : nat) (Q x : list F) :
  i < k -> ScanInv k ld QR0 (Q, x) ->
  let chi := Fdiv (rd Q (i + k * ld)) (rd Q (i + i * ld)) in
  let Q' := fst (ScanStep ctrl k ld i (Q, x)) in
  let x' := snd (ScanStep ctrl k ld i (Q, x)) in
  ScanInv k ld QR0 (Q', x') /\
  (forall j, j <> i -> rd x' j = rd x j) /\
  if Rleb (Abs (rd Q (i + i * ld))) (zeroTol ctrl)
  then rd x' i = Fint 0 /\ Q' = Q
  else if OverEta ctrl chi
       then rd x' i = Round chi /\
            forall a j, a < ld ->
              rd Q' (a + j * ld)
              = if (j =? k) && (a <=? i)
                then Fadd (rd Q (a + k * ld))
                          (Fmul (Fopp (Round chi)) (rd Q (a + i * ld)))
                else rd Q (a + j * ld)
       else rd x' i = Fint 0 /\ Q' = Q.
Proof.
  intros Hi (HQ & Hx & Hf). cbv zeta. unfold ScanStep, ScanInv.
  simpl fst in *; simpl snd in *.
  assert (Hxi : i < length x) by lia.
  destruct (Rleb _ _).
  - simpl. repeat split; auto.
    + now rewrite length_wr.
    + intros j Hj. apply rd_wr_other; auto.
    + now apply rd_wr_same.
  - destruct (OverEta _ _); simpl.
    + assert (Hcols : forall a j, a < ld ->
        rd (Axpy (i + 1)
              (Fopp (Round (Fdiv (rd Q (i + k * ld)) (rd Q (i + i * ld)))))
              Q (i * ld) 1 (k * ld) 1) (a + j * ld)
        = if (j =? k) && (a <=? i)
          then Fadd (rd Q (a + k * ld))
                 (Fmul (Fopp (Round (Fdiv (rd Q (i + k * ld)) (rd Q (i + i * ld)))))
                       (rd Q (a + i * ld)))
          else rd Q (a + j * ld)).
      { intros a j Ha.
        rewrite (Axpy_columns Q ld w) by (try lia; rewrite HQ; assumption).
        replace (a <? i + 1) with (a <=? i); auto.
        destruct (Nat.leb_spec a i), (Nat.ltb_spec a (i + 1)); auto; lia. }
      repeat split; auto.
      * now rewrite length_Axpy.
      * now rewrite length_wr.
      * intros a c Ha Hc. rewrite Hcols by assumption.
        apply Nat.eqb_neq in Hc. rewrite Hc. simpl. apply Hf; auto.
        now apply Nat.eqb_neq.
      * intros j Hj. apply rd_wr_other; auto.
      * now apply rd_wr_same.
    + repeat split; auto.
      * now rewrite length_wr.
      * intros j Hj. apply rd_wr_other; auto.
      * now apply rd_wr_same.
Qed.

Lemma ScanInv_forDown :
  forall cnt lo qx,
    lo + cnt <= k -> ScanInv k ld QR0 qx ->
    ScanInv k ld QR0 (forDown lo cnt (ScanStep ctrl k ld) qx) /\
    forall j, lo + cnt <= j ->
      rd (snd (forDown lo cnt (ScanStep ctrl k ld) qx)) j = rd (snd qx) j.
Proof.
  induction cnt as [|c IH]; intros lo qx Hle Hinv; simpl.
  - auto.
  - destruct qx as [Q x].
    destruct (ScanStep_spec (lo + c) Q x) as (Hinv' & Hx' & _); auto; try lia.
    destruct (IH lo (ScanStep ctrl k ld (lo + c) (Q, x))) as [H1 H2]; auto; try lia.
    split; auto. intros j Hj. rewrite H2 by lia. apply Hx'. lia.
Qed.

Lemma ScanInv_init : ScanInv k ld QR0 (QR0, repeat (Fint 0) k).
Proof. repeat split; simpl; auto. apply repeat_length. Qed.

Lemma ScanInv_before (i : nat) :
  i < k -> ScanInv k ld QR0 (ScanBefore ctrl k ld QR0 i).
Proof.
  intros Hi. unfold ScanBefore.
  apply ScanInv_forDown; [lia | apply ScanInv_init].
Qed.

(** The scan runs through [i = k-1, ..., 0]. *)
Lemma Scan_order :
  (forall i, S i < k ->
     ScanBefore ctrl k ld QR0 i
     = ScanStep ctrl k ld (S i) (ScanBefore ctrl k ld QR0 (S i))) /\
  (0 < k ->
     ScanBefore ctrl k ld QR0 (k - 1) = (QR0, repeat (Fint 0) k) /\
     Scan ctrl k ld QR0 = ScanStep ctrl k ld 0 (ScanBefore ctrl k ld QR0 0)).
Proof.
  unfold ScanBefore, Scan. split.
  - intros i Hi. replace (k - S i) with (S (k - S (S i))) by lia.
    apply forDown_S.
  - intros Hk. split.
    + replace (k - S (k - 1)) with 0 by lia. reflexivity.
    + replace k with (S (k - 1)) at 1 by lia. rewrite forDown_S.
      now replace (k - 1) with (k - 1 - 0) by lia.
Qed.

(** The coefficient [x[i]] is the one stored when index [i] was
    handled. *)
Lemma Scan_x (i : nat) :
  i < k ->
  rd (snd (Scan ctrl k ld QR0)) i
  = rd (snd (ScanStep ctrl k ld i (ScanBefore ctrl k ld QR0 i))) i.
Proof.
  intros Hi. unfold Scan.
  replace k with (i + (k - i)) at 1 by lia.
  rewrite forDown_app. simpl plus.
  replace (k - i) with (S (k - S i)) by lia. rewrite forDown_S.
  fold (ScanBefore ctrl k ld QR0 i).
  pose proof (ScanInv_before i Hi) as Hb.
  destruct (ScanBefore ctrl k ld QR0 i) as [Q x] eqn:E.
  destruct (ScanStep_spec i Q x Hi Hb) as (Hinv' & _).
  apply ScanInv_forDown; auto; lia.
Qed.

End Standard.

Section StandardStep.
Context {Sc : Scalar}.
Variables (k : nat) (formU formUInv : bool) (ctrl : LLLCtrl Real).

(** [Round] yields (Gaussian) integers: it fixes its own values and
    zero. *)
Hypothesis Round_idempotent : forall z : F, Round (Round z) = Round z.
Hypothesis Round_zero : Round (Fint 0) = Fint 0.

(** C4. In standard mode the scan runs through [i = k-1, ..., 0]; for
    each [i] it stores [x[i] = 0] when [|QR(i,i)| <= zeroTol], and
    otherwise forms [chi = QR(i,k)/QR(i,i)] and, exactly when
    [|Re chi| > eta] or [|Im chi| > eta], stores [x[i] = Round(chi)] and
    subtracts [Round(chi)] times rows [0..i] of column [i] from column
    [k] (those rows only), else stores [x[i] = 0].  Afterwards
    [B(:,k) -= B(:,0..k-1) x], [U(:,k) -= U(:,0..k-1) x] if tracked, and
    row [i < k] of [UInv] gains [x[i]] times row [k] if tracked; every
    coefficient satisfies [Round(x[i]) = x[i]]. *)
Theorem StandardReduce_applies_rounded_coefficients :
  forall s : LLLState,
    Dense (stQR s) -> k < Width (stQR s) -> k <= LDim (stQR s) ->
    Dense (stB s) -> k < Width (stB s) ->
    (formU = true ->
       Dense (stU s) /\ Width (stB s) <= LDim (stU s) /\ k < Width (stU s)) ->
    (formUInv = true ->
       Dense (stUInv s) /\ k < LDim (stUInv s) /\
       Width (stB s) <= Width (stUInv s)) ->
    let m := Height (stB s) in
    let n := Width (stB s) in
    let ld := LDim (stQR s) in
    let QR0 := Buffer (stQR s) in
    let x := snd (Scan ctrl k ld QR0) in
    let s' := StandardReduce k formU formUInv ctrl s in
    (* the order of the scan *)
    ((forall i, S i < k ->
        ScanBefore ctrl k ld QR0 i
        = ScanStep ctrl k ld (S i) (ScanBefore ctrl k ld QR0 (S i))) /\
     (0 < k ->
        ScanBefore ctrl k ld QR0 (k - 1) = (QR0, repeat (Fint 0) k) /\
        Scan ctrl k ld QR0 = ScanStep ctrl k ld 0 (ScanBefore ctrl k ld QR0 0))) /\
    (* what index i does *)
    (forall i, i < k ->
       let Q := fst (ScanBefore ctrl k ld QR0 i) in
       let Q' := fst (ScanStep ctrl k ld i (ScanBefore ctrl k ld QR0 i)) in
       let chi := Fdiv (rd Q (i + k * ld)) (rd Q (i + i * ld)) in
       rd Q (i + i * ld) = Get (stQR s) i i /\
       if Rleb (Abs (rd Q (i + i * ld))) (zeroTol ctrl)
       then rd x i = Fint 0 /\ Q' = Q
       else if OverEta ctrl chi
            then rd x i = Round chi /\
                 forall a j, a < ld ->
                   rd Q' (a + j * ld)
                   = if (j =? k) && (a <=? i)
                     then Fadd (rd Q (a + k * ld))
                               (Fmul (Fopp (Round chi)) (rd Q (a + i * ld)))
                     else rd Q (a + j * ld)
            else rd x i = Fint 0 /\ Q' = Q) /\
    (forall i, i < k -> Round (rd x i) = rd x i) /\
    (* the single passes over B, U and UInv *)
    stQR s' = withBuffer (stQR s) (fst (Scan ctrl k ld QR0)) /\
    (forall a j, a < LDim (stB s) ->
       Get (stB s') a j
       = if (j =? k) && (a <? m)
         then Fadd (Fmul (Fint (-1)) (rowDot k (Buffer (stB s)) 0 (LDim (stB s)) a x))
                   (Fmul (Fint 1) (Get (stB s) a k))
         else Get (stB s) a j) /\
    (if formU
     then forall a j, a < LDim (stU s) ->
            Get (stU s') a j
            = if (j =? k) && (a <? n)
              then Fadd (Fmul (Fint (-1)) (rowDot k (Buffer (stU s)) 0 (LDim (stU s)) a x))
                        (Fmul (Fint 1) (Get (stU s) a k))
              else Get (stU s) a j
     else stU s' = stU s) /\
    (if formUInv
     then forall a j, a < LDim (stUInv s) ->
            Get (stUInv s') a j
            = if (a <? k) && (j <? n)
              then Fadd (Get (stUInv s) a j)
                        (Fmul (Fmul (Fint 1) (rd x a)) (Get (stUInv s) k j))
              else Get (stUInv s) a j
     else stUInv s' = stUInv s).
Proof.
  intros s [DQ1 DQ2] HkQ HkL [DB1 DB2] HkB HU HUInv m n ld QR0 x s'.
  assert (Hidx : forall i, i < k ->
    let Q := fst (ScanBefore ctrl k ld QR0 i) in
    let Q' := fst (ScanStep ctrl k ld i (ScanBefore ctrl k ld QR0 i)) in
    let chi := Fdiv (rd Q (i + k * ld)) (rd Q (i + i * ld)) in
    rd Q (i + i * ld) = Get (stQR s) i i /\
    if Rleb (Abs (rd Q (i + i * ld))) (zeroTol ctrl)
    then rd x i = Fint 0 /\ Q' = Q
    else if OverEta ctrl chi
         then rd x i = Round chi /\
              forall a j, a < ld ->
                rd Q' (a + j * ld)
                = if (j =? k) && (a <=? i)
                  then Fadd (rd Q (a + k * ld))
                            (Fmul (Fopp (Round chi)) (rd Q (a + i * ld)))
                  else rd Q (a + j * ld)
         else rd x i = Fint 0 /\ Q' = Q).
  { intros i Hi. cbv zeta. subst x.
    rewrite (Scan_x ctrl k ld (Width (stQR s)) QR0) by auto.
    pose proof (ScanInv_before ctrl k ld (Width (stQR s)) QR0 DQ2 HkQ HkL i Hi) as Hb.
    destruct (ScanBefore ctrl k ld QR0 i) as [Q xb] eqn:E.
    destruct (ScanStep_spec ctrl k ld (Width (stQR s)) QR0 DQ2 HkQ HkL i Q xb Hi Hb)
      as (_ & _ & Hcase).
    simpl fst. split.
    - destruct Hb as (_ & _ & Hf). simpl in Hf. unfold Get. apply Hf; lia.
    - exact Hcase. }
  split; [apply Scan_order with (w := Width (stQR s)); auto|].
  split; [exact Hidx|].
  split.
  { intros i Hi. specialize (Hidx i Hi). cbv zeta in Hidx.
    destruct Hidx as [_ Hc].
    destruct (Rleb _ _); [destruct Hc as [-> _]; apply Round_zero|].
    destruct (OverEta _ _).
    - destruct Hc as [-> _]. apply Round_idempotent.
    - destruct Hc as [-> _]. apply Round_zero. }
  subst s'. unfold StandardReduce. fold ld. fold QR0.
  subst x. destruct (Scan ctrl k ld QR0) as [Qf xf]; simpl fst; simpl snd.
  split; [reflexivity|]. split; [|split].
  - intros a j Ha. unfold Get; simpl.
    now rewrite (Gemv_columns (Buffer (stB s)) (LDim (stB s)) (Width (stB s))).
  - destruct formU; [|reflexivity].
    destruct HU as ([DU1 DU2] & HnU & HkU); auto.
    intros a j Ha. unfold Get; simpl.
    now rewrite (Gemv_columns (Buffer (stU s)) (LDim (stU s)) (Width (stU s))).
  - destruct formUInv; [|reflexivity].
    destruct HUInv as ([DU1 DU2] & HkU & HnU); auto.
    intros a j Ha. unfold Get; simpl.
    now rewrite (Geru_rows (Buffer (stUInv s)) (LDim (stUInv s)) (Width (stUInv s))).
Qed.

End StandardStep.

(** ** Sums over a commutative ring *)

Lemma forUp_snoc {A : Type} (body : nat -> A -> A) :
  forall c lo a, forUp lo (S c) body a = body (lo + c) (forUp lo c body a).
Proof.
  induction c as [|c IH]; intros lo a.
  - simpl. now rewrite Nat.add_0_r.
  - change (forUp lo (S (S c)) body a) with (forUp (S lo) (S c) body (body lo a)).
    rewrite IH. simpl. now replace (lo + S c) with (S (lo + c)) by lia.
Qed.

Section Sums.
Context {Sc : Scalar}.

(** The scalars form a commutative ring (exact arithmetic), in which
    the literal [-1] is the opposite of [1]. *)
Hypothesis F_ring : ring_theory (Fint 0) (Fint 1) Fadd Fmul Fsub Fopp (@eq F).
Hypothesis F_minus_one : Fint (-1) = Fopp (Fint 1).

Add Ring FRing : F_ring.

Lemma sumF_S (n : nat) (f : nat -> F) : sumF (S n) f = Fadd (sumF n f) (f n).
Proof. unfold sumF. now rewrite forUp_snoc. Qed.

Lemma sumF_0 (f : nat -> F) : sumF 0 f = Fint 0.
Proof. reflexivity. Qed.

Lemma sumF_ext (n : nat) (f g : nat -> F) :
  (forall l, l < n -> f l = g l) -> sumF n f = sumF n g.
Proof.
  induction n as [|n IH]; intros H; [reflexivity|].
  rewrite !sumF_S, IH, H; auto.
Qed.

Lemma sumF_add (n : nat) (f g : nat -> F) :
  sumF n (fun l => Fadd (f l) (g l)) = Fadd (sumF n f) (sumF n g).
Proof.
  induction n as [|n IH]; [rewrite !sumF_0; ring|].
  rewrite !sumF_S, IH. ring.
Qed.

Lemma sumF_scale (n : nat) (f : nat -> F) (c : F) :
  sumF n (fun l => Fmul (f l) c) = Fmul (sumF n f) c.
Proof.
  induction n as [|n IH]; [rewrite !sumF_0; ring|].
  rewrite !sumF_S, IH. ring.
Qed.

Lemma sumF_zero (n : nat) : sumF n (fun _ => Fint 0) = Fint 0.
Proof.
  induction n as [|n IH]; [reflexivity|]. rewrite sumF_S, IH. ring.
Qed.

(** A sum with a single non-zero term. *)
Lemma sumF_single (n k : nat) (v : F) :
  k < n -> sumF n (fun l => if l =? k then v else Fint 0) = v.
Proof.
  induction n as [|n IH]; intros H; [lia|].
  rewrite sumF_S. destruct (Nat.eq_dec k n) as [->|Hne].
  - rewrite Nat.eqb_refl.
    rewrite (sumF_ext n _ (fun _ => Fint 0)).
    + rewrite sumF_zero. ring.
    + intros l Hl.
      now replace (l =? n) with false by (symmetry; apply Nat.eqb_neq; lia).
  - rewrite IH by lia.
    replace (n =? k) with false by (symmetry; apply Nat.eqb_neq; lia). ring.
Qed.

(** A sum whose terms vanish from [k] on. *)
Lemma sumF_prefix (n k : nat) (f : nat -> F) :
  k <= n -> sumF n (fun l => if l <? k then f l else Fint 0) = sumF k f.
Proof.
  induction n as [|n IH]; intros H.
  - now replace k with 0 by lia.
  - destruct (Nat.eq_dec k (S n)) as [->|Hne].
    + apply sumF_ext. intros l Hl.
      now replace (l <? S n) with true by (symmetry; apply Nat.ltb_lt; lia).
    + rewrite sumF_S, IH by lia.
      replace (n <? k) with false by (symmetry; apply Nat.ltb_ge; lia). ring.
Qed.

Lemma sumF_sumList (n : nat) (f : nat -> F) :
  sumF n f = sumList (rev (map f (seq 0 n))).
Proof.
  induction n as [|n IH]; [reflexivity|].
  rewrite sumF_S, seq_S, map_app, rev_app_distr. simpl. now rewrite IH.
Qed.

Lemma sumList_perm (xs ys : list F) :
  Permutation xs ys -> sumList xs = sumList ys.
Proof.
  induction 1; simpl; try congruence.
  ring.
Qed.

Lemma NoDup_map_on {A B : Type} (f : A -> B) (l : list A) :
  (forall x y, In x l -> In y l -> f x = f y -> x = y) ->
  NoDup l -> NoDup (map f l).
Proof.
  induction l as [|a l IH]; intros Hinj Hnd; simpl; [constructor|].
  inversion Hnd as [|? ? Hni Hnd']; subst. constructor.
  - intros Hin. apply in_map_iff in Hin. destruct Hin as (y & Hy & Hyl).
    apply Hinj in Hy; simpl; auto. subst y. contradiction.
  - apply IH; auto. intros x y Hx Hy. apply Hinj; simpl; auto.
Qed.

(** Re-indexing a sum by a permutation of [0..n-1]. *)
Lemma sumF_reindex (n : nat) (sigma : nat -> nat) (f : nat -> F) :
  (forall l, l < n -> sigma l < n) ->
  (forall l l', l < n -> l' < n -> sigma l = sigma l' -> l = l') ->
  sumF n (fun l => f (sigma l)) = sumF n f.
Proof.
  intros Hran Hinj.
  rewrite !sumF_sumList. apply sumList_perm.
  apply Permutation_rev'.
  assert (P : Permutation (map sigma (seq 0 n)) (seq 0 n)).
  { apply NoDup_Permutation_bis.
    - apply NoDup_map_on; [|apply seq_NoDup].
      intros x y Hx Hy. apply in_seq in Hx, Hy. apply Hinj; lia.
    - now rewrite length_map.
    - intros x Hx. apply in_map_iff in Hx. destruct Hx as (y & <- & Hy).
      apply in_seq in Hy. apply in_seq. specialize (Hran y). lia. }
  rewrite <- (map_map sigma f). now apply Permutation_map.
Qed.

(** *** The two kinds of column operation *)

(** Subtracting from column [k] of [U] the combination [x] of the
    columns before it, and adding to each row [l < k] of [UInv] the
    multiple [x l] of row [k], leaves the product. *)
Lemma MulEntry_combine (n k : nat) (x : nat -> F) (U UInv U' UInv' : Matrix F) :
  k < n ->
  (forall i l, i < n -> l < n ->
     Get U' i l
     = if l =? k
       then Fsub (Get U i k) (sumF k (fun p => Fmul (Get U i p) (x p)))
       else Get U i l) ->
  (forall l j, l < n -> j < n ->
     Get UInv' l j
     = if l <? k then Fadd (Get UInv l j) (Fmul (x l) (Get UInv k j))
       else Get UInv l j) ->
  forall i j, i < n -> j < n -> MulEntry n U' UInv' i j = MulEntry n U UInv i j.
Proof.
  intros Hk HU HV i j Hi Hj. unfold MulEntry.
  set (S0 := sumF k (fun p => Fmul (Get U i p) (x p))).
  rewrite (sumF_ext n _
    (fun l => Fadd (Fadd (Fmul (Get U i l) (Get UInv l j))
                         (Fmul (if l <? k then Fmul (Get U i l) (x l) else Fint 0)
                               (Get UInv k j)))
                   (if l =? k then Fopp (Fmul S0 (Get UInv k j)) else Fint 0))).
  - rewrite !sumF_add, sumF_scale, sumF_prefix by lia.
    rewrite sumF_single by lia. fold S0. ring.
  - intros l Hl. rewrite HU, HV by assumption. fold S0.
    destruct (Nat.eqb_spec l k) as [->|Hne].
    + rewrite Nat.ltb_irrefl. ring.
    + destruct (l <? k); ring.
Qed.

(** Permuting the columns of [U] and the rows of [UInv] alike leaves
    the product. *)
Lemma MulEntry_permute (n : nat) (sigma : nat -> nat) (U UInv U' UInv' : Matrix F) :
  (forall l, l < n -> sigma l < n) ->
  (forall l l', l < n -> l' < n -> sigma l = sigma l' -> l = l') ->
  (forall i l, i < n -> l < n -> Get U' i l = Get U i (sigma l)) ->
  (forall l j, l < n -> j < n -> Get UInv' l j = Get UInv (sigma l) j) ->
  forall i j, i < n -> j < n -> MulEntry n U' UInv' i j = MulEntry n U UInv i j.
Proof.
  intros Hran Hinj HU HV i j Hi Hj. unfold MulEntry.
  rewrite <- (sumF_reindex n sigma (fun l => Fmul (Get U i l) (Get UInv l j)))
    by assumption.
  apply sumF_ext. intros l Hl. now rewrite HU, HV.
Qed.

End Sums.

(** ** Deep insertion shifts columns (rows) cyclically *)

Section DeepSwaps.
Context {Sc : Scalar}.

Lemma nth_gather (buf : list F) (off inc n r : nat) :
  r < n -> nth r (gather buf off inc n) (Fint 0) = rd buf (off + r * inc).
Proof.
  intros H. unfold gather.
  rewrite nth_indep with (d' := rd buf (off + 0 * inc))
    by (now rewrite length_map, length_seq).
  rewrite (map_nth (fun l => rd buf (off + l * inc)) (seq 0 n) 0 r).
  rewrite seq_nth; auto.
Qed.

Lemma Copy_columns (buf : list F) (ld w cnt j1 j2 : nat) :
  ld * w <= length buf -> cnt <= ld -> j2 < w -> j1 <> j2 ->
  forall a c, a < ld ->
    rd (Copy cnt buf (j1 * ld) 1 (j2 * ld) 1) (a + c * ld)
    = if (c =? j2) && (a <? cnt) then rd buf (a + j1 * ld) else rd buf (a + c * ld).
Proof.
  intros Hlen Hc Hj Hne a c Ha.
  destruct (Copy_spec cnt buf (j1 * ld) 1 (j2 * ld) 1) as (_ & Hy & Hr).
  - intros l Hl. replace (j2 * ld + l * 1) with (l + j2 * ld) by lia.
    apply index_bound with (ld := ld) (w := w); auto; lia.
  - intros; lia.
  - intros l l' Hl Hl'.
    replace (j1 * ld + l * 1) with (l + j1 * ld) by lia.
    replace (j2 * ld + l' * 1) with (l' + j2 * ld) by lia.
    apply index_neq; lia.
  - destruct (Nat.eqb_spec c j2) as [->|Nj]; simpl.
    + destruct (Nat.ltb_spec a cnt) as [Hac|Hac].
      * specialize (Hy a Hac).
        replace (j2 * ld + a * 1) with (a + j2 * ld) in Hy by lia.
        replace (j1 * ld + a * 1) with (a + j1 * ld) in Hy by lia.
        exact Hy.
      * apply Hr. intros l Hl. lia.
    + apply Hr. intros l Hl.
      replace (j2 * ld + l * 1) with (l + j2 * ld) by lia.
      apply index_neq; lia.
Qed.

Lemma Copy_rows (buf : list F) (ld w n i1 i2 : nat) :
  ld * w <= length buf -> n <= w -> i1 < ld -> i2 < ld -> i1 <> i2 ->
  forall a c, a < ld ->
    rd (Copy n buf i1 ld i2 ld) (a + c * ld)
    = if (a =? i2) && (c <? n) then rd buf (i1 + c * ld) else rd buf (a + c * ld).
Proof.
  intros Hlen Hn H1 H2 Hne a c Ha.
  destruct (Copy_spec n buf i1 ld i2 ld) as (_ & Hy & Hr).
  - intros l Hl. apply index_bound with (ld := ld) (w := w); auto; lia.
  - intros l l' Hl Hl' E. apply index_inj in E; lia.
  - intros l l' Hl Hl'. apply index_neq; lia.
  - destruct (Nat.eqb_spec a i2) as [->|Na]; simpl.
    + destruct (Nat.ltb_spec c n) as [Hcn|Hcn].
      * now apply Hy.
      * apply Hr. intros l Hl. apply index_neq; lia.
    + apply Hr. intros l Hl. apply index_neq; lia.
Qed.

(** [DeepColSwap( M, i, k )]: column [k] moves to position [i] and the
    columns [i..k-1] move one to the right. *)
Lemma DeepColSwap_spec (M : Matrix F) (i k : nat) :
  Dense M -> i <= k -> k < Width M ->
  forall a c, a < LDim M ->
    Get (DeepColSwap M i k) a c
    = if a <? Height M then Get M a (shiftIndex i k c) else Get M a c.
Proof.
  intros [D1 D2] Hik Hk a c Ha.
  unfold Get, DeepColSwap; simpl.
  set (ld := LDim M) in *. set (m := Height M) in *. set (buf := Buffer M) in *.
  set (shifted := forDown i (k - i) _ buf).
  assert (Hsh : length shifted = length buf /\
    forall a c, a < ld ->
      rd shifted (a + c * ld)
      = if (a <? m) && (i <? c) && (c <=? k)
        then rd buf (a + (c - 1) * ld) else rd buf (a + c * ld)).
  { subst shifted.
    pose (P := fun (j : nat) (b : list F) =>
      length b = length buf /\
      forall a c, a < ld ->
        rd b (a + c * ld)
        = if (a <? m) && (j <? c) && (c <=? k)
          then rd buf (a + (c - 1) * ld) else rd buf (a + c * ld)).
    match goal with |- context [forDown i (k - i) ?f buf] =>
      change (P i (forDown i (k - i) f buf)) end.
    apply forDown_inv.
    - split; auto. intros a0 c0 Ha0.
      replace (i + (k - i)) with k by lia.
      destruct (Nat.ltb_spec k c0), (Nat.leb_spec c0 k); try lia;
        now rewrite ?andb_false_r.
    - intros l x [Hl1 Hl2] [Hlen Hx]. split; [now rewrite length_Copy|].
      intros a0 c0 Ha0.
      rewrite (Copy_columns x ld (Width M)) by (try lia; rewrite Hlen; auto).
      rewrite !Hx by assumption.
      destruct (Nat.eqb_spec c0 (l + 1)) as [->|Hne]; simpl.
      + replace (l + 1 - 1) with l by lia.
        destruct (Nat.ltb_spec a0 m); simpl.
        * replace (S l <? l) with false by (symmetry; apply Nat.ltb_ge; lia).
          replace (l <? l + 1) with true by (symmetry; apply Nat.ltb_lt; lia).
          replace (l + 1 <=? k) with true by (symmetry; apply Nat.leb_le; lia).
          reflexivity.
        * replace (S l <? l + 1) with false by (symmetry; apply Nat.ltb_ge; lia).
          reflexivity.
      + destruct (Nat.ltb_spec a0 m); simpl; auto.
        destruct (Nat.ltb_spec (S l) c0), (Nat.ltb_spec l c0); try lia; reflexivity. }
  destruct Hsh as [Hlen Hsh]. clearbody shifted.
  destruct (forUp_wr (fun r => r + i * ld)
              (fun r _ => nth r (gather buf (k * ld) 1 m) (Fint 0)) shifted m)
    as (_ & Hw & Hr).
  - intros r Hr. rewrite Hlen.
    apply index_bound with (ld := ld) (w := Width M); auto; lia.
  - intros; lia.
  - auto.
  - unfold shiftIndex.
    destruct (Nat.ltb_spec a m) as [Ham|Ham].
    + destruct (Nat.eqb_spec c i) as [->|Hci].
      * rewrite Hw by assumption. rewrite nth_gather by assumption.
        f_equal. lia.
      * rewrite Hr by (intros r Hr'; apply index_neq; lia).
        rewrite Hsh by assumption.
        replace (a <? m) with true by (symmetry; apply Nat.ltb_lt; lia).
        simpl. destruct ((i <? c) && (c <=? k)); reflexivity.
    + rewrite Hr by (intros r Hr'; apply index_neq; lia).
      rewrite Hsh by assumption.
      replace (a <? m) with false by (symmetry; apply Nat.ltb_ge; lia).
      reflexivity.
Qed.

(** [DeepRowSwap( M, i, k )]: the same shift on rows. *)
Lemma DeepRowSwap_spec (M : Matrix F) (i k : nat) :
  Dense M -> i <= k -> k < Height M ->
  forall a c, a < LDim M ->
    Get (DeepRowSwap M i k) a c
    = if c <? Width M then Get M (shiftIndex i k a) c else Get M a c.
Proof.
  intros [D1 D2] Hik Hk a c Ha.
  unfold Get, DeepRowSwap; simpl.
  set (ld := LDim M) in *. set (n := Width M) in *. set (buf := Buffer M) in *.
  set (shifted := forDown i (k - i) _ buf).
  assert (Hsh : length shifted = length buf /\
    forall a c, a < ld ->
      rd shifted (a + c * ld)
      = if (c <? n) && (i <? a) && (a <=? k)
        then rd buf ((a - 1) + c * ld) else rd buf (a + c * ld)).
  { subst shifted.
    pose (P := fun (j : nat) (b : list F) =>
      length b = length buf /\
      forall a c, a < ld ->
        rd b (a + c * ld)
        = if (c <? n) && (j <? a) && (a <=? k)
          then rd buf ((a - 1) + c * ld) else rd buf (a + c * ld)).
    match goal with |- context [forDown i (k - i) ?f buf] =>
      change (P i (forDown i (k - i) f buf)) end.
    apply forDown_inv.
    - split; auto. intros a0 c0 Ha0.
      replace (i + (k - i)) with k by lia.
      destruct (Nat.ltb_spec k a0), (Nat.leb_spec a0 k); try lia;
        now rewrite ?andb_false_r.
    - intros l x [Hl1 Hl2] [Hlen Hx]. split; [now rewrite length_Copy|].
      intros a0 c0 Ha0.
      rewrite (Copy_rows x ld n) by (try lia; rewrite Hlen; auto).
      rewrite !Hx by lia.
      destruct (Nat.eqb_spec a0 (l + 1)) as [->|Hne]; simpl.
      + replace (l + 1 - 1) with l by lia.
        destruct (Nat.ltb_spec c0 n); simpl.
        * replace (S l <? l) with false by (symmetry; apply Nat.ltb_ge; lia).
          replace (l <? l + 1) with true by (symmetry; apply Nat.ltb_lt; lia).
          replace (l + 1 <=? k) with true by (symmetry; apply Nat.leb_le; lia).
          reflexivity.
        * replace (S l <? l + 1) with false by (symmetry; apply Nat.ltb_ge; lia).
          reflexivity.
      + destruct (Nat.ltb_spec c0 n); simpl; auto.
        destruct (Nat.ltb_spec (S l) a0), (Nat.ltb_spec l a0); try lia; reflexivity. }
  destruct Hsh as [Hlen Hsh]. clearbody shifted.
  destruct (forUp_wr (fun r => i + r * ld)
              (fun r _ => nth r (gather buf k ld n) (Fint 0)) shifted n)
    as (_ & Hw & Hr).
  - intros r Hr. rewrite Hlen.
    apply index_bound with (ld := ld) (w := n); auto; lia.
  - intros r r' Hr Hr' E. apply index_inj in E; lia.
  - auto.
  - unfold shiftIndex.
    destruct (Nat.ltb_spec c n) as [Hcn|Hcn].
    + destruct (Nat.eqb_spec a i) as [->|Hai].
      * rewrite Hw by assumption. rewrite nth_gather by assumption. reflexivity.
      * rewrite Hr by (intros r Hr'; apply index_neq; lia).
        rewrite Hsh by assumption.
        replace (c <? n) with true by (symmetry; apply Nat.ltb_lt; lia).
        simpl. destruct ((i <? a) && (a <=? k)); reflexivity.
    + rewrite Hr by (intros r Hr'; apply index_neq; lia).
      rewrite Hsh by assumption.
      replace (c <? n) with false by (symmetry; apply Nat.ltb_ge; lia).
      reflexivity.
Qed.

Lemma shiftIndex_range (n i k c : nat) :
  i <= k -> k < n -> c < n -> shiftIndex i k c < n.
Proof.
  intros. unfold shiftIndex.
  destruct (c =? i); [lia|].
  destruct (Nat.ltb_spec i c), (Nat.leb_spec c k); simpl; lia.
Qed.

Lemma shiftIndex_inj (i k c c' : nat) :
  i <= k -> shiftIndex i k c = shiftIndex i k c' -> c = c'.
Proof.
  intros Hik. unfold shiftIndex.
  destruct (Nat.eqb_spec c i), (Nat.eqb_spec c' i);
    destruct (Nat.ltb_spec i c), (Nat.leb_spec c k);
    destruct (Nat.ltb_spec i c'), (Nat.leb_spec c' k); simpl; lia.
Qed.

Lemma transpose_range (n a b c : nat) :
  a < n -> b < n -> c < n -> transpose a b c < n.
Proof.
  intros. unfold transpose. destruct (c =? a); [lia|]. destruct (c =? b); lia.
Qed.

Lemma transpose_inj (a b c c' : nat) :
  transpose a b c = transpose a b c' -> c = c'.
Proof.
  unfold transpose.
  destruct (Nat.eqb_spec c a), (Nat.eqb_spec c' a),
           (Nat.eqb_spec c b), (Nat.eqb_spec c' b); lia.
Qed.

End DeepSwaps.

(** ** [U UInv = I] is an invariant of both drivers *)

Section Unimodularity.
Context {Sc : Scalar}.

Hypothesis F_ring : ring_theory (Fint 0) (Fint 1) Fadd Fmul Fsub Fopp (@eq F).
Hypothesis F_minus_one : Fint (-1) = Fopp (Fint 1).

Add Ring FRing2 : F_ring.

Variable n : nat.

Lemma Square_shape (M M' : Matrix F) :
  shape M' = shape M -> Square n M -> Square n M'.
Proof.
  unfold shape, Square, Dense. intros E.
  assert (Height M' = Height M) by congruence.
  assert (Width M' = Width M) by congruence.
  assert (LDim M' = LDim M) by congruence.
  assert (length (Buffer M') = length (Buffer M)) by congruence.
  intros ([D1 D2] & H3 & H4). repeat split; congruence.
Qed.

Lemma Unimodular_keep (s s' : LLLState) :
  Unimodular n s -> shapes s' = shapes s ->
  (forall i j, i < n -> j < n ->
     MulEntry n (stU s') (stUInv s') i j = MulEntry n (stU s) (stUInv s) i j) ->
  Unimodular n s'.
Proof.
  intros (HW & HU & HV & HI) E Hmul. unfold shapes in E.
  assert (EB : shape (stB s') = shape (stB s)) by congruence.
  assert (EU : shape (stU s') = shape (stU s)) by congruence.
  assert (EV : shape (stUInv s') = shape (stUInv s)) by congruence.
  clear E.
  split; [unfold shape in EB; congruence|].
  split; [eapply Square_shape; eauto|].
  split; [eapply Square_shape; eauto|].
  intros i j Hi Hj. rewrite Hmul by assumption. now apply HI.
Qed.

Lemma Unimodular_same (s s' : LLLState) :
  Unimodular n s -> shapes s' = shapes s ->
  stU s' = stU s -> stUInv s' = stUInv s -> Unimodular n s'.
Proof.
  intros H E EU EV. apply (Unimodular_keep s); auto.
  intros. now rewrite EU, EV.
Qed.

Lemma sumF_pick (k : nat) (g : nat -> F) (chi : F) :
  1 <= k ->
  sumF k (fun p => Fmul (g p) (if p =? k - 1 then chi else Fint 0))
  = Fmul (g (k - 1)) chi.
Proof.
  intros Hk.
  rewrite (sumF_ext k _
             (fun p => if p =? k - 1 then Fmul (g (k - 1)) chi else Fint 0)).
  - apply (sumF_single F_ring). lia.
  - intros p Hp. destruct (Nat.eqb_spec p (k - 1)) as [->|]; [reflexivity | ring].
Qed.

(** The column operations of size-reduction. *)
Lemma SizeReduce_unimodular (k : nat) (ctrl : LLLCtrl Real) (s : LLLState) :
  1 <= k -> k < n -> Unimodular n s ->
  Unimodular n (SizeReduce k true true ctrl s).
Proof.
  intros Hk1 Hkn Huni.
  apply (Unimodular_keep s); auto; [apply shapes_SizeReduce|].
  destruct Huni as (HW & ([DU1 DU2] & HUh & HUw) & ([DV1 DV2] & HVh & HVw) & _).
  unfold SizeReduce. destruct (weak ctrl).
  - unfold WeakReduce. destruct (Rltb _ _); [|reflexivity].
    destruct (OverEta _ _); [|reflexivity].
    set (chi := Round _). simpl stU. simpl stUInv. rewrite HW.
    apply (MulEntry_combine F_ring n k (fun p => if p =? k - 1 then chi else Fint 0));
      auto.
    + intros i l Hi Hl. unfold Get at 1. simpl.
      rewrite (Axpy_columns (Buffer (stU s)) (LDim (stU s)) (Width (stU s)))
        by lia.
      rewrite sumF_pick by assumption. unfold Get.
      destruct (Nat.eqb_spec l k) as [->|]; simpl; [|reflexivity].
      replace (i <? n) with true by (symmetry; apply Nat.ltb_lt; lia). ring.
    + intros l j Hl Hj. unfold Get at 1. simpl.
      rewrite (Axpy_rows (Buffer (stUInv s)) (LDim (stUInv s)) (Width (stUInv s)))
        by lia.
      unfold Get.
      destruct (Nat.eqb_spec l (k - 1)) as [->|Hne]; simpl.
      * replace (j <? n) with true by (symmetry; apply Nat.ltb_lt; lia).
        replace (k - 1 <? k) with true by (symmetry; apply Nat.ltb_lt; lia).
        reflexivity.
      * destruct (l <? k); [ring | reflexivity].
  - unfold StandardReduce.
    destruct (Scan _ _ _ _) as [Qf xf]. simpl stU. simpl stUInv. rewrite HW.
    apply (MulEntry_combine F_ring n k (fun p => rd xf p)); auto.
    + intros i l Hi Hl. unfold Get at 1. simpl.
      rewrite (Gemv_columns (Buffer (stU s)) (LDim (stU s)) (Width (stU s)))
        by lia.
      destruct (Nat.eqb_spec l k) as [->|]; simpl; [|reflexivity].
      replace (i <? n) with true by (symmetry; apply Nat.ltb_lt; lia).
      change (rowDot k (Buffer (stU s)) 0 (LDim (stU s)) i xf)
        with (sumF k (fun p => Fmul (Get (stU s) i p) (rd xf p))).
      unfold Get at 2. rewrite F_minus_one. ring.
    + intros l j Hl Hj. unfold Get at 1. simpl.
      rewrite (Geru_rows (Buffer (stUInv s)) (LDim (stUInv s)) (Width (stUInv s)))
        by lia.
      unfold Get.
      replace (j <? n) with true by (symmetry; apply Nat.ltb_lt; lia).
      rewrite andb_true_r. destruct (l <? k); [ring | reflexivity].
Qed.

Lemma StepPass_unimodular (k : nat) (ctrl : LLLCtrl Real) (s : LLLState) :
  1 <= k -> k < n -> Unimodular n s ->
  match StepPass k true true ctrl s with
  | StepRaise _ => True
  | StepZero s' | StepBreak s' | StepAgain s' => Unimodular n s'
  end.
Proof.
  intros Hk1 Hkn Huni.
  assert (He : Unimodular n (Expanded k ctrl s)).
  { apply (Unimodular_same s); auto. apply shapes_Expanded. }
  unfold StepPass. destruct (NormGuard _); auto.
  destruct (Rleb _ _).
  - apply (Unimodular_same (Expanded k ctrl s)); auto. apply shapes_ZeroColumn.
  - destruct (NormGuard _); auto.
    destruct (Rltb _ _); now apply SizeReduce_unimodular.
Qed.

Lemma Reflect_transforms (k : nat) (s : LLLState) :
  stB (Reflect k s) = stB s /\ stU (Reflect k s) = stU s /\
  stUInv (Reflect k s) = stUInv s.
Proof.
  unfold Reflect. destruct (HouseholderStep _ _ _ _) as [[QR t] d]. auto.
Qed.

Lemma Step_unimodular (k : nat) (ctrl : LLLCtrl Real) :
  1 <= k -> k < n ->
  forall fuel s b s',
    Unimodular n s -> Step fuel k true true ctrl s = Ok (b, s') ->
    Unimodular n s'.
Proof.
  intros Hk1 Hkn. induction fuel as [|f IH]; intros s b s' Huni H; simpl in H;
    [discriminate|].
  pose proof (StepPass_unimodular k ctrl s Hk1 Hkn Huni) as Hp.
  destruct (StepPass _ _ _ _ _); try discriminate.
  - inversion H; subst; assumption.
  - inversion H; subst.
    apply (Unimodular_same s0); auto; try apply Reflect_transforms.
    apply shapes_Reflect.
  - eapply IH; eauto.
Qed.

Lemma shapes_FirstColumn (ctrl : LLLCtrl Real) (s : LLLState) :
  shapes (fst (FirstColumn ctrl s)) = shapes s /\
  stU (fst (FirstColumn ctrl s)) = stU s /\
  stUInv (fst (FirstColumn ctrl s)) = stUInv s.
Proof.
  unfold FirstColumn.
  pose proof (Reflect_transforms 0 (Expanded 0 ctrl s)) as (_ & EU & EV).
  destruct (Rleb _ _); simpl.
  - split; [|split; assumption].
    unfold shapes; simpl. rewrite !shape_ZeroCol.
    change (shapes (Reflect 0 (Expanded 0 ctrl s)) = shapes s).
    now rewrite shapes_Reflect, shapes_Expanded.
  - split; [|split; assumption].
    now rewrite shapes_Reflect, shapes_Expanded.
Qed.

Lemma FirstColumn_unimodular (ctrl : LLLCtrl Real) (s : LLLState) :
  Unimodular n s -> Unimodular n (fst (FirstColumn ctrl s)).
Proof.
  intros H. apply (Unimodular_same s); auto; apply shapes_FirstColumn.
Qed.

Lemma SwapColumns_unimodular (k : nat) (s : LLLState) :
  1 <= k -> k < n -> Unimodular n s ->
  Unimodular n (SwapColumns k true true s).
Proof.
  intros Hk1 Hkn Huni.
  apply (Unimodular_keep s); auto.
  - unfold shapes, SwapColumns; simpl.
    now rewrite !shape_ColSwap, shape_RowSwap.
  - destruct Huni as (HW & (DU & HUh & HUw) & (DV & HVh & HVw) & _).
    unfold SwapColumns; simpl.
    apply (MulEntry_permute F_ring n (transpose (k - 1) k)).
    + intros l Hl. apply transpose_range; lia.
    + intros l l' _ _. apply transpose_inj.
    + intros i l Hi Hl. rewrite ColSwap_spec; auto; try lia.
      * replace (i <? Height (stU s)) with true
          by (symmetry; apply Nat.ltb_lt; lia). reflexivity.
      * destruct DU; lia.
    + intros l j Hl Hj. rewrite RowSwap_spec; auto; try lia.
      * replace (j <? Width (stUInv s)) with true
          by (symmetry; apply Nat.ltb_lt; lia). reflexivity.
      * destruct DV; lia.
Qed.

Lemma InsertColumn_unimodular (i k : nat) (s : LLLState) :
  i <= k -> k < n -> Unimodular n s ->
  Unimodular n (InsertColumn i k true true s).
Proof.
  intros Hik Hkn Huni.
  apply (Unimodular_keep s); auto.
  - unfold shapes, InsertColumn; simpl.
    now rewrite !shape_DeepColSwap, shape_DeepRowSwap.
  - destruct Huni as (HW & (DU & HUh & HUw) & (DV & HVh & HVw) & _).
    unfold InsertColumn; simpl.
    apply (MulEntry_permute F_ring n (shiftIndex i k)).
    + intros l Hl. apply shiftIndex_range; lia.
    + intros l l' _ _. now apply shiftIndex_inj.
    + intros a l Ha Hl. rewrite DeepColSwap_spec; auto; try lia.
      * replace (a <? Height (stU s)) with true
          by (symmetry; apply Nat.ltb_lt; lia). reflexivity.
      * destruct DU; lia.
    + intros l j Hl Hj. rewrite DeepRowSwap_spec; auto; try lia.
      * replace (j <? Width (stUInv s)) with true
          by (symmetry; apply Nat.ltb_lt; lia). reflexivity.
      * destruct DV; lia.
Qed.

End Unimodularity.

(** ** Invariants of the driver loops *)

Section LoopInvariants.
Context {Sc : Scalar}.

(** The invariant rule of [while( k < n )]. *)
Lemma DriverLoop_inv (P : Driver -> Prop) (body : Driver -> result Driver) (n : nat) :
  (forall dr dr', P dr -> cur_k dr < n -> body dr = Ok dr' -> P dr') ->
  forall fuel dr dr',
    P dr -> DriverLoop body fuel n dr = Ok dr' -> P dr' /\ n <= cur_k dr'.
Proof.
  intros Hbody. induction fuel as [|f IH]; intros dr dr' HP H; simpl in H.
  - destruct (Nat.ltb_spec (cur_k dr) n); [discriminate|].
    inversion H; subst. auto.
  - destruct (Nat.ltb_spec (cur_k dr) n) as [Hlt|Hge].
    + destruct (body dr) as [dr1| |] eqn:E; simpl in H; try discriminate.
      apply (IH dr1); auto. eapply Hbody; eauto.
    + inversion H; subst. auto.
Qed.

Lemma DeepScan_bound
    (downdate : Matrix F -> nat -> nat -> Real -> Real -> Real * Real)
    (ctrl : LLLCtrl Real) (QR : Matrix F) (k : nat) :
  forall cnt i0 o p i,
    DeepScan downdate ctrl QR k cnt i0 o p = Some i -> i0 <= i < i0 + cnt.
Proof.
  induction cnt as [|c IH]; intros i0 o p i H; simpl in H; [discriminate|].
  destruct (Rltb _ _).
  - inversion H; subst. lia.
  - destruct (downdate QR k i0 o p) as [o' p'].
    apply IH in H. lia.
Qed.

End LoopInvariants.

Section UnimodularDrivers.
Context {Sc : Scalar}.

Hypothesis F_ring : ring_theory (Fint 0) (Fint 1) Fadd Fmul Fsub Fopp (@eq F).
Hypothesis F_minus_one : Fint (-1) = Fopp (Fint 1).

Variables (n : nat) (ctrl : LLLCtrl Real).

Local Abbreviation Inv := (TransformsInv n).

Lemma AfterStep_unimodular (dr : Driver) (z : bool) (s : LLLState) :
  1 <= cur_k dr -> cur_k dr < n -> Unimodular n s ->
  Inv (AfterStep true true ctrl dr z s).
Proof.
  intros Hk1 Hkn Huni. unfold AfterStep, TransformsInv.
  destruct (LovaszHolds _ _ _); simpl; [split; [assumption | lia]|].
  pose proof (SwapColumns_unimodular F_ring n (cur_k dr) s Hk1 Hkn Huni) as Hsw.
  destruct (Nat.eqb_spec (cur_k dr) 1) as [E|E].
  - pose proof (FirstColumn_unimodular n ctrl _ Hsw) as Hf.
    destruct (FirstColumn _ _) as [s1 nl]. simpl in *. split; [assumption | lia].
  - simpl. split; [assumption | lia].
Qed.

Lemma DeepAfterStep_unimodular
    (downdate : Matrix F -> nat -> nat -> Real -> Real -> Real * Real)
    (dr : Driver) (z : bool) (s : LLLState) :
  1 <= cur_k dr -> cur_k dr < n -> Unimodular n s ->
  Inv (DeepAfterStep downdate true true ctrl dr z s).
Proof.
  intros Hk1 Hkn Huni. unfold DeepAfterStep, TransformsInv.
  destruct (DeepScan _ _ _ _ _ _ _ _) as [i|] eqn:E; simpl;
    [|split; [assumption | lia]].
  apply DeepScan_bound in E.
  assert (Hins : Unimodular n (InsertColumn i (cur_k dr) true true s)).
  { apply (InsertColumn_unimodular F_ring); auto; lia. }
  destruct (Nat.eqb_spec i 0) as [E0|E0].
  - pose proof (FirstColumn_unimodular n ctrl _ Hins) as Hf.
    destruct (FirstColumn _ _) as [s1 nl]. simpl in *. split; [assumption | lia].
  - simpl. split; [assumption | lia].
Qed.

Lemma UnblockedIter_unimodular (fuel : nat) (dr dr' : Driver) :
  Inv dr -> cur_k dr < n ->
  UnblockedIter fuel true true ctrl dr = Ok dr' -> Inv dr'.
Proof.
  intros [Huni Hk1] Hkn H. unfold UnblockedIter in H.
  destruct (Step _ _ _ _ _ _) as [[z s]| |] eqn:E; simpl in H; try discriminate.
  inversion H; subst. apply AfterStep_unimodular; auto.
  eapply (Step_unimodular F_ring F_minus_one); eauto.
Qed.

Lemma DeepIter_unimodular
    (downdate : Matrix F -> nat -> nat -> Real -> Real -> Real * Real)
    (fuel : nat) (dr dr' : Driver) :
  Inv dr -> cur_k dr < n ->
  DeepIter downdate fuel true true ctrl dr = Ok dr' -> Inv dr'.
Proof.
  intros [Huni Hk1] Hkn H. unfold DeepIter in H.
  destruct (Step _ _ _ _ _ _) as [[z s]| |] eqn:E; simpl in H; try discriminate.
  inversion H; subst. apply DeepAfterStep_unimodular; auto.
  eapply (Step_unimodular F_ring F_minus_one); eauto.
Qed.

Lemma Initialize_unimodular (B U UInv : Matrix F) :
  Width B = n -> Square n U -> Square n UInv -> IsInversePair n U UInv ->
  Inv (Initialize B U UInv ctrl).
Proof.
  intros HW HU HV HI. unfold Initialize, TransformsInv.
  set (s0 := mkState B U UInv _ _ _).
  assert (H0 : Unimodular n s0) by (repeat split; auto; apply HU || apply HV).
  pose proof (FirstColumn_unimodular n ctrl _ H0) as Hf.
  destruct (FirstColumn ctrl s0) as [s1 nl]. simpl in *. split; [assumption | lia].
Qed.

(** C2. With both transforms tracked and [U UInv = I] on entry (in
    particular for [U = UInv = I]), over a commutative ring of scalars:
    the column operations of size-reduction (the axpy pair of weak
    mode, the Gemv/Geru pair of standard mode), the [ColSwap]/[RowSwap]
    pair and the deep column/row shift each preserve [U UInv = I];
    hence so does every outer iteration of either driver, and
    [U UInv = I] holds when either driver returns. *)
Theorem transforms_stay_inverse :
  forall (Achieved : Matrix F -> LLLCtrl Real -> Real * Real)
         (LogVolume : Matrix F -> Real) (B U UInv : Matrix F),
    Width B = n -> Square n U -> Square n UInv -> IsInversePair n U UInv ->
    (forall k s, 1 <= k -> k < n -> Unimodular n s ->
       Unimodular n (SizeReduce k true true ctrl s) /\
       Unimodular n (SwapColumns k true true s) /\
       (forall i, i <= k -> Unimodular n (InsertColumn i k true true s))) /\
    (forall fuel dr dr',
       Unimodular n (work dr) -> 1 <= cur_k dr -> cur_k dr < n ->
       (UnblockedIter fuel true true ctrl dr = Ok dr' ->
        Unimodular n (work dr') /\ 1 <= cur_k dr') /\
       (DeepIter Downdate fuel true true ctrl dr = Ok dr' ->
        Unimodular n (work dr') /\ 1 <= cur_k dr')) /\
    (forall fuel s info,
       UnblockedAlg Achieved LogVolume fuel B U UInv true true ctrl = Ok (s, info) ->
       IsInversePair n (stU s) (stUInv s)) /\
    (forall fuel s info,
       UnblockedDeepAlg Achieved LogVolume fuel B U UInv true true ctrl = Ok (s, info) ->
       IsInversePair n (stU s) (stUInv s)).
Proof.
  intros Achieved LogVolume B U UInv HW HU HV HI.
  pose proof (Initialize_unimodular B U UInv HW HU HV HI) as Hinit.
  split; [|split; [|split]].
  - intros k s Hk1 Hkn Huni. split; [|split].
    + now apply (SizeReduce_unimodular F_ring F_minus_one).
    + now apply (SwapColumns_unimodular F_ring).
    + intros i Hi. now apply (InsertColumn_unimodular F_ring).
  - intros fuel dr dr' Huni Hk1 Hkn. split; intros H.
    + apply (UnblockedIter_unimodular fuel dr dr'); auto. split; assumption.
    + apply (DeepIter_unimodular Downdate fuel dr dr'); auto. split; assumption.
  - intros fuel s info H. unfold UnblockedAlg in H.
    destruct (DriverLoop _ _ _ _) as [dr| |] eqn:E; simpl in H; try discriminate.
    rewrite HW in E.
    apply (DriverLoop_inv Inv) in E; auto.
    + destruct E as [[(_ & _ & _ & Hinv) _] _].
      inversion H; subst. exact Hinv.
    + intros d d' Hd Hk Hb. eapply UnblockedIter_unimodular; eauto.
  - intros fuel s info H. unfold UnblockedDeepAlg, DeepAlgWith in H.
    destruct (DriverLoop _ _ _ _) as [dr| |] eqn:E; simpl in H; try discriminate.
    rewrite HW in E.
    apply (DriverLoop_inv Inv) in E; auto.
    + destruct E as [[(_ & _ & _ & Hinv) _] _].
      inversion H; subst. exact Hinv.
    + intros d d' Hd Hk Hb. eapply DeepIter_unimodular; eauto.
Qed.

End UnimodularDrivers.

(** ** Zero columns travel to the front *)

Lemma map_seq_const {A : Type} (f : nat -> A) (c : A) :
  forall m a, (forall l, a <= l < a + m -> f l = c) ->
              map f (seq a m) = repeat c m.
Proof.
  induction m as [|m IH]; intros a H; simpl; [reflexivity|].
  rewrite H by lia. f_equal. apply IH. intros; apply H; lia.
Qed.

Section ZeroColumns.
Context {Sc : Scalar}.
Variables (formU formUInv : bool) (ctrl : LLLCtrl Real).

Lemma SameExceptColumn_refl (k : nat) (B : Matrix F) : SameExceptColumn k B B.
Proof. split; auto. Qed.

Lemma SameExceptColumn_trans (k : nat) (B1 B2 B3 : Matrix F) :
  SameExceptColumn k B1 B2 -> SameExceptColumn k B2 B3 ->
  SameExceptColumn k B1 B3.
Proof.
  intros [S1 F1] [S2 F2]. split; [congruence|].
  intros a j Ha Hj. rewrite F2, F1; auto.
  unfold shape in S1. assert (LDim B2 = LDim B1) by congruence. lia.
Qed.

Lemma Dense_shape {A : Type} (M M' : Matrix A) :
  shape M' = shape M -> Dense M -> Dense M'.
Proof.
  unfold shape, Dense. intros E [D1 D2].
  assert (Height M' = Height M) by congruence.
  assert (Width M' = Width M) by congruence.
  assert (LDim M' = LDim M) by congruence.
  assert (length (Buffer M') = length (Buffer M)) by congruence.
  split; congruence.
Qed.

(** Size-reduction only writes column [k] of [B]. *)
Lemma SizeReduce_B (k : nat) (s : LLLState) :
  Dense (stB s) -> 1 <= k -> k < Width (stB s) ->
  SameExceptColumn k (stB s) (stB (SizeReduce k formU formUInv ctrl s)).
Proof.
  intros [D1 D2] Hk1 Hk. unfold SizeReduce. destruct (weak ctrl).
  - unfold WeakReduce. destruct (Rltb _ _); [|apply SameExceptColumn_refl].
    destruct (OverEta _ _); [|apply SameExceptColumn_refl].
    simpl. split.
    + apply shape_withBuffer, length_Axpy.
    + intros a j Ha Hj. unfold Get; simpl.
      rewrite (Axpy_columns (Buffer (stB s)) (LDim (stB s)) (Width (stB s)))
        by (auto; lia).
      apply Nat.eqb_neq in Hj. now rewrite Hj.
  - unfold StandardReduce. destruct (Scan _ _ _ _) as [Qf xf]. simpl. split.
    + apply shape_withBuffer, length_Gemv.
    + intros a j Ha Hj. unfold Get; simpl.
      rewrite (Gemv_columns (Buffer (stB s)) (LDim (stB s)) (Width (stB s)))
        by (auto; lia).
      apply Nat.eqb_neq in Hj. now rewrite Hj.
Qed.

(** The zero branch clears column [k] of [B] and keeps the rest. *)
Lemma ZeroColumn_B (k : nat) (s : LLLState) :
  Dense (stB s) -> k < Width (stB s) ->
  SameExceptColumn k (stB s) (stB (ZeroColumn k s)) /\
  ColumnIsZero (stB (ZeroColumn k s)) k.
Proof.
  intros [D1 D2] Hk.
  destruct (zero_loop (Buffer (stB s)) (LDim (stB s)) (Width (stB s))
              (Height (stB s)) k D1 Hk D2) as (Hlen & Hz & Hr).
  unfold ZeroColumn; simpl. split; [split|].
  - now apply shape_withBuffer.
  - intros a j Ha Hj. unfold Get; simpl. apply Hr.
    intros i Hi. apply index_neq; lia.
  - intros i Hi. unfold Get; simpl. now apply Hz.
Qed.

Lemma StepPass_B (k : nat) (s : LLLState) :
  Dense (stB s) -> 1 <= k -> k < Width (stB s) ->
  match StepPass k formU formUInv ctrl s with
  | StepRaise _ => True
  | StepZero s' => SameExceptColumn k (stB s) (stB s') /\ ColumnIsZero (stB s') k
  | StepBreak s' | StepAgain s' => SameExceptColumn k (stB s) (stB s')
  end.
Proof.
  intros HD Hk1 Hk. unfold StepPass.
  destruct (NormGuard _); auto.
  destruct (Rleb _ _).
  - now apply (ZeroColumn_B k (Expanded k ctrl s)).
  - destruct (NormGuard _); auto.
    destruct (Rltb _ _); now apply (SizeReduce_B k (Expanded k ctrl s)).
Qed.

(** [Step(k)] only writes column [k] of [B], and leaves it zero when it
    returns [true]. *)
Lemma Step_B (k : nat) :
  1 <= k ->
  forall fuel s z s',
    Dense (stB s) -> k < Width (stB s) ->
    Step fuel k formU formUInv ctrl s = Ok (z, s') ->
    SameExceptColumn k (stB s) (stB s') /\
    (z = true -> ColumnIsZero (stB s') k).
Proof.
  intros Hk1. induction fuel as [|f IH]; intros s z s' HD Hk H; simpl in H;
    [discriminate|].
  pose proof (StepPass_B k s HD Hk1 Hk) as Hp.
  destruct (StepPass _ _ _ _ _) as [e|s1|s1|s1]; try discriminate.
  - inversion H; subst. destruct Hp. auto.
  - inversion H; subst.
    destruct (Reflect_transforms k s1) as (-> & _). split; [assumption|discriminate].
  - destruct Hp as [Hs Hf].
    destruct (IH s1 z s') as [H1 H2]; auto.
    + eapply Dense_shape; eauto.
    + unfold shape in Hs. assert (Width (stB s1) = Width (stB s)) by congruence. lia.
    + split; auto. eapply SameExceptColumn_trans; eauto. split; auto.
Qed.

(** The norm of a zero vector is zero, zero is an acceptable norm, and
    [zeroTol] is not negative. *)
Hypothesis Nrm2_zero : forall m, Nrm2 (repeat (Fint 0) m) = Rint 0.
Hypothesis zero_finite : IsFinite (Rint 0) = true.
Hypothesis zero_below_inv_eps : Rltb (Rdiv (Rint 1) Epsilon) (Rint 0) = false.
Hypothesis zeroTol_nonneg : Rleb (Rint 0) (zeroTol ctrl) = true.

Lemma gather_zero_column (B : Matrix F) (k : nat) :
  ColumnIsZero B k ->
  gather (Buffer B) (k * LDim B) 1 (Height B) = repeat (Fint 0) (Height B).
Proof.
  intros H. unfold gather. apply map_seq_const.
  intros l Hl. replace (k * LDim B + l * 1) with (l + k * LDim B) by lia.
  apply H. lia.
Qed.

(** On a column that is zero already, [Step] returns [true] at once. *)
Lemma Step_on_zero_column (k fuel : nat) (s : LLLState) :
  ColumnIsZero (stB s) k ->
  Step (S fuel) k formU formUInv ctrl s
  = Ok (true, ZeroColumn k (Expanded k ctrl s)).
Proof.
  intros Hz. simpl. unfold StepPass.
  assert (E : ColumnNorm k (Expanded k ctrl s) = Rint 0).
  { unfold ColumnNorm. simpl stB. now rewrite gather_zero_column. }
  rewrite E. unfold NormGuard.
  now rewrite zero_finite, zero_below_inv_eps, zeroTol_nonneg.
Qed.

End ZeroColumns.

Section ZeroColumnsDriver.
Context {Sc : Scalar}.
Variables (formU formUInv : bool) (ctrl : LLLCtrl Real).

Hypothesis Nrm2_zero : forall m, Nrm2 (repeat (Fint 0) m) = Rint 0.
Hypothesis zero_finite : IsFinite (Rint 0) = true.
Hypothesis zero_below_inv_eps : Rltb (Rdiv (Rint 1) Epsilon) (Rint 0) = false.
Hypothesis zeroTol_nonneg : Rleb (Rint 0) (zeroTol ctrl) = true.

(** The invariant rule of [while( k < n )] under a side condition on
    every iteration. *)
Lemma DriverLoop_along (I P : Driver -> Prop) (body : Driver -> result Driver)
    (n : nat) :
  (forall dr dr', I dr -> cur_k dr < n -> P dr -> body dr = Ok dr' -> I dr') ->
  forall fuel dr dr',
    I dr -> AlongLoop P body fuel n dr ->
    DriverLoop body fuel n dr = Ok dr' -> I dr' /\ n <= cur_k dr'.
Proof.
  intros Hbody. induction fuel as [|f IH]; intros dr dr' HI HA H;
    simpl in H, HA.
  - destruct (Nat.ltb_spec (cur_k dr) n); [discriminate|].
    inversion H; subst. auto.
  - destruct (Nat.ltb_spec (cur_k dr) n) as [Hlt|Hge].
    + destruct HA as [HP HA].
      destruct (body dr) as [dr1| |] eqn:E; simpl in H; try discriminate.
      apply (IH dr1); auto. eapply Hbody; eauto.
    + inversion H; subst. auto.
Qed.



Lemma SameExceptColumn_zero (k j : nat) (B B' : Matrix F) :
  Dense B -> SameExceptColumn k B B' -> j <> k ->
  ColumnIsZero B j -> ColumnIsZero B' j.
Proof.
  intros [D1 D2] [Hs Hf] Hj Hz i Hi.
  assert (Height B' = Height B) by (unfold shape in Hs; congruence).
  rewrite Hf; auto; [apply Hz|]; lia.
Qed.

End ZeroColumnsDriver.

(** ** Zero columns lead *)

Section ZeroColumnsLead.
Context {Sc : Scalar}.
Variables (formU formUInv : bool) (ctrl : LLLCtrl Real).

(** The norm of a zero vector is zero, [zeroTol] is not negative, and
    [reorthogTol] times a column norm is not negative. *)
Hypothesis Nrm2_zero : forall m, Nrm2 (repeat (Fint 0) m) = Rint 0.
Hypothesis FrobeniusNorm_zero : forall m, FrobeniusNorm (repeat (Fint 0) m) = Rint 0.
Hypothesis zeroTol_nonneg : Rleb (Rint 0) (zeroTol ctrl) = true.
Hypothesis reorthog_nonneg :
  forall v : list F, Rltb (Rmul (reorthogTol ctrl) (Nrm2 v)) (Rint 0) = false.







(** What holds before every iteration that a loop reaches. *)
Lemma Iterations_keeps (P : Driver -> Prop) (body : Driver -> result Driver)
    (n : nat) :
  (forall d d', P d -> cur_k d < n -> body d = Ok d' -> P d') ->
  forall j d0 d, P d0 -> Iterations body j n d0 = Some d -> P d.
Proof.
  intros Hbody. induction j as [|j IH]; intros d0 d HP H; simpl in H.
  - inversion H; subst. assumption.
  - destruct (Nat.ltb_spec (cur_k d0) n) as [Hlt|]; [|discriminate].
    destruct (body d0) as [d1| |] eqn:E; try discriminate.
    apply (IH d1); auto. eapply Hbody; eauto.
Qed.



End ZeroColumnsLead.

(** ** The rational scalars satisfy the laws assumed above *)

Module RationalLaws.
Import RationalScalar.

Lemma rational_F_ring :
  ring_theory (Fint (Scalar := scalar) 0) (Fint 1) Fadd Fmul Fsub Fopp (@eq Qc).
Proof. exact Qcrt. Qed.

Lemma rational_F_minus_one : Fint (Scalar := scalar) (-1) = Fopp (Fint 1).
Proof. apply Qc_is_canon. reflexivity. Qed.

Lemma this_ofZ (t : Z) : this (ofZ t) = inject_Z t.
Proof.
  unfold ofZ, Q2Qc. cbn [this]. apply Qred_identity. simpl. apply Z.gcd_1_r.
Qed.

Lemma round_ofZ (t : Z) : round (ofZ t) = ofZ t.
Proof.
  unfold round. rewrite this_ofZ. simpl Qnum. simpl Qden.
  destruct (Z.leb_spec 0 t) as [H|H]; f_equal.
  - replace (2 * t + 1)%Z with (t * (2 * 1) + 1)%Z by ring.
    rewrite Z.div_add_l by lia. rewrite Z.div_small by lia. ring.
  - replace (2 * - t + 1)%Z with ((- t) * (2 * 1) + 1)%Z by ring.
    rewrite Z.div_add_l by lia. rewrite Z.div_small by lia. ring.
Qed.

Lemma rational_Round_idempotent (z : F (Scalar := scalar)) : Round (Round z) = Round z.
Proof.
  change (round (round z) = round z). unfold round at 2 3.
  destruct (0 <=? Qnum z)%Z; apply round_ofZ.
Qed.

Lemma rational_Round_zero : Round (Fint (Scalar := scalar) 0) = Fint 0.
Proof. simpl. apply round_ofZ. Qed.

Lemma rational_not_lt_zero (x : Real (Scalar := scalar)) :
  Rltb x (Rint 0) = false -> Rleb (Rint 0) x = true.
Proof. simpl. unfold ltb, leb. now destruct (Qle_bool (ofZ 0) x). Qed.

Lemma rational_negate_negative (z : F (Scalar := scalar)) :
  Rltb (RealPart z) (Rint 0) = true ->
  Rleb (Rint 0) (RealPart (Fmul z (Fint (-1)))) = true.
Proof.
  simpl. unfold ltb, leb. intros H.
  apply Qle_bool_iff.
  destruct (Qle_bool (ofZ 0) z) eqn:E; [discriminate|].
  assert (Hz : ~ (ofZ 0 <= z)%Q) by (intros C; apply Qle_bool_iff in C; congruence).
  apply Qnot_le_lt in Hz.
  change (0 <= z * ofZ (-1))%Qc.
  replace (z * ofZ (-1))%Qc with (- z)%Qc.
  - assert (Hle : (z <= 0)%Qc) by (apply Qlt_le_weak; exact Hz).
    apply Qcopp_le_compat in Hle.
    replace (- 0)%Qc with 0%Qc in Hle by ring. exact Hle.
  - replace (ofZ (-1)) with (- (1))%Qc by (apply Qc_is_canon; reflexivity). ring.
Qed.

Lemma rational_not_above_zero (x y : Real (Scalar := scalar)) :
  IsFinite x = true -> IsFinite y = true ->
  Rltb (Rmul (Rint 0) x) y = false -> Rleb y (Rint 0) = true.
Proof.
  simpl. intros _ _. unfold ltb, leb.
  replace (ofZ 0 * x)%Qc with (ofZ 0) by (change (ofZ 0) with 0%Qc; ring).
  now destruct (Qle_bool y (ofZ 0)).
Qed.

Lemma rational_Rleb_trans (x y z : Real (Scalar := scalar)) :
  Rleb x y = true -> Rleb y z = true -> Rleb x z = true.
Proof.
  simpl. unfold leb. rewrite !Qle_bool_iff. apply Qle_trans.
Qed.

Lemma sumsq_zero (m : nat) : sumsq (repeat (ofZ 0) m) = ofZ 0.
Proof.
  unfold sumsq.
  assert (G : forall acc : Qc,
            fold_left (fun a x => a + x * x)%Qc (repeat (ofZ 0) m) acc = acc).
  { induction m as [|m IH]; intros acc; [reflexivity|].
    cbn [repeat fold_left]. rewrite IH. change (ofZ 0) with 0%Qc. ring. }
  apply G.
Qed.

Lemma rational_Nrm2_zero (m : nat) :
  Nrm2 (Scalar := scalar) (repeat (Fint 0) m) = Rint 0.
Proof. simpl. unfold nrm2. now rewrite sumsq_zero. Qed.



Lemma rational_nonneg_not_negative (x : Real (Scalar := scalar)) :
  Rleb (Rint 0) x = true -> Rltb x (Rint 0) = false.
Proof. simpl. unfold ltb, leb. now intros ->. Qed.

Lemma rational_zero_finite : IsFinite (Scalar := scalar) (Rint 0) = true.
Proof. reflexivity. Qed.

Lemma rational_zero_below_inv_eps :
  Rltb (Scalar := scalar) (Rdiv (Rint 1) Epsilon) (Rint 0) = false.
Proof. reflexivity. Qed.

Lemma rational_zeroTol_nonneg : Rleb (Scalar := scalar) (Rint 0) (zeroTol ctrl0) = true.
Proof. reflexivity. Qed.

Lemma Dense_identity2 : Dense (identity 2).
Proof. split; simpl; lia. Qed.

Lemma identity2_inverse :
  IsInversePair (Sc := scalar) 2 (identity 2) (identity 2).
Proof.
  intros [|[|i]] [|[|j]] Hi Hj; try lia; apply Qc_is_canon; reflexivity.
Qed.

End RationalLaws.

(** ** The floating scalars: negation and the sign test *)

Module FloatingLaws.
Import RationalScalar FloatingScalar.

Lemma ofInt_0 : ofInt 0 = Fin (ofZ 0).
Proof. vm_compute. reflexivity. Qed.

Lemma ofInt_m1 : ofInt (-1) = Fin (ofZ (-1)).
Proof. vm_compute. reflexivity. Qed.

Lemma floating_negate_negative (z : F (Scalar := scalar)) :
  Rltb (RealPart z) (Rint 0) = true ->
  Rleb (Rint 0) (RealPart (Fmul z (Fint (-1)))) = true.
Proof.
  cbn [Rltb Rleb RealPart Rint Fmul Fint scalar].
  rewrite ofInt_0, ofInt_m1.
  destruct z as [a| | |]; cbn [fltb]; try discriminate.
  - intros Ha.
    pose proof (RationalLaws.rational_negate_negative a Ha) as Hn.
    cbn [Rleb RealPart Fmul Fint RationalScalar.scalar] in Hn.
    cbn [mul]. unfold fit.
    destruct (ltb maxFinite (a * ofZ (-1))); [reflexivity|].
    destruct (ltb (a * ofZ (-1)) (- maxFinite)) eqn:L; [|exact Hn].
    exfalso. unfold ltb, leb in *.
    apply negb_true_iff in L.
    assert (Hle : Qle_bool (- maxFinite)%Qc (a * ofZ (-1))%Qc = true).
    { apply Qle_bool_iff.
      apply Qle_trans with (y := ofZ 0).
      - apply Qle_bool_iff. vm_compute. reflexivity.
      - now apply Qle_bool_iff. }
    congruence.
  - intros _. vm_compute. reflexivity.
Qed.

Lemma floating_nonneg_not_negative (x : Real (Scalar := scalar)) :
  Rleb (Rint 0) x = true -> Rltb x (Rint 0) = false.
Proof.
  cbn [Rltb Rleb Rint scalar]. rewrite ofInt_0.
  destruct x as [a| | |]; cbn [fleb fltb]; try discriminate; auto.
  unfold ltb, leb. now intros ->.
Qed.

End FloatingLaws.

(** ** The complex scalars: real diagonal values *)

Module GaussianLaws.
Import RationalScalar GaussianScalar.

Lemma gaussian_LeftReflector_real (chi : F (Scalar := scalar)) (x : list F) :
  ofReal (RealPart (snd (fst (LeftReflector chi x))))
  = snd (fst (LeftReflector chi x)).
Proof.
  cbn [ofReal RealPart LeftReflector scalar]. unfold cleftReflector.
  destruct (Qeq_bool (cnrm2 x) 0 && Qeq_bool (snd chi) 0) eqn:E;
    cbn [fst snd]; [|reflexivity].
  apply andb_true_iff in E. destruct E as [_ E].
  apply Qeq_bool_iff in E.
  assert (E' : snd chi = 0%Qc) by (apply Qc_is_canon; exact E).
  destruct chi as [a b]. cbn [snd] in E'. subst b.
  unfold ofRe, opp. cbn [fst snd]. f_equal.
Qed.

Lemma gaussian_negate_real (z : F (Scalar := scalar)) :
  ofReal (RealPart z) = z ->
  ofReal (RealPart (Fmul z (Fint (-1)))) = Fmul z (Fint (-1)).
Proof.
  cbn [ofReal RealPart Fmul Fint scalar]. destruct z as [a b].
  unfold ofRe, mul, ofInt. cbn [fst snd]. intros H. inversion H; subst b.
  f_equal. change (ofZ 0) with 0%Qc. ring.
Qed.

Lemma gaussian_zero_real :
  ofReal (RealPart (Fint (Scalar := scalar) 0)) = Fint 0.
Proof. reflexivity. Qed.

End GaussianLaws.

(** ** Concrete runs *)

Section Along.
Context {Sc : Scalar}.

Lemma AlongLoop_step (P : Driver -> Prop) (body : Driver -> result Driver)
    (fuel n : nat) (dr dr' : Driver) :
  P dr -> body dr = Ok dr' -> AlongLoop P body fuel n dr' ->
  AlongLoop P body (S fuel) n dr.
Proof.
  intros HP Hb Hrest. simpl. destruct (cur_k dr <? n); auto.
  split; auto. now rewrite Hb.
Qed.

Lemma AlongLoop_done (P : Driver -> Prop) (body : Driver -> result Driver)
    (fuel n : nat) (dr : Driver) :
  (cur_k dr <? n) = false -> AlongLoop P body fuel n dr.
Proof. intros H. destruct fuel; simpl; now rewrite H. Qed.

End Along.

(** Equations and comparisons between closed terms are checked by
    evaluation. *)
Ltac evaluate :=
  match goal with
  | |- _ = ?r => vm_cast_no_check (@eq_refl _ r)
  | |- _ <= _ => apply Nat.leb_le; vm_cast_no_check (@eq_refl bool true)
  | |- _ < _ => apply Nat.ltb_lt; vm_cast_no_check (@eq_refl bool true)
  end.

Module Runs.
Import RationalScalar RationalLaws.


(** The run on [exB], whose zero column is swapped to the front. *)
Lemma exRun_returns :
  UnblockedAlg noAchieved noLogVolume 20 exB (identity 2) (identity 2)
    true true ctrl0 = Ok (fst exRun, snd exRun).
Proof. evaluate. Qed.

End Runs.

Module Witnesses.
Import RationalScalar RationalLaws Runs.

Lemma Square_identity2 : Square (Sc := scalar) 2 (identity 2).
Proof. repeat split; simpl; lia. Qed.

Lemma StepReady_exStart : StepReady 1 (work exStart).
Proof. repeat split; evaluate. Qed.



(** The converse does not hold: the columns before [info.nullity]
    need not all be zero.  On [exB3] the driver reports nullity 3
    although column 1 of [B] is [(1,0,0)]. *)
Remark zero_detection_can_overcount :
  UnblockedAlg noAchieved noLogVolume 20 exB3 (identity 3) (identity 3)
    true true ctrl0 = Ok (fst exRun3, snd exRun3) /\
  nullity (snd exRun3) = 3 /\
  ~ ColumnIsZero (stB (fst exRun3)) 1.
Proof.
  split; [evaluate|]. split; [evaluate|].
  intros H.
  assert (H0 : 0 < Height (stB (fst exRun3))) by evaluate.
  specialize (H 0 H0).
  assert (E : Qeq_bool (Get (stB (fst exRun3)) 0 1) (ofZ 0) = false) by evaluate.
  rewrite H in E. discriminate E.
Qed.

(** Witness for C2: the transforms returned by the run on [exB]. *)
Lemma transforms_stay_inverse_witness :
  IsInversePair 2 (stU (fst exRun)) (stUInv (fst exRun)).
Proof.
  exact (proj1 (proj2 (proj2
           (transforms_stay_inverse (Sc := scalar) rational_F_ring rational_F_minus_one 2 ctrl0
              noAchieved noLogVolume exB (identity 2) (identity 2)
              eq_refl Square_identity2 Square_identity2 identity2_inverse)))
           20 (fst exRun) (snd exRun) exRun_returns).
Defined.

(** Witness for C3: the first iteration on [exB], in which the Lovasz
    test fails at [k = 1]. *)
Lemma AfterStep_lovasz_test_witness :
  cur_numSwaps (AfterStep true true ctrl0 exStart (fst exStep) (snd exStep))
  = cur_numSwaps exStart + 1.
Proof.
  pose proof (AfterStep_lovasz_test (Sc := scalar) true true ctrl0 exStart
                (fst exStep) (snd exStep)) as H.
  cbv zeta in H.
  assert (H1 : 1 <= cur_k exStart) by evaluate.
  assert (H2 : Dense (stB (snd exStep))) by (split; evaluate).
  assert (H3 : cur_k exStart < Width (stB (snd exStep))) by evaluate.
  assert (H4 : true = true ->
               Dense (stU (snd exStep)) /\ cur_k exStart < Width (stU (snd exStep)))
    by (intros _; repeat split; evaluate).
  assert (H5 : true = true ->
               Dense (stUInv (snd exStep)) /\
               cur_k exStart < Height (stUInv (snd exStep)))
    by (intros _; repeat split; evaluate).
  destruct (H H1 H2 H3 H4 H5) as [_ Hswap].
  assert (E : Rleb (Rmul (Sqrt (delta ctrl0))
                      (GetRealPart (stQR (snd exStep))
                         (cur_k exStart - 1) (cur_k exStart - 1)))
                   (SafeNorm
                      (GetRealPart (stQR (snd exStep)) (cur_k exStart) (cur_k exStart))
                      (Get (stQR (snd exStep)) (cur_k exStart - 1) (cur_k exStart)))
              = false) by evaluate.
  destruct (Hswap E) as [Hn _]. exact Hn.
Defined.

(** Witness for C4: the standard size-reduction of column 1 of [exB2],
    where [x[0] = Round(3) = 3]. *)
Lemma StandardReduce_applies_rounded_coefficients_witness :
  Round (rd (snd (Scan ctrl0 1 (LDim (stQR exExpanded2)) (Buffer (stQR exExpanded2)))) 0)
  = rd (snd (Scan ctrl0 1 (LDim (stQR exExpanded2)) (Buffer (stQR exExpanded2)))) 0.
Proof.
  pose proof (StandardReduce_applies_rounded_coefficients (Sc := scalar)
                1 true true ctrl0 rational_Round_idempotent rational_Round_zero exExpanded2) as H.
  cbv zeta in H.
  assert (H1 : Dense (stQR exExpanded2)) by (split; evaluate).
  assert (H2 : 1 < Width (stQR exExpanded2)) by evaluate.
  assert (H3 : 1 <= LDim (stQR exExpanded2)) by evaluate.
  assert (H4 : Dense (stB exExpanded2)) by (split; evaluate).
  assert (H5 : 1 < Width (stB exExpanded2)) by evaluate.
  assert (H6 : true = true ->
               Dense (stU exExpanded2) /\
               Width (stB exExpanded2) <= LDim (stU exExpanded2) /\
               1 < Width (stU exExpanded2))
    by (intros _; repeat split; evaluate).
  assert (H7 : true = true ->
               Dense (stUInv exExpanded2) /\
               1 < LDim (stUInv exExpanded2) /\
               Width (stB exExpanded2) <= Width (stUInv exExpanded2))
    by (intros _; repeat split; evaluate).
  destruct (H H1 H2 H3 H4 H5 H6 H7) as (_ & _ & Hround & _).
  apply Hround. lia.
Defined.

(** Witness for C5: [Step(1)] on [exB], whose column 1 is zero, returns
    [true]; on [exB2], whose column 1 is [(3,1)], it returns [false]
    after one pass and [HouseholderStep(1)]. *)
Lemma Step_returns_true_iff_zero_column_witness :
  Step 20 1 true true ctrl0 (work exStart) = Ok (true, snd exStep) /\
  ColumnIsZero (stB (snd exStep)) 1 /\
  Step 20 1 true true ctrl0 (work exStart2) = Ok (false, exStepped2).
Proof.
  destruct (Step_returns_true_iff_zero_column (Sc := scalar) 1 true true ctrl0
              20 (work exStart) (snd exStep)) as (Ht & _ & Hz).
  destruct (Step_returns_true_iff_zero_column (Sc := scalar) 1 true true ctrl0
              20 (work exStart2) exStepped2) as (_ & Hf & _).
  assert (H1 : Step 20 1 true true ctrl0 (work exStart) = Ok (true, snd exStep)).
  { apply Ht. exists 0, (work exStart).
    split; [lia|]. split; [reflexivity|]. cbv zeta.
    split; [apply NormGuard_None; evaluate|].
    split; evaluate. }
  split; [exact H1|]. split.
  - exact (proj1 (Hz StepReady_exStart H1)).
  - apply Hf. exists 0, (work exStart2).
    split; [lia|]. split; [reflexivity|]. cbv zeta.
    split; [apply NormGuard_None; evaluate|].
    split; [evaluate|].
    split; [apply NormGuard_None; evaluate|].
    repeat split; evaluate.
Defined.

(** Witness for C8: expanding column 1 of [exB2], on the [QR] that the
    first [HouseholderStep(0)] left, keeps [QR(0,0)]. *)
Lemma ExpandQR_changes_only_column_k_witness :
  Get (ExpandQR 1 exB2 (stQR (work exStart2)) (stT (work exStart2))
         (stD (work exStart2)) 1) 0 0
  = Get (stQR (work exStart2)) 0 0.
Proof.
  pose proof (ExpandQR_changes_only_column_k (Sc := scalar) 1 exB2
                (stQR (work exStart2)) (stT (work exStart2))
                (stD (work exStart2)) 1) as H.
  cbv zeta in H.
  assert (H1 : Dense (stQR (work exStart2))) by (split; evaluate).
  assert (H2 : 1 < Width (stQR (work exStart2))) by evaluate.
  assert (H3 : Height exB2 <= LDim (stQR (work exStart2))) by evaluate.
  assert (H4 : 1 <= Height exB2) by evaluate.
  assert (H5 : forall i, i < 1 ->
                 ofReal (RealPart (Get (stQR (work exStart2)) i i))
                 = Get (stQR (work exStart2)) i i)
    by (intros i _; reflexivity).
  destruct (H H1 H2 H3 H4 H5) as (_ & _ & _ & _ & Hframe & _).
  apply Hframe; [evaluate | discriminate].
Defined.

(** Witness for C10: [Step(1)] on [exB] with [reorthogTol = 0]. *)
Lemma Step_terminates_within_two_passes_witness :
  Step 2 1 true true ctrl0 (work exStart) <> OutOfFuel.
Proof.
  exact (proj1 (proj2 (proj2
           (Step_terminates_within_two_passes (Sc := scalar) 1 true true ctrl0
              eq_refl rational_zeroTol_nonneg rational_not_above_zero rational_Rleb_trans (work exStart))))).
Defined.

End Witnesses.

Module ComplexRuns.
Import GaussianScalar.

(** The precondition of [ExpandQR] matters: were a diagonal entry not
    real -- here [QR(0,0) = i], which no call of [HouseholderStep]
    leaves -- [ExpandQR(1)] would write its real part back. *)
Remark ExpandQR_drops_imaginary_diagonal :
  exists i j,
    j <> 1 /\ i < Height exQR /\ j < Width exQR /\
    Get (ExpandQR (Sc := scalar) 1 exB exQR exT exD 1) i j <> Get exQR i j.
Proof.
  exists 0, 0. split; [discriminate|]. split; [evaluate|]. split; [evaluate|].
  intros H.
  assert (E : Qeq_bool
                (snd (Get (ExpandQR (Sc := scalar) 1 exB exQR exT exD 1) 0 0))
                (RationalScalar.ofZ 0) = true) by evaluate.
  rewrite H in E. discriminate E.
Qed.

End ComplexRuns.

Module FloatingRuns.
Import FloatingScalar FloatingLaws.

(** Counterexample to C7 as stated.  On the finite basis [exBover] the
    first column overflows: [LeftReflector] leaves [QR(0,0) = -inf] and
    [t[0] = NaN], and nothing guards the norm of column 0.  [Step(1)]
    expands column 1 through that reflector, its guards (on the norms
    of [B(:,1)]) pass, it breaks after one pass and calls
    [HouseholderStep(1)] -- after which [QR(1,1)] is a NaN, not a
    non-negative number, with [d[1] = +1]. *)
Lemma HouseholderStep_leaves_NaN_diagonal :
  Initialize exBover noTransform noTransform ctrlF = exStartOver /\
  StepPass 1 false false ctrlF (work exStartOver) = StepBreak exBrokeOver /\
  Step 20 1 false false ctrlF (work exStartOver) = Ok (false, Reflect 1 exBrokeOver) /\
  let QR' :=
    fst (fst (HouseholderStep 1 (stQR exBrokeOver) (stT exBrokeOver)
                (stD exBrokeOver))) in
  let d' :=
    snd (HouseholderStep 1 (stQR exBrokeOver) (stT exBrokeOver)
           (stD exBrokeOver)) in
  Get QR' 1 1 = NaN /\ GetR d' 1 0 = Rint 1 /\
  ~ (Rleb (Rint 0) (GetRealPart QR' 1 1) = true).
Proof.
  split; [evaluate|]. split; [evaluate|]. split; [evaluate|].
  cbv zeta. split; [evaluate|]. split; [evaluate|].
  intros H.
  assert (E : Rleb (Rint 0)
                (GetRealPart
                   (fst (fst (HouseholderStep 1 (stQR exBrokeOver)
                                (stT exBrokeOver) (stD exBrokeOver)))) 1 1)
              = false) by evaluate.
  rewrite H in E. discriminate E.
Qed.

(** The run itself does not return: the Lovasz test fails on the NaN,
    the columns are exchanged, and the next [Step(1)] finds the norm of
    the overflowing column not finite. *)
Remark overflowing_run_raises :
  UnblockedAlg (fun _ _ => (NaN, NaN)) (fun _ => NaN) 20
    exBover noTransform noTransform false false ctrlF
  = Raised UnboundedNorm.
Proof. evaluate. Qed.

(** Witness for C7: in exact arithmetic, the reflector of the column
    [(3,4)], which [LeftReflector] leaves with the diagonal value [-5],
    negated to [5]; and the call of [HouseholderStep(1)] above, in
    which the NaN is kept with [d[1] = +1]. *)
Lemma HouseholderStep_diagonal_sign_witness :
  (GetR (Sc := RationalScalar.scalar)
     (snd (HouseholderStep (Sc := RationalScalar.scalar) 0 RationalScalar.exQR (Zeros 2 1) (ZerosR 2 1))) 0 0
   = Rint (-1) /\
   Rleb (Scalar := RationalScalar.scalar) (Rint 0)
     (GetRealPart
        (fst (fst (HouseholderStep (Sc := RationalScalar.scalar) 0 RationalScalar.exQR (Zeros 2 1) (ZerosR 2 1))))
        0 0) = true) /\
  (GetR (Sc := scalar)
     (snd (HouseholderStep 1 (stQR exBrokeOver) (stT exBrokeOver) (stD exBrokeOver)))
     1 0 = Rint 1 /\
   Rltb (Scalar := scalar)
     (GetRealPart
        (fst (fst (HouseholderStep 1 (stQR exBrokeOver) (stT exBrokeOver)
                     (stD exBrokeOver)))) 1 1)
     (Rint 0) = false).
Proof.
  split.
  - pose proof (HouseholderStep_diagonal_sign (Sc := RationalScalar.scalar)
                  RationalLaws.rational_negate_negative
                  RationalLaws.rational_nonneg_not_negative 0 RationalScalar.exQR
                  (Zeros 2 1) (ZerosR 2 1)) as H.
    cbv zeta in H.
    assert (H1 : Dense RationalScalar.exQR) by (split; evaluate).
    assert (H2 : 0 < Height RationalScalar.exQR) by evaluate.
    assert (H3 : 0 < Width RationalScalar.exQR) by evaluate.
    assert (H4 : 0 < length (Buffer (Zeros (Sc := RationalScalar.scalar) 2 1)))
      by evaluate.
    assert (H5 : 0 < length (Buffer (ZerosR (Sc := RationalScalar.scalar) 2 1)))
      by evaluate.
    destruct (H H1 H2 H3 H4 H5) as (_ & _ & Hneg & _ & _ & Hnn & _).
    assert (E : Rltb (Scalar := RationalScalar.scalar)
                  (RealPart
                     (snd (fst (LeftReflector
                                  (Get (Sc := RationalScalar.scalar)
                                     RationalScalar.exQR 0 0)
                                  (gather (Sc := RationalScalar.scalar)
                                     (Buffer RationalScalar.exQR)
                                     (1 + 0 * LDim RationalScalar.exQR) 1
                                     (Height RationalScalar.exQR - 1))))))
                  (Rint 0) = true) by evaluate.
    split; [exact (proj1 (Hneg E)) | exact (Hnn (or_introl E))].
  - pose proof (HouseholderStep_diagonal_sign (Sc := scalar)
                  floating_negate_negative floating_nonneg_not_negative 1
                  (stQR exBrokeOver) (stT exBrokeOver) (stD exBrokeOver)) as H.
    cbv zeta in H.
    assert (H1 : Dense (stQR exBrokeOver)) by (split; evaluate).
    assert (H2 : 1 < Height (stQR exBrokeOver)) by evaluate.
    assert (H3 : 1 < Width (stQR exBrokeOver)) by evaluate.
    assert (H4 : 1 < length (Buffer (stT exBrokeOver))) by evaluate.
    assert (H5 : 1 < length (Buffer (stD exBrokeOver))) by evaluate.
    destruct (H H1 H2 H3 H4 H5) as (_ & _ & _ & Hkeep & Hnot & _).
    assert (E : Rltb (Scalar := scalar)
                  (RealPart
                     (snd (fst (LeftReflector
                                  (Get (stQR exBrokeOver) 1 1)
                                  (gather (Buffer (stQR exBrokeOver))
                                     (2 + 1 * LDim (stQR exBrokeOver)) 1
                                     (Height (stQR exBrokeOver) - 2))))))
                  (Rint 0) = false) by evaluate.
    split; [exact (proj1 (Hkeep E)) | exact Hnot].
Defined.

End FloatingRuns.

(* ================================================================== *)
(** * Part III: further properties of the reducer                       *)
(* ================================================================== *)

(** ** What [Step] writes *)

Section StepWrites.
Context {Sc : Scalar}.
Variables (formU formUInv : bool) (ctrl : LLLCtrl Real).

(** Size-reduction only writes column [k] of [U]. *)
Lemma SizeReduce_U (k : nat) (s : LLLState) :
  Dense (stU s) -> Width (stB s) <= LDim (stU s) -> 1 <= k -> k < Width (stU s) ->
  SameExceptColumn k (stU s) (stU (SizeReduce k formU formUInv ctrl s)).
Proof.
  intros [D1 D2] Hn Hk1 Hk. unfold SizeReduce. destruct (weak ctrl).
  - unfold WeakReduce. destruct (Rltb _ _); [|apply SameExceptColumn_refl].
    destruct (OverEta _ _); [|apply SameExceptColumn_refl].
    simpl. destruct formU; [|apply SameExceptColumn_refl]. split.
    + apply shape_withBuffer, length_Axpy.
    + intros a j Ha Hj. unfold Get; simpl.
      rewrite (Axpy_columns (Buffer (stU s)) (LDim (stU s)) (Width (stU s)))
        by (auto; lia).
      apply Nat.eqb_neq in Hj. now rewrite Hj.
  - unfold StandardReduce. destruct (Scan _ _ _ _) as [Qf xf]. simpl.
    destruct formU; [|apply SameExceptColumn_refl]. split.
    + apply shape_withBuffer, length_Gemv.
    + intros a j Ha Hj. unfold Get; simpl.
      rewrite (Gemv_columns (Buffer (stU s)) (LDim (stU s)) (Width (stU s)))
        by (auto; lia).
      apply Nat.eqb_neq in Hj. now rewrite Hj.
Qed.

(** Size-reduction only writes rows [0..k-1] of [UInv]. *)
Lemma SizeReduce_UInv (k : nat) (s : LLLState) :
  Dense (stUInv s) -> k < LDim (stUInv s) ->
  Width (stB s) <= Width (stUInv s) -> 1 <= k ->
  forall a j, k <= a -> a < LDim (stUInv s) ->
    Get (stUInv (SizeReduce k formU formUInv ctrl s)) a j = Get (stUInv s) a j.
Proof.
  intros [D1 D2] Hk Hn Hk1 a j Hka Ha. unfold SizeReduce. destruct (weak ctrl).
  - unfold WeakReduce. destruct (Rltb _ _); [|reflexivity].
    destruct (OverEta _ _); [|reflexivity].
    simpl. destruct formUInv; [|reflexivity].
    unfold Get; simpl.
    rewrite (Axpy_rows (Buffer (stUInv s)) (LDim (stUInv s)) (Width (stUInv s)))
      by (auto; lia).
    replace (a =? k - 1) with false by (symmetry; apply Nat.eqb_neq; lia).
    reflexivity.
  - unfold StandardReduce. destruct (Scan _ _ _ _) as [Qf xf]. simpl.
    destruct formUInv; [|reflexivity].
    unfold Get; simpl.
    rewrite (Geru_rows (Buffer (stUInv s)) (LDim (stUInv s)) (Width (stUInv s)))
      by (auto; lia).
    replace (a <? k) with false by (symmetry; apply Nat.ltb_ge; lia).
    reflexivity.
Qed.

(** A transform that is not tracked is not written. *)
Lemma SizeReduce_untracked (k : nat) (s : LLLState) :
  (formU = false -> stU (SizeReduce k formU formUInv ctrl s) = stU s) /\
  (formUInv = false -> stUInv (SizeReduce k formU formUInv ctrl s) = stUInv s).
Proof.
  unfold SizeReduce. destruct (weak ctrl).
  - unfold WeakReduce. destruct (Rltb _ _); [|auto].
    destruct (OverEta _ _); [|auto].
    simpl. split; intros ->; reflexivity.
  - unfold StandardReduce. destruct (Scan _ _ _ _) as [Qf xf]. simpl.
    split; intros ->; reflexivity.
Qed.

(** What [Step] expects of a tracked [U] and of a tracked [UInv]. *)
Lemma SizeReduce_transforms (k : nat) (s : LLLState) :
  1 <= k ->
  (formU = true ->
     Dense (stU s) /\ Width (stB s) <= LDim (stU s) /\ k < Width (stU s)) ->
  (formUInv = true ->
     Dense (stUInv s) /\ k < LDim (stUInv s) /\
     Width (stB s) <= Width (stUInv s)) ->
  let s' := SizeReduce k formU formUInv ctrl s in
  SameExceptColumn k (stU s) (stU s') /\
  (forall a j, k <= a -> a < LDim (stUInv s) ->
     Get (stUInv s') a j = Get (stUInv s) a j).
Proof.
  intros Hk1 HU HV s'. subst s'.
  destruct (SizeReduce_untracked k s) as [NU NV]. split.
  - destruct formU eqn:EU.
    + destruct (HU eq_refl) as (D & Hn & Hk). rewrite <- EU.
      now apply SizeReduce_U.
    + rewrite NU by reflexivity. apply SameExceptColumn_refl.
  - intros a j Hka Ha. destruct formUInv eqn:EV.
    + destruct (HV eq_refl) as (D & Hk & Hn). rewrite <- EV.
      now apply SizeReduce_UInv.
    + now rewrite NV.
Qed.

Lemma StepPass_transforms (k : nat) (s : LLLState) :
  1 <= k ->
  (formU = true ->
     Dense (stU s) /\ Width (stB s) <= LDim (stU s) /\ k < Width (stU s)) ->
  (formUInv = true ->
     Dense (stUInv s) /\ k < LDim (stUInv s) /\
     Width (stB s) <= Width (stUInv s)) ->
  match StepPass k formU formUInv ctrl s with
  | StepRaise _ => True
  | StepZero s' | StepBreak s' | StepAgain s' =>
    SameExceptColumn k (stU s) (stU s') /\
    (forall a j, k <= a -> a < LDim (stUInv s) ->
       Get (stUInv s') a j = Get (stUInv s) a j) /\
    (formU = false -> stU s' = stU s) /\
    (formUInv = false -> stUInv s' = stUInv s)
  end.
Proof.
  intros Hk1 HU HV. unfold StepPass.
  destruct (NormGuard _); auto.
  destruct (Rleb _ _).
  - simpl. repeat split; auto.
  - destruct (NormGuard _); auto.
    destruct (SizeReduce_untracked k (Expanded k ctrl s)) as [NU NV].
    destruct (SizeReduce_transforms k (Expanded k ctrl s) Hk1 HU HV) as [H1 H2].
    destruct (Rltb _ _); repeat split; auto; apply H1.
Qed.

(** The writes of [Step(k)] to the basis and to the transforms: of [B]
    and of [U] only column [k] is written, of [UInv] only the rows
    before [k]; a transform that is not tracked is not written at
    all. *)
Lemma Step_transforms (k : nat) :
  1 <= k ->
  forall fuel s z s',
    (formU = true ->
       Dense (stU s) /\ Width (stB s) <= LDim (stU s) /\ k < Width (stU s)) ->
    (formUInv = true ->
       Dense (stUInv s) /\ k < LDim (stUInv s) /\
       Width (stB s) <= Width (stUInv s)) ->
    Step fuel k formU formUInv ctrl s = Ok (z, s') ->
    SameExceptColumn k (stU s) (stU s') /\
    (forall a j, k <= a -> a < LDim (stUInv s) ->
       Get (stUInv s') a j = Get (stUInv s) a j) /\
    (formU = false -> stU s' = stU s) /\
    (formUInv = false -> stUInv s' = stUInv s).
Proof.
  intros Hk1. induction fuel as [|f IH]; intros s z s' HU HV H; simpl in H;
    [discriminate|].
  pose proof (StepPass_transforms k s Hk1 HU HV) as Hp.
  pose proof (shapes_StepPass k formU formUInv ctrl s) as Hsh.
  destruct (StepPass _ _ _ _ _) as [e|s1|s1|s1]; try discriminate.
  - inversion H; subst. exact Hp.
  - inversion H; subst.
    destruct (Reflect_transforms k s1) as (_ & -> & ->). exact Hp.
  - destruct Hp as (P1 & P2 & P3 & P4).
    unfold shapes in Hsh.
    assert (EB : shape (stB s1) = shape (stB s)) by congruence.
    assert (EU : shape (stU s1) = shape (stU s)) by congruence.
    assert (EV : shape (stUInv s1) = shape (stUInv s)) by congruence.
    clear Hsh. unfold shape in EB, EU, EV.
    assert (Width (stB s1) = Width (stB s)) by congruence.
    assert (Width (stU s1) = Width (stU s)) by congruence.
    assert (LDim (stU s1) = LDim (stU s)) by congruence.
    assert (Width (stUInv s1) = Width (stUInv s)) by congruence.
    assert (LDim (stUInv s1) = LDim (stUInv s)) by congruence.
    destruct (IH s1 z s') as (Q1 & Q2 & Q3 & Q4); auto.
    + intros E. destruct (HU E) as (D & ? & ?).
      split; [eapply Dense_shape; [|exact D]; unfold shape; congruence|lia].
    + intros E. destruct (HV E) as (D & ? & ?).
      split; [eapply Dense_shape; [|exact D]; unfold shape; congruence|lia].
    + split; [eapply SameExceptColumn_trans; eauto|].
      split; [|split].
      * intros a j Hka Ha. rewrite Q2 by lia. now apply P2.
      * intros E. rewrite Q3, P3; auto.
      * intros E. rewrite Q4, P4; auto.
Qed.

End StepWrites.

Section StepFrame.
Context {Sc : Scalar}.
Variables (formU formUInv : bool) (ctrl : LLLCtrl Real).

(** A transform that is not tracked is not written by [Step]. *)
Lemma Step_untracked (k : nat) :
  forall fuel s z s',
    Step fuel k formU formUInv ctrl s = Ok (z, s') ->
    (formU = false -> stU s' = stU s) /\
    (formUInv = false -> stUInv s' = stUInv s).
Proof.
  induction fuel as [|f IH]; intros s z s' H; simpl in H; [discriminate|].
  assert (Hp : match StepPass k formU formUInv ctrl s with
               | StepRaise _ => True
               | StepZero s1 | StepBreak s1 | StepAgain s1 =>
                 (formU = false -> stU s1 = stU s) /\
                 (formUInv = false -> stUInv s1 = stUInv s)
               end).
  { unfold StepPass. destruct (NormGuard _); auto.
    destruct (Rleb _ _); [simpl; auto|].
    destruct (NormGuard _); auto.
    destruct (Rltb _ _);
      apply (SizeReduce_untracked formU formUInv ctrl k (Expanded k ctrl s)). }
  destruct (StepPass _ _ _ _ _) as [e|s1|s1|s1]; try discriminate.
  - inversion H; subst. exact Hp.
  - inversion H; subst.
    destruct (Reflect_transforms k s1) as (_ & -> & ->). exact Hp.
  - destruct Hp as [P1 P2]. destruct (IH s1 z s' H) as [Q1 Q2].
    split; intros E; [rewrite Q1, P1 | rewrite Q2, P2]; auto.
Qed.

(** X1. [Step(k)] confines its writes to the basis and the transforms:
    of [B] and of [U] it writes column [k] only, of [UInv] only rows
    before [k] -- every other entry is what it was on entry, whatever
    [Step] returns. *)
Theorem Step_writes_only_column_k (k fuel : nat) (s s' : LLLState) (z : bool) :
  1 <= k -> Dense (stB s) -> k < Width (stB s) ->
  (formU = true ->
     Dense (stU s) /\ Width (stB s) <= LDim (stU s) /\ k < Width (stU s)) ->
  (formUInv = true ->
     Dense (stUInv s) /\ k < LDim (stUInv s) /\
     Width (stB s) <= Width (stUInv s)) ->
  Step fuel k formU formUInv ctrl s = Ok (z, s') ->
  (forall i j, i < Height (stB s) -> j <> k ->
     Get (stB s') i j = Get (stB s) i j) /\
  (forall i j, i < Height (stU s) -> j <> k ->
     Get (stU s') i j = Get (stU s) i j) /\
  (forall i j, k <= i -> i < Height (stUInv s) ->
     Get (stUInv s') i j = Get (stUInv s) i j).
Proof.
  intros Hk1 HD Hk HU HV H.
  destruct (Step_B formU formUInv ctrl k Hk1 fuel s z s' HD Hk H) as [[_ HB] _].
  destruct (Step_transforms formU formUInv ctrl k Hk1 fuel s z s' HU HV H)
    as ([_ HU'] & HV' & NU & NV).
  split; [|split].
  - intros i j Hi Hj. apply HB; auto. destruct HD. lia.
  - intros i j Hi Hj. destruct formU.
    + destruct (HU eq_refl) as ([D _] & _). apply HU'; auto. lia.
    + now rewrite NU.
  - intros i j Hki Hi. destruct formUInv.
    + destruct (HV eq_refl) as ([D _] & _). apply HV'; auto. lia.
    + now rewrite NV.
Qed.

End StepFrame.

(** ** What the drivers keep *)

Section DriverLoops.
Context {Sc : Scalar}.

(** A driver loop raises exactly when, in some iteration it reaches,
    its body raises. *)
Lemma DriverLoop_raises (body : Driver -> result Driver) (n : nat) (e : RuntimeError) :
  forall fuel dr,
    DriverLoop body fuel n dr = Raised e <->
    exists j d, j < fuel /\ Iterations body j n dr = Some d /\
                cur_k d < n /\ body d = Raised e.
Proof.
  induction fuel as [|f IH]; intros dr; simpl.
  - split.
    + destruct (cur_k dr <? n); discriminate.
    + intros (j & d & Hj & _). lia.
  - destruct (Nat.ltb_spec (cur_k dr) n) as [Hlt|Hge].
    + destruct (body dr) as [dr1|e1|] eqn:E; simpl.
      * rewrite IH. split.
        -- intros (j & d & Hj & Hit & Hk & Hb).
           exists (S j), d. repeat split; auto; [lia|].
           simpl. apply Nat.ltb_lt in Hlt. now rewrite Hlt, E.
        -- intros (j & d & Hj & Hit & Hk & Hb). destruct j as [|j].
           ++ simpl in Hit. inversion Hit; subst. congruence.
           ++ simpl in Hit. apply Nat.ltb_lt in Hlt. rewrite Hlt, E in Hit.
              exists j, d. repeat split; auto. lia.
      * split.
        -- intros H. inversion H; subst. exists 0, dr.
           repeat split; auto. lia.
        -- intros (j & d & Hj & Hit & Hk & Hb). destruct j as [|j].
           ++ simpl in Hit. inversion Hit; subst. congruence.
           ++ simpl in Hit. apply Nat.ltb_lt in Hlt. rewrite Hlt, E in Hit.
              discriminate.
      * split; [discriminate|].
        intros (j & d & Hj & Hit & Hk & Hb). destruct j as [|j].
        -- simpl in Hit. inversion Hit; subst. congruence.
        -- simpl in Hit. apply Nat.ltb_lt in Hlt. rewrite Hlt, E in Hit.
           discriminate.
    + split; [discriminate|].
      intros (j & d & Hj & Hit & Hk & Hb). destruct j as [|j].
      * simpl in Hit. inversion Hit; subst. lia.
      * simpl in Hit. apply Nat.ltb_ge in Hge. rewrite Hge in Hit. discriminate.
Qed.

End DriverLoops.

Section DriverKeeps.
Context {Sc : Scalar}.
Variables (formU formUInv : bool) (ctrl : LLLCtrl Real).
Variable Achieved : Matrix F -> LLLCtrl Real -> Real * Real.
Variable LogVolume : Matrix F -> Real.

Lemma FirstColumn_nullity (s : LLLState) : snd (FirstColumn ctrl s) <= 1.
Proof. unfold FirstColumn. destruct (Rleb _ _); simpl; lia. Qed.

(** *** Untracked transforms *)

Lemma AfterStep_untracked (dr : Driver) (z : bool) (s : LLLState) :
  (formU = false -> stU (work (AfterStep formU formUInv ctrl dr z s)) = stU s) /\
  (formUInv = false ->
   stUInv (work (AfterStep formU formUInv ctrl dr z s)) = stUInv s).
Proof.
  unfold AfterStep. destruct (LovaszHolds _ _ _); simpl; [auto|].
  destruct (cur_k dr =? 1).
  - destruct (shapes_FirstColumn ctrl (SwapColumns (cur_k dr) formU formUInv s))
      as (_ & EU & EV).
    destruct (FirstColumn _ _) as [s1 nl]. simpl in *.
    rewrite EU, EV. split; intros ->; reflexivity.
  - simpl. split; intros ->; reflexivity.
Qed.

Lemma DeepAfterStep_untracked
    (downdate : Matrix F -> nat -> nat -> Real -> Real -> Real * Real)
    (dr : Driver) (z : bool) (s : LLLState) :
  (formU = false ->
   stU (work (DeepAfterStep downdate formU formUInv ctrl dr z s)) = stU s) /\
  (formUInv = false ->
   stUInv (work (DeepAfterStep downdate formU formUInv ctrl dr z s)) = stUInv s).
Proof.
  unfold DeepAfterStep. destruct (DeepScan _ _ _ _ _ _ _ _) as [i|]; simpl; [|auto].
  destruct (i =? 0).
  - destruct (shapes_FirstColumn ctrl (InsertColumn i (cur_k dr) formU formUInv s))
      as (_ & EU & EV).
    destruct (FirstColumn _ _) as [s1 nl]. simpl in *.
    rewrite EU, EV. split; intros ->; reflexivity.
  - simpl. split; intros ->; reflexivity.
Qed.

Lemma Initialize_transforms (B U UInv : Matrix F) :
  stU (work (Initialize B U UInv ctrl)) = U /\
  stUInv (work (Initialize B U UInv ctrl)) = UInv.
Proof.
  unfold Initialize.
  destruct (shapes_FirstColumn ctrl
              (mkState B U UInv (Zeros (Height B) (Width B))
                 (Zeros (Nat.min (Height B) (Width B)) 1)
                 (ZerosR (Nat.min (Height B) (Width B)) 1))) as (_ & EU & EV).
  destruct (FirstColumn _ _) as [s1 nl]. simpl in *. auto.
Qed.

(** X2. A transform that is not tracked is never written: when
    [formU] is false the flat driver and the deep driver return [U] as
    it was passed in, and likewise [UInv] when [formUInv] is false. *)
Theorem drivers_never_write_untracked_transforms
    (fuel : nat) (B U UInv : Matrix F) :
  (forall s info,
     UnblockedAlg Achieved LogVolume fuel B U UInv formU formUInv ctrl
     = Ok (s, info) ->
     (formU = false -> stU s = U) /\ (formUInv = false -> stUInv s = UInv)) /\
  (forall s info,
     UnblockedDeepAlg Achieved LogVolume fuel B U UInv formU formUInv ctrl
     = Ok (s, info) ->
     (formU = false -> stU s = U) /\ (formUInv = false -> stUInv s = UInv)).
Proof.
  destruct (Initialize_transforms B U UInv) as [IU IV].
  set (P := fun dr : Driver =>
              (formU = false -> stU (work dr) = U) /\
              (formUInv = false -> stUInv (work dr) = UInv)).
  assert (HP0 : P (Initialize B U UInv ctrl)) by (split; auto).
  split; intros s info H.
  - unfold UnblockedAlg in H.
    destruct (DriverLoop _ _ _ _) as [dr| |] eqn:E; simpl in H; try discriminate.
    apply (DriverLoop_inv P) in E; auto.
    + destruct E as [[HU HV] _]. inversion H; subst. split; assumption.
    + intros d d' [HU HV] _ Hb. unfold UnblockedIter in Hb.
      destruct (Step _ _ _ _ _ _) as [[z s1]| |] eqn:ES; simpl in Hb;
        try discriminate.
      inversion Hb; subst.
      destruct (Step_untracked formU formUInv ctrl _ _ _ _ _ ES) as [SU SV].
      destruct (AfterStep_untracked d z s1) as [AU AV].
      split; intros E0; [rewrite AU, SU | rewrite AV, SV]; auto.
  - unfold UnblockedDeepAlg, DeepAlgWith in H.
    destruct (DriverLoop _ _ _ _) as [dr| |] eqn:E; simpl in H; try discriminate.
    apply (DriverLoop_inv P) in E; auto.
    + destruct E as [[HU HV] _]. inversion H; subst. split; assumption.
    + intros d d' [HU HV] _ Hb. unfold DeepIter in Hb.
      destruct (Step _ _ _ _ _ _) as [[z s1]| |] eqn:ES; simpl in Hb;
        try discriminate.
      inversion Hb; subst.
      destruct (Step_untracked formU formUInv ctrl _ _ _ _ _ ES) as [SU SV].
      destruct (DeepAfterStep_untracked Downdate d z s1) as [AU AV].
      split; intros E0; [rewrite AU, SU | rewrite AV, SV]; auto.
Qed.

(** *** Rank and nullity *)

Lemma AfterStep_nullity (n : nat) (dr : Driver) (z : bool) (s : LLLState) :
  1 <= n -> cur_k dr < n -> cur_nullity dr <= n ->
  cur_nullity (AfterStep formU formUInv ctrl dr z s) <= n.
Proof.
  intros Hn Hk Hnl. unfold AfterStep.
  assert (Hnew : (if z then cur_k dr + 1 else Nat.min (cur_nullity dr) (cur_k dr)) <= n)
    by (destruct z; lia).
  destruct (LovaszHolds _ _ _); simpl; [assumption|].
  destruct (cur_k dr =? 1); simpl; [|assumption].
  pose proof (FirstColumn_nullity (SwapColumns (cur_k dr) formU formUInv s)).
  destruct (FirstColumn _ _) as [s1 nl]. simpl in *. lia.
Qed.

Lemma DeepAfterStep_nullity
    (downdate : Matrix F -> nat -> nat -> Real -> Real -> Real * Real)
    (n : nat) (dr : Driver) (z : bool) (s : LLLState) :
  1 <= n -> cur_k dr < n -> cur_nullity dr <= n ->
  cur_nullity (DeepAfterStep downdate formU formUInv ctrl dr z s) <= n.
Proof.
  intros Hn Hk Hnl. unfold DeepAfterStep.
  assert (Hnew : (if z then cur_k dr + 1 else Nat.min (cur_nullity dr) (cur_k dr)) <= n)
    by (destruct z; lia).
  destruct (DeepScan _ _ _ _ _ _ _ _) as [i|]; simpl; [|assumption].
  destruct (i =? 0); simpl; [|assumption].
  pose proof (FirstColumn_nullity (InsertColumn i (cur_k dr) formU formUInv s)).
  destruct (FirstColumn _ _) as [s1 nl]. simpl in *. lia.
Qed.

Lemma Initialize_nullity (B U UInv : Matrix F) :
  cur_nullity (Initialize B U UInv ctrl) <= 1.
Proof.
  unfold Initialize.
  pose proof (FirstColumn_nullity
                (mkState B U UInv (Zeros (Height B) (Width B))
                   (Zeros (Nat.min (Height B) (Width B)) 1)
                   (ZerosR (Nat.min (Height B) (Width B)) 1))).
  destruct (FirstColumn _ _) as [s1 nl]. simpl in *. assumption.
Qed.

(** X3. On a basis with at least one column, whatever either driver
    returns, the reported nullity is at most the number [n] of columns
    and [rank + nullity = n]: the subtraction [n - nullity] of the
    report never goes below zero. *)
Theorem drivers_report_rank_plus_nullity
    (fuel : nat) (B U UInv : Matrix F) :
  1 <= Width B ->
  (forall s info,
     UnblockedAlg Achieved LogVolume fuel B U UInv formU formUInv ctrl
     = Ok (s, info) ->
     nullity info <= Width B /\ rank info + nullity info = Width B) /\
  (forall s info,
     UnblockedDeepAlg Achieved LogVolume fuel B U UInv formU formUInv ctrl
     = Ok (s, info) ->
     nullity info <= Width B /\ rank info + nullity info = Width B).
Proof.
  intros Hn.
  set (P := fun dr : Driver => cur_nullity dr <= Width B).
  assert (HP0 : P (Initialize B U UInv ctrl)).
  { unfold P. pose proof (Initialize_nullity B U UInv). lia. }
  split; intros s info H.
  - unfold UnblockedAlg in H.
    destruct (DriverLoop _ _ _ _) as [dr| |] eqn:E; simpl in H; try discriminate.
    apply (DriverLoop_inv P) in E; auto.
    + destruct E as [HP _]. unfold P in HP. inversion H; subst. simpl. lia.
    + intros d d' HP Hk Hb. unfold UnblockedIter in Hb.
      destruct (Step _ _ _ _ _ _) as [[z s1]| |]; simpl in Hb; try discriminate.
      inversion Hb; subst. now apply AfterStep_nullity.
  - unfold UnblockedDeepAlg, DeepAlgWith in H.
    destruct (DriverLoop _ _ _ _) as [dr| |] eqn:E; simpl in H; try discriminate.
    apply (DriverLoop_inv P) in E; auto.
    + destruct E as [HP _]. unfold P in HP. inversion H; subst. simpl. lia.
    + intros d d' HP Hk Hb. unfold DeepIter in Hb.
      destruct (Step _ _ _ _ _ _) as [[z s1]| |]; simpl in Hb; try discriminate.
      inversion Hb; subst. now apply DeepAfterStep_nullity.
Qed.

(** *** Errors *)

(** X4. The drivers neither raise an error of their own nor swallow
    one: a driver raises [e] exactly when the loop reaches an iteration
    in which [Step] raises [e]. *)
Theorem drivers_raise_iff_Step_raises
    (fuel : nat) (B U UInv : Matrix F) (e : RuntimeError) :
  (UnblockedAlg Achieved LogVolume fuel B U UInv formU formUInv ctrl = Raised e
   <->
   exists j dr,
     j < fuel /\
     Iterations (UnblockedIter fuel formU formUInv ctrl) j (Width B)
       (Initialize B U UInv ctrl) = Some dr /\
     cur_k dr < Width B /\
     Step fuel (cur_k dr) formU formUInv ctrl (work dr) = Raised e) /\
  (UnblockedDeepAlg Achieved LogVolume fuel B U UInv formU formUInv ctrl
   = Raised e
   <->
   exists j dr,
     j < fuel /\
     Iterations (DeepIter Downdate fuel formU formUInv ctrl) j (Width B)
       (Initialize B U UInv ctrl) = Some dr /\
     cur_k dr < Width B /\
     Step fuel (cur_k dr) formU formUInv ctrl (work dr) = Raised e).
Proof.
  assert (Hbind : forall (A C : Type) (r : result A) (f : A -> C),
             bind r (fun a => Ok (f a)) = Raised e <-> r = Raised e).
  { intros A C r f. destruct r; simpl; split; congruence. }
  split.
  - unfold UnblockedAlg. rewrite Hbind, DriverLoop_raises.
    split; intros (j & d & Hj & Hit & Hk & Hb); exists j, d;
      repeat split; auto; unfold UnblockedIter in *;
      first [exact (proj1 (Hbind _ _ _ _) Hb) | exact (proj2 (Hbind _ _ _ _) Hb)].
  - unfold UnblockedDeepAlg, DeepAlgWith. rewrite Hbind, DriverLoop_raises.
    split; intros (j & d & Hj & Hit & Hk & Hb); exists j, d;
      repeat split; auto; unfold DeepIter in *;
      first [exact (proj1 (Hbind _ _ _ _) Hb) | exact (proj2 (Hbind _ _ _ _) Hb)].
Qed.

(** *** A basis of one column *)

(** X5. On a basis of a single column both drivers return without a
    call of [Step] and without a swap, whatever the control: the
    transforms come back untouched, and the column is either declared
    a zero vector (cleared, nullity one, rank zero) or left as it is
    (nullity zero, rank one) by the test of its norm against
    [zeroTol]. *)
Theorem drivers_on_a_single_column (fuel : nat) (B U UInv : Matrix F) :
  Dense B -> Width B = 1 ->
  exists s info,
    UnblockedAlg Achieved LogVolume fuel B U UInv formU formUInv ctrl
    = Ok (s, info) /\
    UnblockedDeepAlg Achieved LogVolume fuel B U UInv formU formUInv ctrl
    = Ok (s, info) /\
    numSwaps info = 0 /\ stU s = U /\ stUInv s = UInv /\
    if Rleb (FrobeniusNorm (column B 0)) (zeroTol ctrl)
    then nullity info = 1 /\ rank info = 0 /\ ColumnIsZero (stB s) 0
    else nullity info = 0 /\ rank info = 1 /\ stB s = B.
Proof.
  intros [D1 D2] HW.
  unfold UnblockedDeepAlg, DeepAlgWith, UnblockedAlg. rewrite HW.
  assert (Hk : cur_k (Initialize B U UInv ctrl) = 1).
  { unfold Initialize. destruct (FirstColumn _ _). reflexivity. }
  assert (Hloop : forall body,
             DriverLoop body fuel 1 (Initialize B U UInv ctrl)
             = Ok (Initialize B U UInv ctrl)).
  { intros body. destruct fuel; simpl; now rewrite Hk. }
  rewrite !Hloop. simpl bind.
  eexists _, _. split; [reflexivity|]. split; [reflexivity|].
  unfold Finish. simpl.
  unfold Initialize, FirstColumn.
  set (s0 := Reflect 0 (Expanded 0 ctrl _)).
  assert (EB : stB s0 = B).
  { subst s0. now destruct (Reflect_transforms 0
      (Expanded 0 ctrl
         (mkState B U UInv (Zeros (Height B) (Width B))
            (Zeros (Nat.min (Height B) (Width B)) 1)
            (ZerosR (Nat.min (Height B) (Width B)) 1)))) as (-> & _). }
  assert (EU : stU s0 = U).
  { subst s0. now destruct (Reflect_transforms 0
      (Expanded 0 ctrl
         (mkState B U UInv (Zeros (Height B) (Width B))
            (Zeros (Nat.min (Height B) (Width B)) 1)
            (ZerosR (Nat.min (Height B) (Width B)) 1)))) as (_ & -> & _). }
  assert (EV : stUInv s0 = UInv).
  { subst s0. now destruct (Reflect_transforms 0
      (Expanded 0 ctrl
         (mkState B U UInv (Zeros (Height B) (Width B))
            (Zeros (Nat.min (Height B) (Width B)) 1)
            (ZerosR (Nat.min (Height B) (Width B)) 1)))) as (_ & _ & ->). }
  rewrite EB. destruct (Rleb _ _); simpl.
  - repeat split; auto.
    intros i Hi. unfold ZeroCol, Get in *. simpl in *.
    destruct (zero_loop (Buffer B) (LDim B) (Width B) (Height B) 0)
      as (_ & Hz & _); auto; lia.
  - repeat split; auto.
Qed.

End DriverKeeps.

(** ** Deep insertion *)

Section DeepInsertion.
Context {Sc : Scalar}.

(** X6. [DeepColSwap( B, i, k )] with [i <= k] rotates the columns
    [i..k] of [B]: the old column [k] becomes column [i], each of the
    old columns [i..k-1] moves one place to the right, and every other
    column stays; the dimensions are kept.  With [i = k] nothing
    moves. *)
Theorem DeepColSwap_rotates_columns (M : Matrix F) (i k : nat) :
  Dense M -> i <= k -> k < Width M ->
  shape (DeepColSwap M i k) = shape M /\
  forall r, r < Height M ->
    Get (DeepColSwap M i k) r i = Get M r k /\
    (forall c, i < c -> c <= k ->
       Get (DeepColSwap M i k) r c = Get M r (c - 1)) /\
    (forall c, c < i \/ k < c -> Get (DeepColSwap M i k) r c = Get M r c).
Proof.
  intros HD Hik Hk. split; [apply shape_DeepColSwap|].
  intros r Hr.
  assert (Hld : r < LDim M) by (destruct HD; lia).
  assert (Hlt : (r <? Height M) = true) by now apply Nat.ltb_lt.
  split; [|split].
  - rewrite DeepColSwap_spec, Hlt by assumption.
    unfold shiftIndex. now rewrite Nat.eqb_refl.
  - intros c H1 H2. rewrite DeepColSwap_spec, Hlt by assumption.
    unfold shiftIndex.
    replace (c =? i) with false by (symmetry; apply Nat.eqb_neq; lia).
    replace (i <? c) with true by (symmetry; apply Nat.ltb_lt; lia).
    replace (c <=? k) with true by (symmetry; apply Nat.leb_le; lia).
    reflexivity.
  - intros c Hc. rewrite DeepColSwap_spec, Hlt by assumption.
    unfold shiftIndex.
    replace (c =? i) with false by (symmetry; apply Nat.eqb_neq; lia).
    destruct Hc as [Hc|Hc].
    + replace (i <? c) with false by (symmetry; apply Nat.ltb_ge; lia).
      reflexivity.
    + replace (c <=? k) with false by (symmetry; apply Nat.leb_gt; lia).
      now rewrite andb_false_r.
Qed.

(** X7. [DeepRowSwap( B, i, k )] with [i <= k] rotates the rows [i..k]
    of [B] in the same way: the old row [k] becomes row [i], the old
    rows [i..k-1] move one place down, every other row stays. *)
Theorem DeepRowSwap_rotates_rows (M : Matrix F) (i k : nat) :
  Dense M -> i <= k -> k < Height M ->
  shape (DeepRowSwap M i k) = shape M /\
  forall c, c < Width M ->
    Get (DeepRowSwap M i k) i c = Get M k c /\
    (forall r, i < r -> r <= k ->
       Get (DeepRowSwap M i k) r c = Get M (r - 1) c) /\
    (forall r, r < i \/ k < r -> r < Height M ->
       Get (DeepRowSwap M i k) r c = Get M r c).
Proof.
  intros HD Hik Hk. split; [apply shape_DeepRowSwap|].
  intros c Hc.
  assert (Hlt : (c <? Width M) = true) by now apply Nat.ltb_lt.
  assert (Hld : Height M <= LDim M) by (destruct HD; lia).
  split; [|split].
  - rewrite DeepRowSwap_spec, Hlt by (auto; lia).
    unfold shiftIndex. now rewrite Nat.eqb_refl.
  - intros r H1 H2. rewrite DeepRowSwap_spec, Hlt by (auto; lia).
    unfold shiftIndex.
    replace (r =? i) with false by (symmetry; apply Nat.eqb_neq; lia).
    replace (i <? r) with true by (symmetry; apply Nat.ltb_lt; lia).
    replace (r <=? k) with true by (symmetry; apply Nat.leb_le; lia).
    reflexivity.
  - intros r Hr Hrm. rewrite DeepRowSwap_spec, Hlt by (auto; lia).
    unfold shiftIndex.
    replace (r =? i) with false by (symmetry; apply Nat.eqb_neq; lia).
    destruct Hr as [Hr|Hr].
    + replace (i <? r) with false by (symmetry; apply Nat.ltb_ge; lia).
      reflexivity.
    + replace (r <=? k) with false by (symmetry; apply Nat.leb_gt; lia).
      now rewrite andb_false_r.
Qed.

Variables (formU formUInv : bool) (ctrl : LLLCtrl Real).

(** The scan of the deep driver stops at the first index that passes
    [DeepTest]: the partial norm it holds at index [i] is the norm of
    [R(i..k,k)]. *)
Lemma DeepScan_first (QR : Matrix F) (k : nat) :
  forall cnt i0 o,
    i0 + cnt = k ->
    match DeepScan Downdate ctrl QR k cnt i0 o (TailNorm QR i0 k (k + 1 - i0)) with
    | Some i =>
      i0 <= i /\ i < k /\ DeepTest ctrl QR k i = true /\
      forall i', i0 <= i' -> i' < i -> DeepTest ctrl QR k i' = false
    | None => forall i', i0 <= i' -> i' < k -> DeepTest ctrl QR k i' = false
    end.
Proof.
  induction cnt as [|cnt IH]; intros i0 o Hk; simpl.
  - intros i' H1 H2. lia.
  - fold (DeepTest ctrl QR k i0).
    destruct (DeepTest ctrl QR k i0) eqn:E.
    + repeat split; auto; lia.
    + rewrite Downdate_recomputes. unfold DowndateRecompute.
      replace (i0 + 1) with (S i0) by lia.
      replace (k - i0) with (k + 1 - S i0) by lia.
      specialize (IH (S i0) (TailNorm QR (S i0) k (k + 1 - S i0))).
      destruct (DeepScan _ _ _ _ _ _ _ _) as [i|].
      * destruct IH as (H1 & H2 & H3 & H4); [lia|].
        repeat split; auto; try lia.
        intros i' G1 G2. destruct (Nat.eq_dec i' i0) as [->|]; auto.
        apply H4; lia.
      * intros i' G1 G2. destruct (Nat.eq_dec i' i0) as [->|]; auto.
        apply IH; lia.
Qed.

(** X8. After [Step(k)] the deep driver looks for the first index
    [i < k] with [Sqrt(delta) * Re R(i,i) > || R(i..k,k) ||_2].  If
    there is none it moves on to [k+1] and swaps nothing.  Otherwise
    [numSwaps] grows by one, column [k] is inserted at position [i] (in
    [B], in [U] and -- as a row -- in [UInv] when tracked), and [k]
    becomes [i]; for [i = 0] it becomes [1] instead and column [0] is
    re-expanded, re-reflected and tested against [zeroTol], which
    resets the nullity. *)
Theorem DeepAfterStep_inserts_at_first_index
    (dr : Driver) (zeroVector : bool) (s : LLLState) :
  let k := cur_k dr in
  let nullity := if zeroVector then k + 1 else Nat.min (cur_nullity dr) k in
  let dr' := DeepAfterStep Downdate formU formUInv ctrl dr zeroVector s in
  ((forall i, i < k -> DeepTest ctrl (stQR s) k i = false) ->
     dr' = mkDriver s (k + 1) nullity (cur_numSwaps dr)) /\
  (forall i, i < k -> DeepTest ctrl (stQR s) k i = true ->
     (forall i', i' < i -> DeepTest ctrl (stQR s) k i' = false) ->
     let sw := InsertColumn i k formU formUInv s in
     cur_numSwaps dr' = cur_numSwaps dr + 1 /\
     (i <> 0 -> dr' = mkDriver sw i nullity (cur_numSwaps dr + 1)) /\
     (i = 0 ->
        cur_k dr' = 1 /\ (work dr', cur_nullity dr') = FirstColumn ctrl sw)).
Proof.
  intros k nullity dr'. subst dr'. unfold DeepAfterStep. fold k. fold nullity.
  pose proof (DeepScan_first (stQR s) k k 0
                (TailNorm (stQR s) 0 k (k + 1)) eq_refl) as Hscan.
  rewrite Nat.sub_0_r in Hscan.
  destruct (DeepScan _ _ _ _ _ _ _ _) as [i1|].
  - destruct Hscan as (_ & H2 & H3 & H4). split.
    + intros Hnone. rewrite Hnone in H3 by assumption. discriminate.
    + intros i Hi Ht Hfirst.
      assert (i = i1).
      { destruct (Nat.lt_trichotomy i i1) as [L|[L|L]]; auto.
        - rewrite H4 in Ht by lia. discriminate.
        - rewrite Hfirst in H3 by assumption. discriminate. }
      subst i1.
      destruct (Nat.eqb_spec i 0) as [E|E].
      * destruct (FirstColumn _ _) as [s1 nl]. simpl.
        repeat split; auto; lia.
      * simpl. repeat split; auto; lia.
  - split; [reflexivity|].
    intros i Hi Ht _. rewrite Hscan in Ht by lia. discriminate.
Qed.

End DeepInsertion.

(** ** Weak size-reduction *)

Section WeakMode.
Context {Sc : Scalar}.
Variables (k : nat) (formU formUInv : bool) (ctrl : LLLCtrl Real).

(** X9. In weak mode ([ctrl.weak] set) the size-reduction of [Step(k)]
    looks at column [k-1] only.  With [rho = Re QR(k-1,k-1)] and
    [chi = QR(k-1,k) / rho]: when [rho > zeroTol] and [|Re chi| > eta]
    or [|Im chi| > eta], it subtracts [Round(chi)] times column [k-1]
    from column [k] -- in the first [k] rows of [QR], in all of [B],
    and in [U] when tracked -- and adds [Round(chi)] times row [k] of
    [UInv] to row [k-1] when tracked; nothing else is written.
    Otherwise it writes nothing at all. *)
Theorem WeakReduce_subtracts_rounded_multiple (s : LLLState) :
  1 <= k ->
  Dense (stQR s) -> k < Width (stQR s) -> k <= LDim (stQR s) ->
  Dense (stB s) -> k < Width (stB s) ->
  (formU = true ->
     Dense (stU s) /\ Width (stB s) <= LDim (stU s) /\ k < Width (stU s)) ->
  (formUInv = true ->
     Dense (stUInv s) /\ k < LDim (stUInv s) /\
     Width (stB s) <= Width (stUInv s)) ->
  weak ctrl = true ->
  let rho := GetRealPart (stQR s) (k - 1) (k - 1) in
  let chi := Fdiv (Get (stQR s) (k - 1) k) (ofReal rho) in
  let c := Round chi in
  let s' := SizeReduce k formU formUInv ctrl s in
  if Rltb (zeroTol ctrl) rho && OverEta ctrl chi
  then
    (forall a j, a < LDim (stQR s) ->
       Get (stQR s') a j
       = if (j =? k) && (a <? k)
         then Fadd (Get (stQR s) a k) (Fmul (Fopp c) (Get (stQR s) a (k - 1)))
         else Get (stQR s) a j) /\
    (forall a j, a < LDim (stB s) ->
       Get (stB s') a j
       = if (j =? k) && (a <? Height (stB s))
         then Fadd (Get (stB s) a k) (Fmul (Fopp c) (Get (stB s) a (k - 1)))
         else Get (stB s) a j) /\
    (if formU
     then forall a j, a < LDim (stU s) ->
            Get (stU s') a j
            = if (j =? k) && (a <? Width (stB s))
              then Fadd (Get (stU s) a k) (Fmul (Fopp c) (Get (stU s) a (k - 1)))
              else Get (stU s) a j
     else stU s' = stU s) /\
    (if formUInv
     then forall a j, a < LDim (stUInv s) ->
            Get (stUInv s') a j
            = if (a =? k - 1) && (j <? Width (stB s))
              then Fadd (Get (stUInv s) (k - 1) j) (Fmul c (Get (stUInv s) k j))
              else Get (stUInv s) a j
     else stUInv s' = stUInv s) /\
    stT s' = stT s /\ stD s' = stD s
  else s' = s.
Proof.
  intros Hk1 [Q1 Q2] HkQ HkL [B1 B2] HkB HU HV Hweak rho chi c s'.
  subst s'. unfold SizeReduce. rewrite Hweak. unfold WeakReduce.
  fold (Get (stQR s) (k - 1) (k - 1)). fold (Get (stQR s) (k - 1) k).
  fold (GetRealPart (stQR s) (k - 1) (k - 1)). fold rho. fold chi.
  destruct (Rltb (zeroTol ctrl) rho); simpl; [|reflexivity].
  destruct (OverEta ctrl chi); simpl; [|reflexivity].
  fold c. split; [|split; [|split; [|split]]].
  - intros a j Ha. unfold Get; simpl.
    now rewrite (Axpy_columns (Buffer (stQR s)) (LDim (stQR s)) (Width (stQR s)))
      by (auto; lia).
  - intros a j Ha. unfold Get; simpl.
    now rewrite (Axpy_columns (Buffer (stB s)) (LDim (stB s)) (Width (stB s)))
      by (auto; lia).
  - destruct formU; [|reflexivity].
    destruct (HU eq_refl) as ([U1 U2] & Hn & HkU).
    intros a j Ha. unfold Get; simpl.
    now rewrite (Axpy_columns (Buffer (stU s)) (LDim (stU s)) (Width (stU s)))
      by (auto; lia).
  - destruct formUInv; [|reflexivity].
    destruct (HV eq_refl) as ([V1 V2] & HkV & Hn).
    intros a j Ha. unfold Get; simpl.
    now rewrite (Axpy_rows (Buffer (stUInv s)) (LDim (stUInv s)) (Width (stUInv s)))
      by (auto; lia).
  - split; reflexivity.
Qed.

End WeakMode.

(** ** A column that is zero already *)

Section ZeroColumnStable.
Context {Sc : Scalar}.
Variables (formU formUInv : bool) (ctrl : LLLCtrl Real).

(** The norm of a zero vector is zero, zero is an acceptable norm, and
    [zeroTol] is not negative. *)
Hypothesis Nrm2_zero : forall m, Nrm2 (repeat (Fint 0) m) = Rint 0.
Hypothesis zero_finite : IsFinite (Rint 0) = true.
Hypothesis zero_below_inv_eps : Rltb (Rdiv (Rint 1) Epsilon) (Rint 0) = false.
Hypothesis zeroTol_nonneg : Rleb (Rint 0) (zeroTol ctrl) = true.

(** X10. A column of [B] that is exactly zero is always detected: on
    it [Step(k)] returns [true] in its first pass, raising nothing and
    performing no size-reduction -- [B], [U] and [UInv] come back entry
    for entry as they were. *)
Theorem Step_detects_zero_column (k fuel : nat) (s : LLLState) :
  Dense (stB s) -> k < Width (stB s) ->
  ColumnIsZero (stB s) k ->
  exists s',
    Step (S fuel) k formU formUInv ctrl s = Ok (true, s') /\
    stU s' = stU s /\ stUInv s' = stUInv s /\
    shape (stB s') = shape (stB s) /\
    forall i j, i < Height (stB s) -> Get (stB s') i j = Get (stB s) i j.
Proof.
  intros HD Hk Hz.
  exists (ZeroColumn k (Expanded k ctrl s)).
  split; [now apply (Step_on_zero_column formU formUInv ctrl)|].
  split; [reflexivity|]. split; [reflexivity|].
  destruct (ZeroColumn_B k (Expanded k ctrl s) HD Hk) as [[Hs Hf] Hc].
  split; [exact Hs|].
  intros i j Hi. destruct (Nat.eq_dec j k) as [->|Hj].
  - rewrite Hc by assumption. symmetry. now apply Hz.
  - apply Hf; auto. destruct HD. simpl. lia.
Qed.

End ZeroColumnStable.

(** ** [U] records the column operations on [B] *)

Section BasisTransform.
Context {Sc : Scalar}.

(** The scalars form a commutative ring (exact arithmetic), in which
    the literal [-1] is the opposite of [1]. *)
Hypothesis F_ring : ring_theory (Fint 0) (Fint 1) Fadd Fmul Fsub Fopp (@eq F).
Hypothesis F_minus_one : Fint (-1) = Fopp (Fint 1).

Add Ring FRing3 : F_ring.

Lemma sumF_exchange (n k : nat) (g : nat -> nat -> F) :
  sumF n (fun l => sumF k (g l)) = sumF k (fun p => sumF n (fun l => g l p)).
Proof.
  induction k as [|k IH].
  - rewrite sumF_0. rewrite (sumF_ext n _ (fun _ => Fint 0)) by reflexivity.
    apply (sumF_zero F_ring).
  - rewrite sumF_S, <- IH.
    rewrite (sumF_ext n _ (fun l => Fadd (sumF k (g l)) (g l k)))
      by (intros; apply sumF_S).
    apply (sumF_add F_ring).
Qed.

(** A column operation on the right factor of a product acts on the
    columns of the product. *)
Lemma MulEntry_column_combine (n k : nat) (x : nat -> F) (B0 U U' : Matrix F) :
  (forall l j, l < n -> j < n ->
     Get U' l j
     = if j =? k
       then Fsub (Get U l k) (sumF k (fun p => Fmul (Get U l p) (x p)))
       else Get U l j) ->
  forall i j, j < n ->
    MulEntry n B0 U' i j
    = if j =? k
      then Fsub (MulEntry n B0 U i k)
                (sumF k (fun p => Fmul (MulEntry n B0 U i p) (x p)))
      else MulEntry n B0 U i j.
Proof.
  intros HU i j Hj. unfold MulEntry.
  destruct (Nat.eqb_spec j k) as [->|Hne].
  - rewrite (sumF_ext n _
      (fun l => Fadd (Fmul (Get B0 i l) (Get U l k))
                     (Fmul (sumF k (fun p => Fmul (Fmul (Get U l p) (x p)) (Get B0 i l)))
                           (Fopp (Fint 1))))).
    + rewrite (sumF_add F_ring), (sumF_scale F_ring), sumF_exchange.
      rewrite (sumF_ext k _
        (fun p => Fmul (sumF n (fun l => Fmul (Get B0 i l) (Get U l p))) (x p))).
      * ring.
      * intros p Hp. rewrite <- (sumF_scale F_ring).
        apply sumF_ext. intros l Hl. ring.
    + intros l Hl. rewrite HU by assumption. rewrite Nat.eqb_refl.
      rewrite (sumF_scale F_ring). ring.
  - apply sumF_ext. intros l Hl. rewrite HU by assumption.
    apply Nat.eqb_neq in Hne. now rewrite Hne.
Qed.

Variables (formUInv : bool) (ctrl : LLLCtrl Real) (B0 : Matrix F).

(** Size-reduction applies to [U] the column operation it applies to
    [B]. *)
Lemma SizeReduce_tracks (k : nat) (s : LLLState) :
  1 <= k -> Dense (stB s) -> k < Width (stB s) ->
  Dense (stU s) -> Width (stB s) <= LDim (stU s) ->
  Width (stB s) <= Width (stU s) ->
  Tracks B0 s -> Tracks B0 (SizeReduce k true formUInv ctrl s).
Proof.
  intros Hk1 [B1 B2] HkB [U1 U2] HnL HnW Htr.
  assert (Hsh : Height (stB (SizeReduce k true formUInv ctrl s)) = Height (stB s) /\
                Width (stB (SizeReduce k true formUInv ctrl s)) = Width (stB s)).
  { pose proof (shapes_SizeReduce k true formUInv ctrl s) as E.
    unfold shapes in E.
    assert (EB : shape (stB (SizeReduce k true formUInv ctrl s)) = shape (stB s))
      by congruence.
    unfold shape in EB. split; congruence. }
  destruct Hsh as [Hh Hw].
  intros i j Hi Hj. rewrite Hh in Hi. rewrite Hw in Hj |- *.
  set (n := Width (stB s)) in *.
  revert i j Hi Hj. unfold SizeReduce. destruct (weak ctrl).
  - unfold WeakReduce. destruct (Rltb _ _); [|exact Htr].
    destruct (OverEta _ _); [|exact Htr].
    set (chi := Round _). intros i j Hi Hj. simpl stB. simpl stU.
    rewrite (MulEntry_column_combine n k
               (fun p => if p =? k - 1 then chi else Fint 0) B0 (stU s)).
    + unfold Get at 1. simpl.
      rewrite (Axpy_columns (Buffer (stB s)) (LDim (stB s)) (Width (stB s)))
        by (auto; lia).
      fold (Get (stB s) i k). fold (Get (stB s) i (k - 1)). fold (Get (stB s) i j).
      destruct (Nat.eqb_spec j k) as [->|Hne]; simpl.
      * replace (i <? Height (stB s)) with true by (symmetry; apply Nat.ltb_lt; lia).
        rewrite (sumF_pick F_ring) by assumption.
        rewrite <- !Htr by (fold n; lia). ring.
      * apply Htr; assumption.
    + intros l c Hl Hc. unfold Get at 1. simpl.
      rewrite (Axpy_columns (Buffer (stU s)) (LDim (stU s)) (Width (stU s)))
        by (auto; lia).
      fold (Get (stU s) l k). fold (Get (stU s) l (k - 1)). fold (Get (stU s) l c).
      destruct (Nat.eqb_spec c k) as [->|Hne]; simpl; [|reflexivity].
      replace (l <? Width (stB s)) with true by (symmetry; apply Nat.ltb_lt; assumption).
      rewrite (sumF_pick F_ring) by assumption. ring.
    + assumption.
  - unfold StandardReduce.
    destruct (Scan _ _ _ _) as [Qf xf]. intros i j Hi Hj. simpl stB. simpl stU.
    rewrite (MulEntry_column_combine n k (fun p => rd xf p) B0 (stU s)).
    + unfold Get at 1. simpl.
      rewrite (Gemv_columns (Buffer (stB s)) (LDim (stB s)) (Width (stB s)))
        by (auto; lia).
      fold (Get (stB s) i k). fold (Get (stB s) i j).
      destruct (Nat.eqb_spec j k) as [->|Hne]; simpl.
      * replace (i <? Height (stB s)) with true by (symmetry; apply Nat.ltb_lt; lia).
        change (rowDot k (Buffer (stB s)) 0 (LDim (stB s)) i xf)
          with (sumF k (fun p => Fmul (Get (stB s) i p) (rd xf p))).
        rewrite (sumF_ext k (fun p => Fmul (MulEntry n B0 (stU s) i p) (rd xf p))
                   (fun p => Fmul (Get (stB s) i p) (rd xf p))).
        -- rewrite <- Htr by (fold n; lia). rewrite F_minus_one. ring.
        -- intros p Hp. rewrite <- Htr by (fold n; lia). reflexivity.
      * apply Htr; assumption.
    + intros l c Hl Hc. unfold Get at 1. simpl.
      rewrite (Gemv_columns (Buffer (stU s)) (LDim (stU s)) (Width (stU s)))
        by (auto; lia).
      fold (Get (stU s) l k). fold (Get (stU s) l c).
      destruct (Nat.eqb_spec c k) as [->|Hne]; simpl; [|reflexivity].
      replace (l <? Width (stB s)) with true by (symmetry; apply Nat.ltb_lt; assumption).
      change (rowDot k (Buffer (stU s)) 0 (LDim (stU s)) l xf)
        with (sumF k (fun p => Fmul (Get (stU s) l p) (rd xf p))).
      rewrite F_minus_one. ring.
    + assumption.
Qed.

(** [Step(k)] keeps [B = B0 U] but for the column it clears. *)
Lemma Step_tracks (k fuel : nat) (s s' : LLLState) (z : bool) :
  1 <= k -> Dense (stB s) -> k < Width (stB s) ->
  Dense (stU s) -> Width (stB s) <= LDim (stU s) ->
  Width (stB s) <= Width (stU s) ->
  Tracks B0 s ->
  Step fuel k true formUInv ctrl s = Ok (z, s') ->
  (z = false -> Tracks B0 s') /\
  (forall i j, i < Height (stB s) -> j < Width (stB s) -> j <> k ->
     Get (stB s') i j = MulEntry (Width (stB s)) B0 (stU s') i j).
Proof.
  intros Hk1. revert s. induction fuel as [|f IH];
    intros s HB HkB HU HnL HnW Htr H; simpl in H; [discriminate|].
  assert (He : Tracks B0 (Expanded k ctrl s)) by exact Htr.
  pose proof (SizeReduce_tracks k (Expanded k ctrl s) Hk1 HB HkB HU HnL HnW He)
    as Hsr.
  pose proof (shapes_SizeReduce k true formUInv ctrl (Expanded k ctrl s)) as Hsh.
  unfold StepPass in H.
  destruct (NormGuard _); [discriminate|].
  destruct (Rleb _ _).
  - inversion H; subst. split; [discriminate|].
    intros i j Hi Hj Hne.
    destruct (ZeroColumn_B k (Expanded k ctrl s) HB HkB) as [[_ Hf] _].
    simpl stU. rewrite Hf by (auto; destruct HB; simpl; lia).
    now apply Htr.
  - destruct (NormGuard _); [discriminate|].
    set (s1 := SizeReduce k true formUInv ctrl (Expanded k ctrl s)) in *.
    unfold shapes in Hsh. simpl in Hsh.
    assert (EB : shape (stB s1) = shape (stB s)) by congruence.
    assert (EU : shape (stU s1) = shape (stU s)) by congruence.
    clear Hsh. unfold shape in EB, EU.
    assert (Eh : Height (stB s1) = Height (stB s)) by congruence.
    assert (Ew : Width (stB s1) = Width (stB s)) by congruence.
    assert (Width (stU s1) = Width (stU s)) by congruence.
    assert (LDim (stU s1) = LDim (stU s)) by congruence.
    destruct (Rltb _ _).
    + inversion H; subst.
      destruct (Reflect_transforms k s1) as (EB' & EU' & _).
      assert (Ht' : Tracks B0 (Reflect k s1)).
      { unfold Tracks. rewrite EB', EU'. apply Hsr. }
      split; [auto|].
      intros i j Hi Hj _. unfold Tracks in Ht'. rewrite EB', Ew in Ht'.
      rewrite EB'. apply Ht'; lia.
    + destruct (IH s1) as [G1 G2]; auto; try lia.
      * eapply Dense_shape; [|exact HB]. unfold shape. congruence.
      * eapply Dense_shape; [|exact HU]. unfold shape. congruence.
      * split; [assumption|].
        intros i j Hi Hj Hne. rewrite <- Ew. apply G2; lia.
Qed.

(** X11. With [U] tracked, [Step(k)] keeps [B = B0 U] as long as it
    does not force a column to zero: size-reduction applies to [U] the
    very column operation it applies to [B].  When [Step] returns
    [false] the relation holds of all of [B] again; when it returns
    [true] it holds of every column but the cleared column [k]. *)
Theorem Step_keeps_basis_transform (k fuel : nat) (s s' : LLLState) (z : bool) :
  1 <= k -> Dense (stB s) -> k < Width (stB s) ->
  Dense (stU s) -> Width (stB s) <= LDim (stU s) ->
  Width (stB s) <= Width (stU s) ->
  (forall i j, i < Height (stB s) -> j < Width (stB s) ->
     Get (stB s) i j = MulEntry (Width (stB s)) B0 (stU s) i j) ->
  Step fuel k true formUInv ctrl s = Ok (z, s') ->
  Height (stB s') = Height (stB s) /\ Width (stB s') = Width (stB s) /\
  (forall i j, i < Height (stB s) -> j < Width (stB s) ->
     z = false \/ j <> k ->
     Get (stB s') i j = MulEntry (Width (stB s)) B0 (stU s') i j).
Proof.
  intros Hk1 HB HkB HU HnL HnW Htr H.
  destruct (Step_tracks k fuel s s' z Hk1 HB HkB HU HnL HnW Htr H) as [G1 G2].
  pose proof (shapes_Step k true formUInv ctrl fuel s z s' H) as Hsh.
  unfold shapes in Hsh.
  assert (EB : shape (stB s') = shape (stB s)) by congruence.
  unfold shape in EB.
  assert (Eh : Height (stB s') = Height (stB s)) by congruence.
  assert (Ew : Width (stB s') = Width (stB s)) by congruence.
  split; [exact Eh|]. split; [exact Ew|].
  intros i j Hi Hj [Hz|Hne].
  - specialize (G1 Hz). unfold Tracks in G1. rewrite Eh, Ew in G1. now apply G1.
  - now apply G2.
Qed.

End BasisTransform.

(** ** The drivers return [B = B0 U] *)

Section BasisTransformDrivers.
Context {Sc : Scalar}.

Hypothesis F_ring : ring_theory (Fint 0) (Fint 1) Fadd Fmul Fsub Fopp (@eq F).
Hypothesis F_minus_one : Fint (-1) = Fopp (Fint 1).

Variables (formUInv : bool) (ctrl : LLLCtrl Real) (B0 : Matrix F) (n : nat).

(** Permuting the columns of [B] and of [U] alike keeps [B = B0 U]. *)
Lemma Tracks_permute (sigma : nat -> nat) (s s' : LLLState) :
  Height (stB s') = Height (stB s) -> Width (stB s') = Width (stB s) ->
  Width (stB s) = n ->
  (forall j, j < n -> sigma j < n) ->
  (forall i j, i < Height (stB s) -> j < n ->
     Get (stB s') i j = Get (stB s) i (sigma j)) ->
  (forall l j, l < n -> j < n -> Get (stU s') l j = Get (stU s) l (sigma j)) ->
  Tracks B0 s -> Tracks B0 s'.
Proof.
  intros Eh Ew HW Hran HB HU Htr i j Hi Hj.
  rewrite Eh in Hi. rewrite Ew, HW in Hj |- *.
  rewrite HB by assumption.
  rewrite Htr by (auto; rewrite HW; auto). rewrite HW.
  unfold MulEntry. apply sumF_ext. intros l Hl. now rewrite HU.
Qed.

Lemma SwapColumns_tracks (k : nat) (s : LLLState) :
  1 <= k -> k < n -> Dense (stB s) -> Width (stB s) = n -> Square n (stU s) ->
  Tracks B0 s -> Tracks B0 (SwapColumns k true formUInv s).
Proof.
  intros Hk1 Hkn HB HW (HU & HUh & HUw) Htr.
  apply (Tracks_permute (transpose (k - 1) k) s); auto.
  - intros j Hj. apply transpose_range; lia.
  - intros i j Hi Hj. unfold SwapColumns; simpl.
    rewrite ColSwap_spec; auto; try lia.
    + replace (i <? Height (stB s)) with true
        by (symmetry; apply Nat.ltb_lt; lia). reflexivity.
    + destruct HB; lia.
  - intros l j Hl Hj. unfold SwapColumns; simpl.
    rewrite ColSwap_spec; auto; try lia.
    + replace (l <? Height (stU s)) with true
        by (symmetry; apply Nat.ltb_lt; lia). reflexivity.
    + destruct HU; lia.
Qed.

Lemma InsertColumn_tracks (i k : nat) (s : LLLState) :
  i <= k -> k < n -> Dense (stB s) -> Width (stB s) = n -> Square n (stU s) ->
  Tracks B0 s -> Tracks B0 (InsertColumn i k true formUInv s).
Proof.
  intros Hik Hkn HB HW (HU & HUh & HUw) Htr.
  apply (Tracks_permute (shiftIndex i k) s); auto.
  - intros j Hj. apply shiftIndex_range; lia.
  - intros r j Hr Hj. unfold InsertColumn; simpl.
    rewrite DeepColSwap_spec; auto; try lia.
    + replace (r <? Height (stB s)) with true
        by (symmetry; apply Nat.ltb_lt; lia). reflexivity.
    + destruct HB; lia.
  - intros l j Hl Hj. unfold InsertColumn; simpl.
    rewrite DeepColSwap_spec; auto; try lia.
    + replace (l <? Height (stU s)) with true
        by (symmetry; apply Nat.ltb_lt; lia). reflexivity.
    + destruct HU; lia.
Qed.

(** The shapes that the invariant needs travel with [shapes]. *)
Lemma TracksInv_shapes (s s' : LLLState) :
  shapes s' = shapes s ->
  Dense (stB s) -> Width (stB s) = n -> Square n (stU s) ->
  Dense (stB s') /\ Width (stB s') = n /\ Square n (stU s').
Proof.
  intros E HB HW HU. unfold shapes in E.
  assert (EB : shape (stB s') = shape (stB s)) by congruence.
  assert (EU : shape (stU s') = shape (stU s)) by congruence.
  split; [eapply Dense_shape; eauto|].
  split; [unfold shape in EB; congruence|].
  eapply Square_shape; eauto.
Qed.

Lemma shapes_SwapColumns (k : nat) (formU : bool) (s : LLLState) :
  shapes (SwapColumns k formU formUInv s) = shapes s.
Proof.
  unfold shapes, SwapColumns; simpl.
  rewrite shape_ColSwap.
  destruct formU, formUInv; now rewrite ?shape_ColSwap, ?shape_RowSwap.
Qed.

Lemma shapes_InsertColumn (i k : nat) (formU : bool) (s : LLLState) :
  shapes (InsertColumn i k formU formUInv s) = shapes s.
Proof.
  unfold shapes, InsertColumn; simpl.
  rewrite shape_DeepColSwap.
  destruct formU, formUInv; now rewrite ?shape_DeepColSwap, ?shape_DeepRowSwap.
Qed.

(** The first column, when it is not declared a zero vector. *)
Lemma FirstColumn_tracks (s : LLLState) :
  snd (FirstColumn ctrl s) = 0 ->
  Tracks B0 s -> Tracks B0 (fst (FirstColumn ctrl s)).
Proof.
  unfold FirstColumn. destruct (Rleb _ _); simpl; [discriminate|].
  intros _ Htr. unfold Tracks.
  destruct (Reflect_transforms 0 (Expanded 0 ctrl s)) as (-> & -> & _).
  exact Htr.
Qed.

Lemma AfterStep_tracks (dr : Driver) (s : LLLState) :
  1 <= cur_k dr -> cur_k dr < n ->
  Dense (stB s) -> Width (stB s) = n -> Square n (stU s) -> Tracks B0 s ->
  cur_nullity (AfterStep true formUInv ctrl dr false s) = 0 ->
  TracksInv B0 n (AfterStep true formUInv ctrl dr false s).
Proof.
  intros Hk1 Hkn HB HW HU Htr. unfold AfterStep, TracksInv.
  destruct (LovaszHolds _ _ _); simpl.
  - intros E. destruct HB, HU as ([? ?] & ? & ?); repeat split; auto; lia.
  - pose proof (SwapColumns_tracks (cur_k dr) s Hk1 Hkn HB HW HU Htr) as Hsw.
    destruct (TracksInv_shapes s (SwapColumns (cur_k dr) true formUInv s)
                (shapes_SwapColumns _ _ _) HB HW HU) as (HB1 & HW1 & HU1).
    destruct (Nat.eqb_spec (cur_k dr) 1) as [E1|E1].
    + pose proof (FirstColumn_tracks (SwapColumns (cur_k dr) true formUInv s)) as Hf.
      destruct (shapes_FirstColumn ctrl (SwapColumns (cur_k dr) true formUInv s))
        as (Hsh & _).
      destruct (FirstColumn _ _) as [s1 nl]. simpl in *. intros E.
      destruct (TracksInv_shapes _ s1 Hsh HB1 HW1 HU1) as (HB2 & HW2 & HU2).
      destruct HB2, HU2 as ([? ?] & ? & ?); repeat split; auto; lia.
    + simpl. intros E. destruct HB1, HU1 as ([? ?] & ? & ?); repeat split; auto; lia.
Qed.

Lemma DeepAfterStep_tracks (dr : Driver) (s : LLLState) :
  1 <= cur_k dr -> cur_k dr < n ->
  Dense (stB s) -> Width (stB s) = n -> Square n (stU s) -> Tracks B0 s ->
  cur_nullity (DeepAfterStep Downdate true formUInv ctrl dr false s) = 0 ->
  TracksInv B0 n (DeepAfterStep Downdate true formUInv ctrl dr false s).
Proof.
  intros Hk1 Hkn HB HW HU Htr. unfold DeepAfterStep, TracksInv.
  destruct (DeepScan _ _ _ _ _ _ _ _) as [i|] eqn:Es; simpl.
  - apply DeepScan_bound in Es.
    assert (Hik : i <= cur_k dr) by lia.
    pose proof (InsertColumn_tracks i (cur_k dr) s Hik Hkn HB HW HU Htr) as Hsw.
    destruct (TracksInv_shapes s (InsertColumn i (cur_k dr) true formUInv s)
                (shapes_InsertColumn _ _ _ _) HB HW HU) as (HB1 & HW1 & HU1).
    destruct (Nat.eqb_spec i 0) as [E0|E0].
    + pose proof (FirstColumn_tracks (InsertColumn i (cur_k dr) true formUInv s)) as Hf.
      destruct (shapes_FirstColumn ctrl (InsertColumn i (cur_k dr) true formUInv s))
        as (Hsh & _).
      destruct (FirstColumn _ _) as [s1 nl]. simpl in *. intros E.
      destruct (TracksInv_shapes _ s1 Hsh HB1 HW1 HU1) as (HB2 & HW2 & HU2).
      destruct HB2, HU2 as ([? ?] & ? & ?); repeat split; auto; lia.
    + simpl. intros E. destruct HB1, HU1 as ([? ?] & ? & ?); repeat split; auto; lia.
  - intros E. destruct HB, HU as ([? ?] & ? & ?); repeat split; auto; lia.
Qed.

(** One iteration of a driver that detects no zero vector. *)
Lemma Iter_tracks (after : Driver -> bool -> LLLState -> Driver)
    (fuel : nat) (dr dr' : Driver) :
  (forall s,
     Dense (stB s) -> Width (stB s) = n -> Square n (stU s) -> Tracks B0 s ->
     cur_nullity (after dr false s) = 0 -> TracksInv B0 n (after dr false s)) ->
  TracksInv B0 n dr -> cur_k dr < n ->
  NoZeroDetected fuel true formUInv ctrl after dr ->
  bind (Step fuel (cur_k dr) true formUInv ctrl (work dr))
       (fun zs => Ok (after dr (fst zs) (snd zs))) = Ok dr' ->
  TracksInv B0 n dr'.
Proof.
  intros Hafter (Htr & HB & HW & HU & Hk1 & Hnl) Hkn Hno H.
  destruct (Step _ _ _ _ _ _) as [[z s]| |] eqn:E; simpl in H; try discriminate.
  inversion H; subst dr'. clear H.
  destruct (Hno z s E) as [-> Hnl'].
  destruct (TracksInv_shapes (work dr) s
              (shapes_Step _ _ _ _ _ _ _ _ E) HB HW HU) as (HB1 & HW1 & HU1).
  apply Hafter; auto.
  destruct HU as (DU & HUh & HUw).
  destruct (Step_tracks F_ring F_minus_one formUInv ctrl B0 (cur_k dr) fuel
              (work dr) s false) as [G _]; auto; try lia.
  destruct DU. lia.
Qed.

(** Neither driver changes the shape of [B]. *)
Lemma UnblockedIter_shapeB (fuel : nat) (d d' : Driver) :
  UnblockedIter fuel true formUInv ctrl d = Ok d' ->
  shape (stB (work d')) = shape (stB (work d)).
Proof.
  intros Hb. unfold UnblockedIter in Hb.
  destruct (Step _ _ _ _ _ _) as [[z s1]| |] eqn:ES; simpl in Hb;
    try discriminate.
  inversion Hb; subst d'.
  pose proof (shapes_Step _ _ _ _ _ _ _ _ ES) as Hs1.
  assert (Hs2 : shapes (work (AfterStep true formUInv ctrl d z s1)) = shapes s1).
  { unfold AfterStep. destruct (LovaszHolds _ _ _); simpl; [reflexivity|].
    destruct (cur_k d =? 1); simpl; [|apply shapes_SwapColumns].
    destruct (shapes_FirstColumn ctrl (SwapColumns (cur_k d) true formUInv s1))
      as (Hsh & _).
    destruct (FirstColumn _ _) as [s2 nl]. simpl in *.
    rewrite Hsh. apply shapes_SwapColumns. }
  unfold shapes in Hs1, Hs2. congruence.
Qed.

Lemma DeepIter_shapeB (fuel : nat) (d d' : Driver) :
  DeepIter Downdate fuel true formUInv ctrl d = Ok d' ->
  shape (stB (work d')) = shape (stB (work d)).
Proof.
  intros Hb. unfold DeepIter in Hb.
  destruct (Step _ _ _ _ _ _) as [[z s1]| |] eqn:ES; simpl in Hb;
    try discriminate.
  inversion Hb; subst d'.
  pose proof (shapes_Step _ _ _ _ _ _ _ _ ES) as Hs1.
  assert (Hs2 : shapes (work (DeepAfterStep Downdate true formUInv ctrl d z s1))
                = shapes s1).
  { unfold DeepAfterStep.
    destruct (DeepScan _ _ _ _ _ _ _ _) as [i|]; simpl; [|reflexivity].
    destruct (i =? 0); simpl; [|apply shapes_InsertColumn].
    destruct (shapes_FirstColumn ctrl (InsertColumn i (cur_k d) true formUInv s1))
      as (Hsh & _).
    destruct (FirstColumn _ _) as [s2 nl]. simpl in *.
    rewrite Hsh. apply shapes_InsertColumn. }
  unfold shapes in Hs1, Hs2. congruence.
Qed.

Lemma Initialize_shapeB (B U UInv : Matrix F) :
  shape (stB (work (Initialize B U UInv ctrl))) = shape B.
Proof.
  unfold Initialize.
  destruct (shapes_FirstColumn ctrl
              (mkState B U UInv (Zeros (Height B) (Width B))
                 (Zeros (Nat.min (Height B) (Width B)) 1)
                 (ZerosR (Nat.min (Height B) (Width B)) 1))) as (Hsh & _).
  destruct (FirstColumn _ _) as [s1 nl]. simpl in *.
  unfold shapes in Hsh. simpl in Hsh. congruence.
Qed.

Variable Achieved : Matrix F -> LLLCtrl Real -> Real * Real.
Variable LogVolume : Matrix F -> Real.

Lemma Initialize_tracks (B U UInv : Matrix F) :
  Dense B -> Width B = n -> Square n U ->
  (forall i j, i < Height B -> j < n -> Get B i j = MulEntry n B0 U i j) ->
  cur_nullity (Initialize B U UInv ctrl) = 0 ->
  TracksInv B0 n (Initialize B U UInv ctrl).
Proof.
  intros HB HW HU Htr. unfold Initialize, TracksInv.
  set (s0 := mkState B U UInv _ _ _).
  assert (Ht0 : Tracks B0 s0).
  { intros i j Hi Hj. simpl in *. rewrite HW in *. now apply Htr. }
  pose proof (FirstColumn_tracks s0) as Hf.
  destruct (shapes_FirstColumn ctrl s0) as (Hsh & _).
  destruct (FirstColumn ctrl s0) as [s1 nl]. simpl in *. intros E.
  destruct (TracksInv_shapes s0 s1 Hsh HB HW HU) as (HB1 & HW1 & HU1).
  destruct HB1, HU1 as ([? ?] & ? & ?); repeat split; auto; lia.
Qed.

(** X12. [U] records what the reduction does to the basis: started
    with [B = B0 U] (in particular with [U] the identity and [B0] the
    input basis), either driver returns with [B = B0 U], provided that
    the run forces no column to zero -- every call of [Step] returns
    [false] and the nullity stays zero. *)
Theorem drivers_return_basis_times_transform
    (fuel : nat) (B U UInv : Matrix F) :
  Dense B -> Width B = n -> Square n U ->
  (forall i j, i < Height B -> j < n -> Get B i j = MulEntry n B0 U i j) ->
  cur_nullity (Initialize B U UInv ctrl) = 0 ->
  (forall s info,
     AlongLoop (NoZeroDetected fuel true formUInv ctrl
                  (AfterStep true formUInv ctrl))
       (UnblockedIter fuel true formUInv ctrl) fuel n
       (Initialize B U UInv ctrl) ->
     UnblockedAlg Achieved LogVolume fuel B U UInv true formUInv ctrl
     = Ok (s, info) ->
     nullity info = 0 /\
     forall i j, i < Height B -> j < n ->
       Get (stB s) i j = MulEntry n B0 (stU s) i j) /\
  (forall s info,
     AlongLoop (NoZeroDetected fuel true formUInv ctrl
                  (DeepAfterStep Downdate true formUInv ctrl))
       (DeepIter Downdate fuel true formUInv ctrl) fuel n
       (Initialize B U UInv ctrl) ->
     UnblockedDeepAlg Achieved LogVolume fuel B U UInv true formUInv ctrl
     = Ok (s, info) ->
     nullity info = 0 /\
     forall i j, i < Height B -> j < n ->
       Get (stB s) i j = MulEntry n B0 (stU s) i j).
Proof.
  intros HB HW HU Htr Hnl.
  pose proof (Initialize_tracks B U UInv HB HW HU Htr Hnl) as Hinit.
  split; intros s info Halong H.
  - unfold UnblockedAlg in H. rewrite HW in H.
    destruct (DriverLoop _ _ _ _) as [dr| |] eqn:E; simpl in H; try discriminate.
    assert (Hh : Height (stB (work dr)) = Height B).
    { pose proof E as E'.
      apply (DriverLoop_inv (fun d => shape (stB (work d)) = shape B)) in E'.
      - destruct E' as [E' _]. unfold shape in E'. congruence.
      - intros d d' Hd _ Hb. rewrite <- Hd. eapply UnblockedIter_shapeB; eauto.
      - apply Initialize_shapeB. }
    apply (DriverLoop_along (TracksInv B0 n)
             (NoZeroDetected fuel true formUInv ctrl (AfterStep true formUInv ctrl)))
      in E; auto.
    + destruct E as [(Ht & _ & HW' & _ & _ & Hn0) _].
      inversion H; subst. simpl. split; [assumption|].
      intros i j Hi Hj. unfold Tracks in Ht. rewrite HW', Hh in Ht. now apply Ht.
    + intros d d' Hd Hk Hno Hb. unfold UnblockedIter in Hb.
      eapply (Iter_tracks (AfterStep true formUInv ctrl)); eauto.
      intros s1 D1 W1 S1 T1. destruct Hd as (_ & _ & _ & _ & Hk1 & _).
      now apply AfterStep_tracks.
  - unfold UnblockedDeepAlg, DeepAlgWith in H. rewrite HW in H.
    destruct (DriverLoop _ _ _ _) as [dr| |] eqn:E; simpl in H; try discriminate.
    assert (Hh : Height (stB (work dr)) = Height B).
    { pose proof E as E'.
      apply (DriverLoop_inv (fun d => shape (stB (work d)) = shape B)) in E'.
      - destruct E' as [E' _]. unfold shape in E'. congruence.
      - intros d d' Hd _ Hb. rewrite <- Hd. eapply DeepIter_shapeB; eauto.
      - apply Initialize_shapeB. }
    apply (DriverLoop_along (TracksInv B0 n)
             (NoZeroDetected fuel true formUInv ctrl
                (DeepAfterStep Downdate true formUInv ctrl)))
      in E; auto.
    + destruct E as [(Ht & _ & HW' & _ & _ & Hn0) _].
      inversion H; subst. simpl. split; [assumption|].
      intros i j Hi Hj. unfold Tracks in Ht. rewrite HW', Hh in Ht. now apply Ht.
    + intros d d' Hd Hk Hno Hb. unfold DeepIter in Hb.
      eapply (Iter_tracks (DeepAfterStep Downdate true formUInv ctrl)); eauto.
      intros s1 D1 W1 S1 T1. destruct Hd as (_ & _ & _ & _ & Hk1 & _).
      now apply DeepAfterStep_tracks.
Qed.

End BasisTransformDrivers.

(** ** [Step(k)] keeps the factorisation of the earlier columns *)

Section StepFactorisation.
Context {Sc : Scalar}.
Variables (formU formUInv : bool) (ctrl : LLLCtrl Real).

Lemma Expanded_QR (k : nat) (s : LLLState) :
  Dense (stQR s) -> k < Width (stQR s) ->
  Height (stB s) <= LDim (stQR s) -> k <= Height (stB s) ->
  (forall i, i < k -> ofReal (RealPart (Get (stQR s) i i)) = Get (stQR s) i i) ->
  SameExceptColumn k (stQR s) (stQR (Expanded k ctrl s)).
Proof.
  intros HD Hk Hm Hkm Hreal. split; [apply shape_ExpandQR|].
  intros a j Ha Hj. unfold Expanded; simpl stQR. unfold Get, ExpandQR; simpl.
  destruct (CopyInColumn_spec k (stB s) (stQR s) HD Hk Hm) as (Clen & Ccol & Crest).
  destruct HD as [D1 D2].
  destruct (reflectors_frame (Height (stB s)) k (LDim (stQR s)) (Width (stQR s))
              (Buffer (stT s)) (Buffer (stD s)) (Buffer (stQR s)))
    with (numOrthog := numOrthog ctrl) (buf := CopyInColumn k (stB s) (stQR s))
    as [_ Hf]; auto.
  intros a' c Ha' Hc. apply Crest. intros i' Hi'. apply index_neq; lia.
Qed.

Lemma ZeroColumn_QR (k : nat) (s : LLLState) :
  Dense (stQR s) -> k < Width (stQR s) -> Height (stB s) <= LDim (stQR s) ->
  SameExceptColumn k (stQR s) (stQR (ZeroColumn k s)).
Proof.
  intros [D1 D2] Hk Hm.
  destruct (zero_loop (Buffer (stQR s)) (LDim (stQR s)) (Width (stQR s))
              (Height (stB s)) k Hm Hk D2) as (Hlen & _ & Hr).
  unfold ZeroColumn; simpl. split; [now apply shape_withBuffer|].
  intros a j Ha Hj. unfold Get; simpl. apply Hr.
  intros i Hi. apply index_neq; lia.
Qed.

Lemma SizeReduce_QR (k : nat) (s : LLLState) :
  Dense (stQR s) -> 1 <= k -> k < Width (stQR s) -> k <= LDim (stQR s) ->
  SameExceptColumn k (stQR s) (stQR (SizeReduce k formU formUInv ctrl s)).
Proof.
  intros [D1 D2] Hk1 Hk HkL. unfold SizeReduce. destruct (weak ctrl).
  - unfold WeakReduce. destruct (Rltb _ _); [|apply SameExceptColumn_refl].
    destruct (OverEta _ _); [|apply SameExceptColumn_refl].
    simpl. split.
    + apply shape_withBuffer, length_Axpy.
    + intros a j Ha Hj. unfold Get; simpl.
      rewrite (Axpy_columns (Buffer (stQR s)) (LDim (stQR s)) (Width (stQR s)))
        by (auto; lia).
      apply Nat.eqb_neq in Hj. now rewrite Hj.
  - unfold StandardReduce.
    destruct (ScanInv_forDown ctrl k (LDim (stQR s)) (Width (stQR s))
                (Buffer (stQR s)) D2 Hk HkL k 0
                (Buffer (stQR s), repeat (Fint 0) k)) as [(Hlen & _ & Hf) _];
      [lia | repeat split; simpl; auto; apply repeat_length |].
    fold (Scan ctrl k (LDim (stQR s)) (Buffer (stQR s))) in Hlen, Hf.
    destruct (Scan _ _ _ _) as [Qf xf]. simpl in *. split.
    + now apply shape_withBuffer.
    + intros a j Ha Hj. unfold Get; simpl. now apply Hf.
Qed.

Lemma Reflect_QR (k : nat) (s : LLLState) :
  Dense (stQR s) -> k < Height (stQR s) -> k < Width (stQR s) ->
  SameExceptColumn k (stQR s) (stQR (Reflect k s)) /\
  (forall p, p <> k -> rd (Buffer (stT (Reflect k s))) p = rd (Buffer (stT s)) p) /\
  (forall p, p <> k -> rdR (Buffer (stD (Reflect k s))) p = rdR (Buffer (stD s)) p).
Proof.
  intros [D1 D2] Hkh Hkw.
  pose proof (shapes_Reflect k s) as Hsh. unfold shapes in Hsh.
  assert (EQ : shape (stQR (Reflect k s)) = shape (stQR s)) by congruence.
  clear Hsh. revert EQ.
  unfold Reflect, HouseholderStep.
  destruct (LeftReflector _ _) as [[tau rho] v].
  set (ld := LDim (stQR s)) in *.
  set (b1 := wr (Buffer (stQR s)) (k + k * ld) rho).
  destruct (tail_loop b1 v (S k + k * ld) (Height (stQR s) - S k))
    as (Tl & _ & Tr).
  { subst b1. rewrite length_wr.
    assert (Height (stQR s) + k * ld <= length (Buffer (stQR s))) by nia. lia. }
  assert (Hfr : forall a j, a < ld -> j <> k ->
            rd (forUp 0 (Height (stQR s) - S k)
                  (fun l b => wr b (S k + k * ld + l) (nth l v (Fint 0))) b1)
               (a + j * ld)
            = rd (Buffer (stQR s)) (a + j * ld)).
  { intros a j Ha Hj. rewrite Tr.
    - subst b1. apply rd_wr_other. apply index_neq; lia.
    - intros l Hl. replace (S k + k * ld + l) with ((S k + l) + k * ld) by lia.
      apply index_neq; lia. }
  assert (Ht : forall (t : Matrix F) (x : F) p, p <> k ->
            rd (Buffer (SetEntry t k 0 x)) p = rd (Buffer t) p).
  { intros t x p Hp. unfold SetEntry; simpl. apply rd_wr_other. lia. }
  assert (Hd : forall (d : Matrix Real) (x : Real) p, p <> k ->
            rdR (Buffer (SetEntry d k 0 x)) p = rdR (Buffer d) p).
  { intros d x p Hp. unfold SetEntry, rdR; simpl. apply nth_wr_other. lia. }
  destruct (Rltb _ _); cbv beta iota; cbn [stT stD stQR]; intros EQ;
    (split; [split; [exact EQ|]|split; [apply Ht | apply Hd]]).
  - intros a j Ha Hj. unfold Get; simpl. fold ld.
    rewrite rd_wr_other by (apply index_neq; lia). now apply Hfr.
  - intros a j Ha Hj. unfold Get; simpl. fold ld. now apply Hfr.
Qed.

(** The factorisation of the columns before [k] -- the columns of [QR]
    other than [k] and the entries of [t] and [d] other than [k] -- as
    one pass leaves it. *)
Lemma StepPass_factorisation (k : nat) (s : LLLState) :
  1 <= k -> Dense (stQR s) -> Height (stQR s) = Height (stB s) ->
  k < Height (stQR s) -> k < Width (stQR s) ->
  (forall i, i < k -> ofReal (RealPart (Get (stQR s) i i)) = Get (stQR s) i i) ->
  match StepPass k formU formUInv ctrl s with
  | StepRaise _ => True
  | StepZero s' | StepBreak s' | StepAgain s' =>
    SameExceptColumn k (stQR s) (stQR s') /\
    (forall p, p <> k -> rd (Buffer (stT s')) p = rd (Buffer (stT s)) p) /\
    (forall p, p <> k -> rdR (Buffer (stD s')) p = rdR (Buffer (stD s)) p)
  end.
Proof.
  intros Hk1 HD Hh Hkh Hkw Hreal.
  assert (Hld : Height (stB s) <= LDim (stQR s)) by (destruct HD; lia).
  pose proof (Expanded_QR k s HD Hkw Hld ltac:(lia) Hreal) as He.
  assert (HDe : Dense (stQR (Expanded k ctrl s))).
  { eapply Dense_shape; [apply He|exact HD]. }
  assert (Hwe : Width (stQR (Expanded k ctrl s)) = Width (stQR s)).
  { destruct He as [E _]. unfold shape in E. congruence. }
  assert (Hle : LDim (stQR (Expanded k ctrl s)) = LDim (stQR s)).
  { destruct He as [E _]. unfold shape in E. congruence. }
  unfold StepPass. destruct (NormGuard _); auto.
  destruct (Rleb _ _).
  - split; [|split].
    + eapply SameExceptColumn_trans; [exact He|].
      apply ZeroColumn_QR; auto; simpl stB; lia.
    + intros p Hp. unfold ZeroColumn, SetEntry; simpl.
      apply rd_wr_other. lia.
    + intros p Hp. unfold ZeroColumn, SetEntry, rdR; simpl.
      apply nth_wr_other. lia.
  - destruct (NormGuard _); auto.
    assert (Hs : SameExceptColumn k (stQR s)
                   (stQR (SizeReduce k formU formUInv ctrl (Expanded k ctrl s)))).
    { eapply SameExceptColumn_trans; [exact He|].
      apply SizeReduce_QR; auto; try lia. }
    assert (Ht : stT (SizeReduce k formU formUInv ctrl (Expanded k ctrl s)) = stT s /\
                 stD (SizeReduce k formU formUInv ctrl (Expanded k ctrl s)) = stD s).
    { unfold SizeReduce. destruct (weak ctrl).
      - unfold WeakReduce. destruct (Rltb _ _); [|auto].
        destruct (OverEta _ _); auto.
      - unfold StandardReduce. destruct (Scan _ _ _ _). auto. }
    destruct Ht as [Et Ed].
    destruct (Rltb _ _); rewrite Et, Ed; repeat split; auto; apply Hs.
Qed.

(** X13. [Step(k)] keeps the factorisation of the earlier columns:
    provided the diagonal entries [QR(i,i)], [i < k], are real, it
    writes column [k] of [QR] only, and of [t] and [d] the entry [k]
    only -- whatever it returns. *)
Theorem Step_keeps_earlier_factorisation
    (k fuel : nat) (s s' : LLLState) (z : bool) :
  1 <= k -> Dense (stQR s) -> Height (stQR s) = Height (stB s) ->
  k < Height (stQR s) -> k < Width (stQR s) ->
  (forall i, i < k -> ofReal (RealPart (Get (stQR s) i i)) = Get (stQR s) i i) ->
  Step fuel k formU formUInv ctrl s = Ok (z, s') ->
  (forall i j, i < Height (stQR s) -> j <> k ->
     Get (stQR s') i j = Get (stQR s) i j) /\
  (forall i, i <> k -> Get (stT s') i 0 = Get (stT s) i 0) /\
  (forall i, i <> k -> GetR (stD s') i 0 = GetR (stD s) i 0).
Proof.
  intros Hk1. revert s. induction fuel as [|f IH];
    intros s HD Hh Hkh Hkw Hreal H; simpl in H; [discriminate|].
  pose proof (StepPass_factorisation k s Hk1 HD Hh Hkh Hkw Hreal) as Hp.
  pose proof (shapes_StepPass k formU formUInv ctrl s) as Hsh.
  assert (Hfin : forall s1,
            SameExceptColumn k (stQR s) (stQR s1) /\
            (forall p, p <> k -> rd (Buffer (stT s1)) p = rd (Buffer (stT s)) p) /\
            (forall p, p <> k -> rdR (Buffer (stD s1)) p = rdR (Buffer (stD s)) p) ->
            (forall i j, i < Height (stQR s) -> j <> k ->
               Get (stQR s1) i j = Get (stQR s) i j) /\
            (forall i, i <> k -> Get (stT s1) i 0 = Get (stT s) i 0) /\
            (forall i, i <> k -> GetR (stD s1) i 0 = GetR (stD s) i 0)).
  { intros s1 ([_ G1] & G2 & G3). split; [|split].
    - intros i j Hi Hj. apply G1; auto. destruct HD. lia.
    - intros i Hi. unfold Get. simpl. rewrite !Nat.add_0_r. now apply G2.
    - intros i Hi. unfold GetR. simpl. rewrite !Nat.add_0_r. now apply G3. }
  destruct (StepPass _ _ _ _ _) as [e|s1|s1|s1]; try discriminate.
  - inversion H; subst. now apply Hfin.
  - inversion H; subst. apply Hfin.
    destruct Hp as (P1 & P2 & P3).
    unfold shapes in Hsh.
    assert (EQ : shape (stQR s1) = shape (stQR s)) by congruence.
    unfold shape in EQ.
    destruct (Reflect_QR k s1) as (R1 & R2 & R3).
    + eapply Dense_shape; [|exact HD]. unfold shape. congruence.
    + assert (Height (stQR s1) = Height (stQR s)) by congruence. lia.
    + assert (Width (stQR s1) = Width (stQR s)) by congruence. lia.
    + split; [eapply SameExceptColumn_trans; eauto|].
      split; intros p Hp; [rewrite R2, P2 | rewrite R3, P3]; auto.
  - destruct Hp as (P1 & P2 & P3).
    unfold shapes in Hsh.
    assert (EQ : shape (stQR s1) = shape (stQR s)) by congruence.
    assert (EB : shape (stB s1) = shape (stB s)) by congruence.
    unfold shape in EQ, EB.
    assert (E1 : Height (stQR s1) = Height (stQR s)) by congruence.
    assert (E2 : Width (stQR s1) = Width (stQR s)) by congruence.
    assert (E3 : Height (stB s1) = Height (stB s)) by congruence.
    assert (E4 : LDim (stQR s1) = LDim (stQR s)) by congruence.
    destruct (IH s1) as (Q1 & Q2 & Q3); auto; try lia.
    + eapply Dense_shape; [|exact HD]. unfold shape. congruence.
    + intros i Hi. destruct P1 as [_ P1].
      rewrite P1 by (destruct HD; lia). now apply Hreal.
    + destruct (Hfin s1 (conj P1 (conj P2 P3))) as (F1 & F2 & F3).
      split; [|split].
      * intros i j Hi Hj. rewrite Q1, F1; auto. lia.
      * intros i Hi. rewrite Q2, F2; auto.
      * intros i Hi. rewrite Q3, F3; auto.
Qed.

End StepFactorisation.

(** ** Tracking the transforms does not change the reduction *)

Section Tracking.
Context {Sc : Scalar}.
Variable ctrl : LLLCtrl Real.

(** Two working sets that agree on [B], [QR], [t] and [d]. *)
Ltac same_reduced H :=
  match type of H with
  | Reduced ?s1 = Reduced ?s2 =>
    destruct s1, s2; unfold Reduced in H; simpl in H; inversion H; subst
  end.

Lemma Expanded_Reduced (k : nat) (s1 s2 : LLLState) :
  Reduced s1 = Reduced s2 ->
  Reduced (Expanded k ctrl s1) = Reduced (Expanded k ctrl s2).
Proof. intros H. same_reduced H. reflexivity. Qed.

Lemma ZeroColumn_Reduced (k : nat) (s1 s2 : LLLState) :
  Reduced s1 = Reduced s2 ->
  Reduced (ZeroColumn k s1) = Reduced (ZeroColumn k s2).
Proof. intros H. same_reduced H. reflexivity. Qed.

Lemma Reflect_Reduced (k : nat) (s1 s2 : LLLState) :
  Reduced s1 = Reduced s2 ->
  Reduced (Reflect k s1) = Reduced (Reflect k s2).
Proof.
  intros H. same_reduced H. unfold Reflect; simpl.
  destruct (HouseholderStep _ _ _ _) as [[QR t] d]. reflexivity.
Qed.

Lemma SizeReduce_Reduced (k : nat) (fU fV fU' fV' : bool) (s1 s2 : LLLState) :
  Reduced s1 = Reduced s2 ->
  Reduced (SizeReduce k fU fV ctrl s1) = Reduced (SizeReduce k fU' fV' ctrl s2).
Proof.
  intros H. same_reduced H. unfold SizeReduce. destruct (weak ctrl).
  - unfold WeakReduce; simpl. destruct (Rltb _ _); [|reflexivity].
    destruct (OverEta _ _); reflexivity.
  - unfold StandardReduce; simpl. destruct (Scan _ _ _ _). reflexivity.
Qed.

Lemma ColumnNorm_Reduced (k : nat) (s1 s2 : LLLState) :
  Reduced s1 = Reduced s2 -> ColumnNorm k s1 = ColumnNorm k s2.
Proof. intros H. same_reduced H. reflexivity. Qed.

Lemma SwapColumns_Reduced (k : nat) (fU fV fU' fV' : bool) (s1 s2 : LLLState) :
  Reduced s1 = Reduced s2 ->
  Reduced (SwapColumns k fU fV s1) = Reduced (SwapColumns k fU' fV' s2).
Proof. intros H. same_reduced H. reflexivity. Qed.

Lemma InsertColumn_Reduced (i k : nat) (fU fV fU' fV' : bool) (s1 s2 : LLLState) :
  Reduced s1 = Reduced s2 ->
  Reduced (InsertColumn i k fU fV s1) = Reduced (InsertColumn i k fU' fV' s2).
Proof. intros H. same_reduced H. reflexivity. Qed.

Lemma FirstColumn_Reduced (s1 s2 : LLLState) :
  Reduced s1 = Reduced s2 ->
  Reduced (fst (FirstColumn ctrl s1)) = Reduced (fst (FirstColumn ctrl s2)) /\
  snd (FirstColumn ctrl s1) = snd (FirstColumn ctrl s2).
Proof.
  intros H.
  pose proof (Reflect_Reduced 0 _ _ (Expanded_Reduced 0 _ _ H)) as Hr.
  unfold FirstColumn.
  set (r1 := Reflect 0 (Expanded 0 ctrl s1)) in *.
  set (r2 := Reflect 0 (Expanded 0 ctrl s2)) in *.
  clearbody r1 r2. same_reduced Hr. simpl.
  destruct (Rleb _ _); simpl; split; reflexivity.
Qed.

Lemma StepPass_Reduced (k : nat) (fU fV fU' fV' : bool) (s1 s2 : LLLState) :
  Reduced s1 = Reduced s2 ->
  match StepPass k fU fV ctrl s1, StepPass k fU' fV' ctrl s2 with
  | StepRaise e1, StepRaise e2 => e1 = e2
  | StepZero a, StepZero b | StepBreak a, StepBreak b | StepAgain a, StepAgain b =>
    Reduced a = Reduced b
  | _, _ => False
  end.
Proof.
  intros H. pose proof (Expanded_Reduced k _ _ H) as He.
  pose proof (SizeReduce_Reduced k fU fV fU' fV' _ _ He) as Hs.
  unfold StepPass.
  rewrite (ColumnNorm_Reduced k _ _ He), (ColumnNorm_Reduced k _ _ Hs).
  destruct (NormGuard _); [reflexivity|].
  destruct (Rleb _ _); [now apply ZeroColumn_Reduced|].
  destruct (NormGuard _); [reflexivity|].
  destruct (Rltb _ _); exact Hs.
Qed.

(** [Step] does to [B], [QR], [t] and [d] the same, and returns or
    raises the same, whichever transforms are tracked. *)
Lemma Step_Reduced (k : nat) (fU fV fU' fV' : bool) :
  forall fuel s1 s2,
    Reduced s1 = Reduced s2 ->
    mapResult (fun zs => (fst zs, Reduced (snd zs))) (Step fuel k fU fV ctrl s1)
    = mapResult (fun zs => (fst zs, Reduced (snd zs))) (Step fuel k fU' fV' ctrl s2).
Proof.
  induction fuel as [|f IH]; intros s1 s2 H; simpl; [reflexivity|].
  pose proof (StepPass_Reduced k fU fV fU' fV' s1 s2 H) as Hp.
  destruct (StepPass k fU fV ctrl s1), (StepPass k fU' fV' ctrl s2);
    try contradiction; simpl.
  - now subst.
  - now rewrite Hp.
  - now rewrite (Reflect_Reduced k _ _ Hp).
  - now apply IH.
Qed.

Lemma LovaszHolds_Reduced (k : nat) (s1 s2 : LLLState) :
  Reduced s1 = Reduced s2 -> LovaszHolds ctrl k s1 = LovaszHolds ctrl k s2.
Proof. intros H. same_reduced H. reflexivity. Qed.

Lemma AfterStep_Progress (fU fV fU' fV' : bool) (d1 d2 : Driver) (z : bool)
    (s1 s2 : LLLState) :
  Progress d1 = Progress d2 -> Reduced s1 = Reduced s2 ->
  Progress (AfterStep fU fV ctrl d1 z s1)
  = Progress (AfterStep fU' fV' ctrl d2 z s2).
Proof.
  intros Hd Hs. unfold Progress in Hd.
  assert (Ek : cur_k d1 = cur_k d2) by congruence.
  assert (En : cur_nullity d1 = cur_nullity d2) by congruence.
  assert (Ew : cur_numSwaps d1 = cur_numSwaps d2) by congruence.
  unfold AfterStep. rewrite Ek, En, Ew, (LovaszHolds_Reduced _ _ _ Hs).
  destruct (LovaszHolds _ _ _); unfold Progress; simpl; [now rewrite Hs|].
  pose proof (SwapColumns_Reduced (cur_k d2) fU fV fU' fV' _ _ Hs) as Hsw.
  destruct (cur_k d2 =? 1); simpl; [|now rewrite Hsw].
  destruct (FirstColumn_Reduced _ _ Hsw) as [F1 F2].
  destruct (FirstColumn ctrl (SwapColumns (cur_k d2) fU fV s1)),
           (FirstColumn ctrl (SwapColumns (cur_k d2) fU' fV' s2)).
  simpl in *. now rewrite F1, F2.
Qed.

Lemma DeepAfterStep_Progress (fU fV fU' fV' : bool) (d1 d2 : Driver) (z : bool)
    (s1 s2 : LLLState) :
  Progress d1 = Progress d2 -> Reduced s1 = Reduced s2 ->
  Progress (DeepAfterStep Downdate fU fV ctrl d1 z s1)
  = Progress (DeepAfterStep Downdate fU' fV' ctrl d2 z s2).
Proof.
  intros Hd Hs. unfold Progress in Hd.
  assert (Ek : cur_k d1 = cur_k d2) by congruence.
  assert (En : cur_nullity d1 = cur_nullity d2) by congruence.
  assert (Ew : cur_numSwaps d1 = cur_numSwaps d2) by congruence.
  assert (EQ : stQR s1 = stQR s2) by (unfold Reduced in Hs; congruence).
  unfold DeepAfterStep. rewrite Ek, En, Ew, EQ.
  destruct (DeepScan _ _ _ _ _ _ _ _) as [i|]; unfold Progress; simpl;
    [|now rewrite Hs].
  pose proof (InsertColumn_Reduced i (cur_k d2) fU fV fU' fV' _ _ Hs) as Hsw.
  destruct (i =? 0); simpl; [|now rewrite Hsw].
  destruct (FirstColumn_Reduced _ _ Hsw) as [F1 F2].
  destruct (FirstColumn ctrl (InsertColumn i (cur_k d2) fU fV s1)),
           (FirstColumn ctrl (InsertColumn i (cur_k d2) fU' fV' s2)).
  simpl in *. now rewrite F1, F2.
Qed.

Lemma DriverLoop_Progress (body1 body2 : Driver -> result Driver) (n : nat) :
  (forall d1 d2, Progress d1 = Progress d2 ->
     mapResult Progress (body1 d1) = mapResult Progress (body2 d2)) ->
  forall fuel d1 d2,
    Progress d1 = Progress d2 ->
    mapResult Progress (DriverLoop body1 fuel n d1)
    = mapResult Progress (DriverLoop body2 fuel n d2).
Proof.
  intros Hbody. induction fuel as [|f IH]; intros d1 d2 Hd; simpl;
    assert (Ek : cur_k d1 = cur_k d2) by (unfold Progress in Hd; congruence);
    rewrite Ek; destruct (cur_k d2 <? n); simpl; try (now rewrite Hd);
    try reflexivity.
  pose proof (Hbody d1 d2 Hd) as Hb.
  destruct (body1 d1), (body2 d2); simpl in *; try discriminate; auto.
  apply IH. congruence.
Qed.

Lemma Iter_Progress
    (after1 after2 : Driver -> bool -> LLLState -> Driver)
    (fuel : nat) (fU fV fU' fV' : bool) (d1 d2 : Driver) :
  (forall z s1 s2, Reduced s1 = Reduced s2 ->
     Progress (after1 d1 z s1) = Progress (after2 d2 z s2)) ->
  Progress d1 = Progress d2 ->
  mapResult Progress
    (bind (Step fuel (cur_k d1) fU fV ctrl (work d1))
          (fun zs => Ok (after1 d1 (fst zs) (snd zs))))
  = mapResult Progress
      (bind (Step fuel (cur_k d2) fU' fV' ctrl (work d2))
            (fun zs => Ok (after2 d2 (fst zs) (snd zs)))).
Proof.
  intros Hafter Hd.
  assert (Ek : cur_k d1 = cur_k d2) by (unfold Progress in Hd; congruence).
  assert (Es : Reduced (work d1) = Reduced (work d2))
    by (unfold Progress in Hd; congruence).
  pose proof (Step_Reduced (cur_k d2) fU fV fU' fV' fuel _ _ Es) as Hst.
  rewrite Ek.
  destruct (Step fuel (cur_k d2) fU fV ctrl (work d1)) as [[z1 t1]| |],
           (Step fuel (cur_k d2) fU' fV' ctrl (work d2)) as [[z2 t2]| |];
    simpl in *; try discriminate; auto; [|congruence].
  assert (Hz : z1 = z2) by congruence.
  assert (Hr : Reduced t1 = Reduced t2) by congruence.
  subst z2. f_equal. now apply Hafter.
Qed.

Variable Achieved : Matrix F -> LLLCtrl Real -> Real * Real.
Variable LogVolume : Matrix F -> Real.

Lemma Initialize_Progress (B U UInv U' UInv' : Matrix F) :
  Progress (Initialize B U UInv ctrl) = Progress (Initialize B U' UInv' ctrl).
Proof.
  unfold Initialize.
  set (s1 := mkState B U UInv _ _ _). set (s2 := mkState B U' UInv' _ _ _).
  destruct (FirstColumn_Reduced s1 s2 eq_refl) as [F1 F2].
  destruct (FirstColumn ctrl s1), (FirstColumn ctrl s2). simpl in *.
  unfold Progress; simpl. now rewrite F1, F2.
Qed.

Lemma Finish_Progress (n : nat) (d1 d2 : Driver) :
  Progress d1 = Progress d2 ->
  (Reduced (fst (Finish Achieved LogVolume n ctrl d1)),
   snd (Finish Achieved LogVolume n ctrl d1))
  = (Reduced (fst (Finish Achieved LogVolume n ctrl d2)),
     snd (Finish Achieved LogVolume n ctrl d2)).
Proof.
  intros Hd. unfold Progress, Reduced in Hd. unfold Finish, Reduced; simpl.
  assert (stB (work d1) = stB (work d2)) by congruence.
  assert (stQR (work d1) = stQR (work d2)) by congruence.
  assert (stT (work d1) = stT (work d2)) by congruence.
  assert (stD (work d1) = stD (work d2)) by congruence.
  assert (cur_nullity d1 = cur_nullity d2) by congruence.
  assert (cur_numSwaps d1 = cur_numSwaps d2) by congruence.
  congruence.
Qed.

(** X14. Tracking the transforms does not change the reduction: on the
    same basis and control, whatever [U] and [UInv] are passed and
    whichever of them are tracked, either driver returns the same [B],
    [QR], [t], [d] and the same report -- or raises the same error. *)
Theorem drivers_reduce_alike_whatever_is_tracked
    (fuel : nat) (B U UInv U' UInv' : Matrix F) (fU fV fU' fV' : bool) :
  mapResult (fun r => (Reduced (fst r), snd r))
    (UnblockedAlg Achieved LogVolume fuel B U UInv fU fV ctrl)
  = mapResult (fun r => (Reduced (fst r), snd r))
      (UnblockedAlg Achieved LogVolume fuel B U' UInv' fU' fV' ctrl) /\
  mapResult (fun r => (Reduced (fst r), snd r))
    (UnblockedDeepAlg Achieved LogVolume fuel B U UInv fU fV ctrl)
  = mapResult (fun r => (Reduced (fst r), snd r))
      (UnblockedDeepAlg Achieved LogVolume fuel B U' UInv' fU' fV' ctrl).
Proof.
  pose proof (Initialize_Progress B U UInv U' UInv') as Hinit.
  split.
  - unfold UnblockedAlg.
    pose proof (DriverLoop_Progress
                  (UnblockedIter fuel fU fV ctrl) (UnblockedIter fuel fU' fV' ctrl)
                  (Width B)) as Hloop.
    specialize (Hloop
      (fun d1 d2 Hd =>
         Iter_Progress (AfterStep fU fV ctrl) (AfterStep fU' fV' ctrl)
           fuel fU fV fU' fV' d1 d2
           (fun z s1 s2 Hs => AfterStep_Progress fU fV fU' fV' d1 d2 z s1 s2 Hd Hs)
           Hd)
      fuel _ _ Hinit).
    destruct (DriverLoop (UnblockedIter fuel fU fV ctrl) _ _ _),
             (DriverLoop (UnblockedIter fuel fU' fV' ctrl) _ _ _);
      simpl in *; try discriminate; auto; [|congruence].
    f_equal. apply Finish_Progress. congruence.
  - unfold UnblockedDeepAlg, DeepAlgWith.
    pose proof (DriverLoop_Progress
                  (DeepIter Downdate fuel fU fV ctrl)
                  (DeepIter Downdate fuel fU' fV' ctrl)
                  (Width B)) as Hloop.
    specialize (Hloop
      (fun d1 d2 Hd =>
         Iter_Progress (DeepAfterStep Downdate fU fV ctrl)
           (DeepAfterStep Downdate fU' fV' ctrl)
           fuel fU fV fU' fV' d1 d2
           (fun z s1 s2 Hs => DeepAfterStep_Progress fU fV fU' fV' d1 d2 z s1 s2 Hd Hs)
           Hd)
      fuel _ _ Hinit).
    destruct (DriverLoop (DeepIter Downdate fuel fU fV ctrl) _ _ _),
             (DriverLoop (DeepIter Downdate fuel fU' fV' ctrl) _ _ _);
      simpl in *; try discriminate; auto; [|congruence].
    f_equal. apply Finish_Progress. congruence.
Qed.

End Tracking.

(** ** The loop variables *)

Section LoopVariables.
Context {Sc : Scalar}.
Variables (formU formUInv : bool) (ctrl : LLLCtrl Real).

Lemma Iterations_inv (P : nat -> Driver -> Prop)
    (body : Driver -> result Driver) (n : nat) :
  (forall i d d', P i d -> cur_k d < n -> body d = Ok d' -> P (S i) d') ->
  forall j i d0 d,
    P i d0 -> Iterations body j n d0 = Some d -> P (i + j) d.
Proof.
  intros Hbody. induction j as [|j IH]; intros i d0 d HP H; simpl in H.
  - inversion H; subst. now rewrite Nat.add_0_r.
  - destruct (Nat.ltb_spec (cur_k d0) n) as [Hlt|]; [|discriminate].
    destruct (body d0) as [d1| |] eqn:E; try discriminate.
    replace (i + S j) with (S i + j) by lia.
    apply (IH (S i) d1); auto. eapply Hbody; eauto.
Qed.

Lemma AfterStep_variables (n i : nat) (dr : Driver) (z : bool) (s : LLLState) :
  cur_k dr < n ->
  1 <= cur_k dr /\ cur_k dr <= Nat.max 1 n /\ cur_numSwaps dr <= i ->
  let dr' := AfterStep formU formUInv ctrl dr z s in
  1 <= cur_k dr' /\ cur_k dr' <= Nat.max 1 n /\ cur_numSwaps dr' <= S i.
Proof.
  intros Hk (H1 & H2 & H3). unfold AfterStep.
  destruct (LovaszHolds _ _ _); cbn [cur_k cur_numSwaps]; [lia|].
  destruct (Nat.eqb_spec (cur_k dr) 1) as [E|E].
  - destruct (FirstColumn _ _) as [s1 nl]. cbn [cur_k cur_numSwaps]. lia.
  - cbn [cur_k cur_numSwaps]. lia.
Qed.

Lemma DeepAfterStep_variables (n i : nat) (dr : Driver) (z : bool) (s : LLLState) :
  cur_k dr < n ->
  1 <= cur_k dr /\ cur_k dr <= Nat.max 1 n /\ cur_numSwaps dr <= i ->
  let dr' := DeepAfterStep Downdate formU formUInv ctrl dr z s in
  1 <= cur_k dr' /\ cur_k dr' <= Nat.max 1 n /\ cur_numSwaps dr' <= S i.
Proof.
  intros Hk (H1 & H2 & H3). unfold DeepAfterStep.
  destruct (DeepScan _ _ _ _ _ _ _ _) as [i0|] eqn:Es; cbn [cur_k cur_numSwaps]; [|lia].
  apply DeepScan_bound in Es.
  destruct (Nat.eqb_spec i0 0) as [E|E].
  - destruct (FirstColumn _ _) as [s1 nl]. cbn [cur_k cur_numSwaps]. lia.
  - cbn [cur_k cur_numSwaps]. lia.
Qed.

(** X15. The loop variables of both drivers stay in range: on entry
    of every iteration [1 <= k], so that [Step(k)] is never called
    with [k = 0] and the entries [R(k-1,k-1)], [R(k-1,k)] the drivers
    read exist; [k] never exceeds the number of columns; and each
    iteration counts at most one swap. *)
Theorem drivers_keep_loop_variables_in_range
    (fuel j : nat) (B U UInv : Matrix F) (dr : Driver) :
  Iterations (UnblockedIter fuel formU formUInv ctrl) j (Width B)
    (Initialize B U UInv ctrl) = Some dr \/
  Iterations (DeepIter Downdate fuel formU formUInv ctrl) j (Width B)
    (Initialize B U UInv ctrl) = Some dr ->
  1 <= cur_k dr /\ cur_k dr <= Nat.max 1 (Width B) /\ cur_numSwaps dr <= j.
Proof.
  set (n := Width B).
  set (P := fun (i : nat) (d : Driver) =>
              1 <= cur_k d /\ cur_k d <= Nat.max 1 n /\ cur_numSwaps d <= i).
  assert (H0 : P 0 (Initialize B U UInv ctrl)).
  { unfold P, Initialize. destruct (FirstColumn _ _) as [s1 nl].
    cbn [cur_k cur_numSwaps]. lia. }
  intros [H|H]; apply (Iterations_inv P) with (i := 0) in H; auto.
  - intros i d d' Hd Hk Hb. unfold UnblockedIter in Hb.
    destruct (Step _ _ _ _ _ _) as [[z s1]| |]; simpl in Hb; try discriminate.
    inversion Hb; subst d'. now apply AfterStep_variables.
  - intros i d d' Hd Hk Hb. unfold DeepIter in Hb.
    destruct (Step _ _ _ _ _ _) as [[z s1]| |]; simpl in Hb; try discriminate.
    inversion Hb; subst d'. now apply DeepAfterStep_variables.
Qed.

End LoopVariables.

(** ** Concrete instances of the further properties *)

Module MoreRuns.
Import RationalScalar RationalLaws Runs.

Lemma exStart2_step :
  Step 20 1 true true ctrl0 (work exStart2) = Ok (false, exStepped2).
Proof. evaluate. Qed.

(** [exB2 = exB2 I]: the relation [B = B0 U] on entry of the run. *)
Lemma exStart2_tracks :
  forall i j, i < Height (stB (work exStart2)) -> j < Width (stB (work exStart2)) ->
    Get (stB (work exStart2)) i j
    = MulEntry (Width (stB (work exStart2))) exB2 (stU (work exStart2)) i j.
Proof.
  intros i j Hi Hj.
  assert (Hi' : i < 2) by exact Hi. assert (Hj' : j < 2) by exact Hj.
  destruct i as [|[|i]]; [| |lia]; (destruct j as [|[|j]]; [| |lia]); evaluate.
Qed.

Lemma exB4_tracks :
  forall i j, i < Height exB4 -> j < 2 ->
    Get exB4 i j = MulEntry 2 exB4 (identity 2) i j.
Proof.
  intros i j Hi Hj. assert (Hi' : i < 2) by exact Hi.
  destruct i as [|[|i]]; [| |lia]; (destruct j as [|[|j]]; [| |lia]); evaluate.
Qed.

Lemma exStart4_step :
  Step 20 (cur_k exStart4) true true ctrl0 (work exStart4)
  = Ok (false, exStepped4a).
Proof. evaluate. Qed.

Lemma exIter4a_step :
  Step 20 (cur_k exIter4a) true true ctrl0 (work exIter4a)
  = Ok (false, exStepped4b).
Proof. evaluate. Qed.

Lemma exStart4_no_zero :
  NoZeroDetected 20 true true ctrl0 (AfterStep true true ctrl0) exStart4.
Proof.
  intros z s Hs. rewrite exStart4_step in Hs.
  assert (Ez : false = z) by congruence.
  assert (Es : exStepped4a = s) by congruence.
  subst z s. split; [reflexivity | evaluate].
Qed.

Lemma exIter4a_no_zero :
  NoZeroDetected 20 true true ctrl0 (AfterStep true true ctrl0) exIter4a.
Proof.
  intros z s Hs. rewrite exIter4a_step in Hs.
  assert (Ez : false = z) by congruence.
  assert (Es : exStepped4b = s) by congruence.
  subst z s. split; [reflexivity | evaluate].
Qed.

Lemma exRun4_along :
  AlongLoop (NoZeroDetected 20 true true ctrl0 (AfterStep true true ctrl0))
    (UnblockedIter 20 true true ctrl0) 20 2
    (Initialize exB4 (identity 2) (identity 2) ctrl0).
Proof.
  apply AlongLoop_step with (dr' := exIter4a);
    [exact exStart4_no_zero | evaluate |].
  apply AlongLoop_step with (dr' := exIter4b);
    [exact exIter4a_no_zero | evaluate |].
  apply AlongLoop_done. evaluate.
Qed.

Lemma exRun4_returns :
  UnblockedAlg noAchieved noLogVolume 20 exB4 (identity 2) (identity 2)
    true true ctrl0 = Ok (fst exRun4, snd exRun4).
Proof. evaluate. Qed.

Lemma exRunPlain_returns :
  UnblockedAlg noAchieved noLogVolume 20 exB noMatrix noMatrix
    false false ctrl0 = Ok (fst exRunPlain, snd exRunPlain).
Proof. evaluate. Qed.

Lemma exStart_zero_column : ColumnIsZero (stB (work exStart)) 1.
Proof.
  intros i Hi. assert (Hi' : i < 2) by exact Hi.
  destruct i as [|[|i]]; [| |lia]; evaluate.
Qed.

End MoreRuns.

Module MoreWitnesses.
Import RationalScalar RationalLaws Runs Witnesses MoreRuns.

(** Witness for X1: [Step(1)] on [exB] leaves [B(0,0)]. *)
Lemma Step_writes_only_column_k_witness :
  Get (stB (snd exStep)) 0 0 = Get (stB (work exStart)) 0 0.
Proof.
  assert (Hrun : Step 20 1 true true ctrl0 (work exStart)
                 = Ok (fst exStep, snd exStep)) by evaluate.
  assert (HB : Dense (stB (work exStart))) by (split; evaluate).
  assert (Hk : 1 < Width (stB (work exStart))) by evaluate.
  assert (HU : true = true ->
               Dense (stU (work exStart)) /\
               Width (stB (work exStart)) <= LDim (stU (work exStart)) /\
               1 < Width (stU (work exStart)))
    by (intros _; repeat split; evaluate).
  assert (HV : true = true ->
               Dense (stUInv (work exStart)) /\
               1 < LDim (stUInv (work exStart)) /\
               Width (stB (work exStart)) <= Width (stUInv (work exStart)))
    by (intros _; repeat split; evaluate).
  destruct (Step_writes_only_column_k (Sc := scalar) true true ctrl0 1 20
              (work exStart) (snd exStep) (fst exStep)
              (le_n 1) HB Hk HU HV Hrun) as (H1 & _ & _).
  apply H1; [evaluate | discriminate].
Defined.

(** Witness for X2: the flat driver on [exB] with no transform tracked
    returns the empty [U] it was given. *)
Lemma drivers_never_write_untracked_transforms_witness :
  stU (fst exRunPlain) = noMatrix.
Proof.
  destruct (drivers_never_write_untracked_transforms (Sc := scalar)
              false false ctrl0 noAchieved noLogVolume 20 exB noMatrix noMatrix)
    as [H _].
  destruct (H (fst exRunPlain) (snd exRunPlain) exRunPlain_returns) as [HU _].
  exact (HU eq_refl).
Defined.

(** Witness for X3: the run on [exB]. *)
Lemma drivers_report_rank_plus_nullity_witness :
  nullity (snd exRun) <= Width exB /\
  rank (snd exRun) + nullity (snd exRun) = Width exB.
Proof.
  assert (Hn : 1 <= Width exB) by evaluate.
  destruct (drivers_report_rank_plus_nullity (Sc := scalar) true true ctrl0
              noAchieved noLogVolume 20 exB (identity 2) (identity 2) Hn)
    as [H _].
  exact (H (fst exRun) (snd exRun) exRun_returns).
Defined.

(** Witness for X4: on [exBig] the first call of [Step] raises, and so
    does the flat driver. *)
Lemma drivers_raise_iff_Step_raises_witness :
  UnblockedAlg noAchieved noLogVolume 20 exBig (identity 2) (identity 2)
    true true ctrl0 = Raised NormExceedsInvEps.
Proof.
  destruct (drivers_raise_iff_Step_raises (Sc := scalar) true true ctrl0
              noAchieved noLogVolume 20 exBig (identity 2) (identity 2)
              NormExceedsInvEps) as [[_ H] _].
  apply H. exists 0, exStartBig.
  split; [lia|]. split; [evaluate|]. split; evaluate.
Defined.

(** Witness for X5: the one-column basis [(3,4)]. *)
Lemma drivers_on_a_single_column_witness :
  exists s info,
    UnblockedAlg noAchieved noLogVolume 0 exB1 noMatrix noMatrix
      false false ctrl0 = Ok (s, info) /\
    UnblockedDeepAlg noAchieved noLogVolume 0 exB1 noMatrix noMatrix
      false false ctrl0 = Ok (s, info) /\
    numSwaps info = 0 /\ stU s = noMatrix /\ stUInv s = noMatrix /\
    if Rleb (FrobeniusNorm (column exB1 0)) (zeroTol ctrl0)
    then nullity info = 1 /\ rank info = 0 /\ ColumnIsZero (stB s) 0
    else nullity info = 0 /\ rank info = 1 /\ stB s = exB1.
Proof.
  apply (drivers_on_a_single_column (Sc := scalar) false false ctrl0
           noAchieved noLogVolume 0 exB1 noMatrix noMatrix).
  - split; simpl; lia.
  - reflexivity.
Defined.

(** Witness for X6: column 2 of [exWide] inserted at position 0. *)
Lemma DeepColSwap_rotates_columns_witness :
  Get (DeepColSwap exWide 0 2) 0 0 = Get exWide 0 2.
Proof.
  assert (HD : Dense exWide) by (split; simpl; lia).
  assert (Hk : 2 < Width exWide) by (simpl; lia).
  destruct (DeepColSwap_rotates_columns (Sc := scalar) exWide 0 2 HD
              (Nat.le_0_l 2) Hk) as [_ H].
  assert (Hr : 0 < Height exWide) by (simpl; lia).
  exact (proj1 (H 0 Hr)).
Defined.

(** Witness for X7: row 2 of [exTall] inserted at position 0. *)
Lemma DeepRowSwap_rotates_rows_witness :
  Get (DeepRowSwap exTall 0 2) 0 0 = Get exTall 2 0.
Proof.
  assert (HD : Dense exTall) by (split; simpl; lia).
  assert (Hk : 2 < Height exTall) by (simpl; lia).
  destruct (DeepRowSwap_rotates_rows (Sc := scalar) exTall 0 2 HD
              (Nat.le_0_l 2) Hk) as [_ H].
  assert (Hc : 0 < Width exTall) by (simpl; lia).
  exact (proj1 (H 0 Hc)).
Defined.

(** Witness for X9: weak size-reduction of column 1 of [exB2], where
    [chi = 3]. *)
Lemma WeakReduce_subtracts_rounded_multiple_witness :
  Get (stB (SizeReduce 1 true true ctrlWeak exExpanded2)) 0 1
  = Fadd (Get (stB exExpanded2) 0 1)
         (Fmul (Fopp (Round (Fdiv (Get (stQR exExpanded2) 0 1)
                                  (ofReal (GetRealPart (stQR exExpanded2) 0 0)))))
               (Get (stB exExpanded2) 0 0)).
Proof.
  pose proof (WeakReduce_subtracts_rounded_multiple (Sc := scalar)
                1 true true ctrlWeak exExpanded2) as H.
  cbv zeta in H.
  assert (H0 : 1 <= 1) by lia.
  assert (H1 : Dense (stQR exExpanded2)) by (split; evaluate).
  assert (H2 : 1 < Width (stQR exExpanded2)) by evaluate.
  assert (H3 : 1 <= LDim (stQR exExpanded2)) by evaluate.
  assert (H4 : Dense (stB exExpanded2)) by (split; evaluate).
  assert (H5 : 1 < Width (stB exExpanded2)) by evaluate.
  assert (H6 : true = true ->
               Dense (stU exExpanded2) /\
               Width (stB exExpanded2) <= LDim (stU exExpanded2) /\
               1 < Width (stU exExpanded2))
    by (intros _; repeat split; evaluate).
  assert (H7 : true = true ->
               Dense (stUInv exExpanded2) /\
               1 < LDim (stUInv exExpanded2) /\
               Width (stB exExpanded2) <= Width (stUInv exExpanded2))
    by (intros _; repeat split; evaluate).
  assert (H8 : weak ctrlWeak = true) by reflexivity.
  specialize (H H0 H1 H2 H3 H4 H5 H6 H7 H8).
  match type of H with
  | if ?c then _ else _ =>
    assert (E : c = true) by evaluate; rewrite E in H
  end.
  destruct H as (_ & HB & _).
  assert (Ha : 0 < LDim (stB exExpanded2)) by evaluate.
  exact (HB 0 1 Ha).
Defined.

(** Witness for X10: column 1 of [exB] is zero. *)
Lemma Step_detects_zero_column_witness :
  exists s',
    Step 1 1 true true ctrl0 (work exStart) = Ok (true, s') /\
    stU s' = stU (work exStart) /\ stUInv s' = stUInv (work exStart) /\
    shape (stB s') = shape (stB (work exStart)) /\
    forall i j, i < Height (stB (work exStart)) ->
      Get (stB s') i j = Get (stB (work exStart)) i j.
Proof.
  apply (Step_detects_zero_column (Sc := scalar) true true ctrl0
           rational_Nrm2_zero rational_zero_finite rational_zero_below_inv_eps
           rational_zeroTol_nonneg 1 0 (work exStart)).
  - split; evaluate.
  - evaluate.
  - exact exStart_zero_column.
Defined.

(** Witness for X11: [Step(1)] on [exB2] with [U = I]. *)
Lemma Step_keeps_basis_transform_witness :
  Get (stB exStepped2) 0 1
  = MulEntry (Width (stB (work exStart2))) exB2 (stU exStepped2) 0 1.
Proof.
  assert (HB : Dense (stB (work exStart2))) by (split; evaluate).
  assert (Hk : 1 < Width (stB (work exStart2))) by evaluate.
  assert (HU : Dense (stU (work exStart2))) by (split; evaluate).
  assert (HL : Width (stB (work exStart2)) <= LDim (stU (work exStart2)))
    by evaluate.
  assert (HW : Width (stB (work exStart2)) <= Width (stU (work exStart2)))
    by evaluate.
  destruct (Step_keeps_basis_transform (Sc := scalar)
              rational_F_ring rational_F_minus_one true ctrl0 exB2 1 20
              (work exStart2) exStepped2 false
              (le_n 1) HB Hk HU HL HW exStart2_tracks exStart2_step)
    as (_ & _ & H).
  apply H; [evaluate | evaluate | left; reflexivity].
Defined.

(** Witness for X12: the run on [exB4], which swaps its two columns and
    then reduces column 1. *)
Lemma drivers_return_basis_times_transform_witness :
  nullity (snd exRun4) = 0 /\
  Get (stB (fst exRun4)) 0 1 = MulEntry 2 exB4 (stU (fst exRun4)) 0 1.
Proof.
  assert (HB : Dense exB4) by (split; simpl; lia).
  assert (HW : Width exB4 = 2) by reflexivity.
  assert (Hn : cur_nullity (Initialize exB4 (identity 2) (identity 2) ctrl0) = 0)
    by evaluate.
  destruct (drivers_return_basis_times_transform (Sc := scalar)
              rational_F_ring rational_F_minus_one true ctrl0 exB4 2
              noAchieved noLogVolume 20 exB4 (identity 2) (identity 2)
              HB HW Square_identity2 exB4_tracks Hn) as [H _].
  destruct (H (fst exRun4) (snd exRun4) exRun4_along exRun4_returns) as [H1 H2].
  split; [exact H1|]. apply H2; [simpl; lia | lia].
Defined.

(** Witness for X13: [Step(1)] on [exB2] leaves [QR(0,0)]. *)
Lemma Step_keeps_earlier_factorisation_witness :
  Get (stQR exStepped2) 0 0 = Get (stQR (work exStart2)) 0 0.
Proof.
  assert (HD : Dense (stQR (work exStart2))) by (split; evaluate).
  assert (Hh : Height (stQR (work exStart2)) = Height (stB (work exStart2)))
    by evaluate.
  assert (Hkh : 1 < Height (stQR (work exStart2))) by evaluate.
  assert (Hkw : 1 < Width (stQR (work exStart2))) by evaluate.
  assert (Hreal : forall i, i < 1 ->
            ofReal (RealPart (Get (stQR (work exStart2)) i i))
            = Get (stQR (work exStart2)) i i)
    by (intros i _; reflexivity).
  destruct (Step_keeps_earlier_factorisation (Sc := scalar) true true ctrl0
              1 20 (work exStart2) exStepped2 false
              (le_n 1) HD Hh Hkh Hkw Hreal exStart2_step) as (H & _ & _).
  apply H; [evaluate | discriminate].
Defined.

(** Witness for X15: the first iteration of the run on [exB]. *)
Lemma drivers_keep_loop_variables_in_range_witness :
  1 <= cur_k exIter1 /\ cur_k exIter1 <= Nat.max 1 (Width exB) /\
  cur_numSwaps exIter1 <= 1.
Proof.
  apply (drivers_keep_loop_variables_in_range (Sc := scalar) true true ctrl0
           20 1 exB (identity 2) (identity 2) exIter1).
  left. evaluate.
Defined.

End MoreWitnesses.

(** ** The diagonal of [QR] stays real *)

Section RealDiagonals.
Context {Sc : Scalar}.
Variables (formU formUInv : bool) (ctrl : LLLCtrl Real).

(** [LeftReflector] leaves a real diagonal value, the negative of a
    real scalar is real, and zero is real. *)
Hypothesis LeftReflector_real :
  forall (chi : F) (x : list F),
    ofReal (RealPart (snd (fst (LeftReflector chi x))))
    = snd (fst (LeftReflector chi x)).
Hypothesis negate_real :
  forall z : F,
    ofReal (RealPart z) = z ->
    ofReal (RealPart (Fmul z (Fint (-1)))) = Fmul z (Fint (-1)).
Hypothesis zero_real : ofReal (RealPart (Fint 0)) = Fint 0.

(** [HouseholderStep(k)] leaves [QR(k,k)] real. *)
Lemma Reflect_diagonal (k : nat) (s : LLLState) :
  Dense (stQR s) -> k < Height (stQR s) -> k < Width (stQR s) ->
  ofReal (RealPart (Get (stQR (Reflect k s)) k k)) = Get (stQR (Reflect k s)) k k.
Proof.
  intros [D1 D2] Hkh Hkw.
  unfold Reflect, HouseholderStep.
  pose proof (LeftReflector_real
                (rd (Buffer (stQR s)) (k + k * LDim (stQR s)))
                (gather (Buffer (stQR s)) (S k + k * LDim (stQR s)) 1
                   (Height (stQR s) - S k))) as Hr.
  destruct (LeftReflector _ _) as [[tau rho] v]. cbn [fst snd] in Hr.
  set (ld := LDim (stQR s)) in *.
  assert (Hkk : k + k * ld < length (Buffer (stQR s))).
  { apply index_bound with (ld := ld) (w := Width (stQR s)); auto; lia. }
  set (b1 := wr (Buffer (stQR s)) (k + k * ld) rho).
  destruct (tail_loop b1 v (S k + k * ld) (Height (stQR s) - S k))
    as (Tl & _ & Tr).
  { subst b1. rewrite length_wr.
    assert (Height (stQR s) + k * ld <= length (Buffer (stQR s))) by nia. lia. }
  set (b2 := forUp 0 (Height (stQR s) - S k)
               (fun l b => wr b (S k + k * ld + l) (nth l v (Fint 0))) b1) in *.
  assert (Hdiag : rd b2 (k + k * ld) = rho).
  { rewrite Tr by (intros; lia). subst b1. now apply rd_wr_same. }
  assert (Hlen : k + k * ld < length b2).
  { rewrite Tl. subst b1. now rewrite length_wr. }
  clearbody b2.
  destruct (Rltb _ _); cbv beta iota; cbn [stQR]; unfold Get, withBuffer;
    cbn [Buffer LDim]; fold ld.
  - rewrite rd_wr_same by exact Hlen. now apply negate_real.
  - now rewrite Hdiag.
Qed.

(** The zero branch leaves [QR(k,k) = 0]. *)
Lemma ZeroColumn_diagonal (k : nat) (s : LLLState) :
  Dense (stQR s) -> k < Width (stQR s) ->
  Height (stB s) <= LDim (stQR s) -> k < Height (stB s) ->
  Get (stQR (ZeroColumn k s)) k k = Fint 0.
Proof.
  intros [D1 D2] Hk Hm Hkm.
  destruct (zero_loop (Buffer (stQR s)) (LDim (stQR s)) (Width (stQR s))
              (Height (stB s)) k Hm Hk D2) as (_ & Hz & _).
  unfold ZeroColumn, Get; simpl. now apply Hz.
Qed.

Lemma ZeroCol_diagonal (M : Matrix F) :
  Dense M -> 0 < Width M -> 0 < Height M -> Get (ZeroCol M 0) 0 0 = Fint 0.
Proof.
  intros [D1 D2] Hw Hh.
  destruct (zero_loop (Buffer M) (LDim M) (Width M) (Height M) 0 D1 Hw D2)
    as (_ & Hz & _).
  unfold ZeroCol, Get, withBuffer; cbn [Buffer LDim]. now apply Hz.
Qed.

(** A matrix that differs in column [k] only has the same diagonal
    before [k]. *)
Lemma RealDiagonal_frame (k : nat) (QR QR' : Matrix F) :
  SameExceptColumn k QR QR' -> k <= LDim QR ->
  RealDiagonal QR k -> RealDiagonal QR' k.
Proof.
  intros [_ Hf] Hk Hreal i Hi. rewrite Hf by lia. now apply Hreal.
Qed.

Lemma RealDiagonal_next (k : nat) (QR : Matrix F) :
  RealDiagonal QR k -> ofReal (RealPart (Get QR k k)) = Get QR k k ->
  RealDiagonal QR (S k).
Proof.
  intros Hreal Hk i Hi. destruct (Nat.eq_dec i k) as [->|]; [assumption|].
  apply Hreal. lia.
Qed.

(** What [Step(k)] may rely on, and keeps from pass to pass. *)
Lemma AfterPasses_factor (k : nat) :
  1 <= k ->
  forall p s sp,
    Dense (stQR s) -> Height (stQR s) = Height (stB s) ->
    k < Height (stQR s) -> k < Width (stQR s) ->
    RealDiagonal (stQR s) k ->
    AfterPasses p k formU formUInv ctrl s = Some sp ->
    shapes sp = shapes s /\ RealDiagonal (stQR sp) k.
Proof.
  intros Hk1. induction p as [|p IH]; intros s sp HD Hh Hkh Hkw Hreal H;
    simpl in H.
  - inversion H; subst. auto.
  - pose proof (StepPass_factorisation formU formUInv ctrl k s Hk1 HD Hh Hkh Hkw Hreal)
      as Hp.
    pose proof (shapes_StepPass k formU formUInv ctrl s) as Hsh.
    destruct (StepPass _ _ _ _ _) as [e|s1|s1|s1]; try discriminate.
    destruct Hp as (P1 & _).
    assert (EQ : shape (stQR s1) = shape (stQR s)) by (unfold shapes in Hsh; congruence).
    assert (EB : shape (stB s1) = shape (stB s)) by (unfold shapes in Hsh; congruence).
    unfold shape in EQ, EB.
    destruct (IH s1 sp) as [I1 I2]; auto.
    + eapply Dense_shape; [|exact HD]. unfold shape. congruence.
    + congruence.
    + assert (Height (stQR s1) = Height (stQR s)) by congruence. lia.
    + assert (Width (stQR s1) = Width (stQR s)) by congruence. lia.
    + apply (RealDiagonal_frame k (stQR s)); auto. destruct HD. lia.
    + split; [congruence|assumption].
Qed.

(** After [Step(k)] the diagonal is real up to and including [k]. *)
Lemma Step_diagonal (k fuel : nat) (s s' : LLLState) (z : bool) :
  1 <= k -> Dense (stQR s) -> Height (stQR s) = Height (stB s) ->
  k < Height (stQR s) -> k < Width (stQR s) ->
  RealDiagonal (stQR s) k ->
  Step fuel k formU formUInv ctrl s = Ok (z, s') ->
  shapes s' = shapes s /\ RealDiagonal (stQR s') (S k).
Proof.
  intros Hk1 HD Hh Hkh Hkw Hreal H.
  pose proof (shapes_Step k formU formUInv ctrl fuel s z s' H) as Hsh.
  split; [assumption|].
  destruct (Step_last_pass k formU formUInv ctrl fuel s _ H)
    as (j & sj & _ & Hp & Hs); [discriminate|].
  destruct (AfterPasses_factor k Hk1 j s sj HD Hh Hkh Hkw Hreal Hp) as [Sj Rj].
  assert (EQ : shape (stQR sj) = shape (stQR s)) by (unfold shapes in Sj; congruence).
  assert (EB : shape (stB sj) = shape (stB s)) by (unfold shapes in Sj; congruence).
  unfold shape in EQ, EB.
  assert (HDj : Dense (stQR sj)).
  { eapply Dense_shape; [|exact HD]. unfold shape. congruence. }
  assert (Hhj : Height (stQR sj) = Height (stB sj)) by congruence.
  assert (Hkhj : k < Height (stQR sj)).
  { assert (Height (stQR sj) = Height (stQR s)) by congruence. lia. }
  assert (Hkwj : k < Width (stQR sj)).
  { assert (Width (stQR sj) = Width (stQR s)) by congruence. lia. }
  pose proof (StepPass_factorisation formU formUInv ctrl k sj Hk1 HDj Hhj Hkhj Hkwj Rj)
    as Hf.
  pose proof (shapes_StepPass k formU formUInv ctrl sj) as Hshj.
  simpl in Hs.
  destruct (StepPass k formU formUInv ctrl sj) as [e|s1|s1|s1] eqn:E;
    try discriminate.
  - (* the zero branch *)
    inversion Hs; subst z s'; clear Hs.
    destruct Hf as (F1 & _).
    apply RealDiagonal_next.
    + apply (RealDiagonal_frame k (stQR sj)); auto. destruct HDj. lia.
    + apply StepPass_zero in E. cbv zeta in E. destruct E as (_ & _ & ->).
      assert (Ee : shape (stQR (Expanded k ctrl sj)) = shape (stQR sj))
        by (unfold Expanded; simpl; apply shape_ExpandQR).
      assert (HDe : Dense (stQR (Expanded k ctrl sj)))
        by (eapply Dense_shape; [exact Ee|exact HDj]).
      unfold shape in Ee.
      assert (E1 : Width (stQR (Expanded k ctrl sj)) = Width (stQR sj)) by congruence.
      assert (E2 : LDim (stQR (Expanded k ctrl sj)) = LDim (stQR sj)) by congruence.
      assert (E3 : stB (Expanded k ctrl sj) = stB sj) by reflexivity.
      rewrite ZeroColumn_diagonal; [exact zero_real|exact HDe| | |].
      * lia.
      * rewrite E2, E3. destruct HDj. lia.
      * rewrite E3. lia.
  - (* break, then HouseholderStep *)
    inversion Hs; subst z s'; clear Hs.
    destruct Hf as (F1 & _).
    assert (EQ1 : shape (stQR s1) = shape (stQR sj)) by (unfold shapes in Hshj; congruence).
    unfold shape in EQ1.
    assert (HD1 : Dense (stQR s1)).
    { eapply Dense_shape; [|exact HDj]. unfold shape. congruence. }
    assert (Hkh1 : k < Height (stQR s1)).
    { assert (Height (stQR s1) = Height (stQR sj)) by congruence. lia. }
    assert (Hkw1 : k < Width (stQR s1)).
    { assert (Width (stQR s1) = Width (stQR sj)) by congruence. lia. }
    destruct (Reflect_QR k s1 HD1 Hkh1 Hkw1) as (R1 & _).
    apply RealDiagonal_next.
    + apply (RealDiagonal_frame k (stQR s1)); auto; [destruct HD1; lia|].
      apply (RealDiagonal_frame k (stQR sj)); auto. destruct HDj. lia.
    + now apply Reflect_diagonal.
Qed.

(** The first column leaves [QR(0,0)] real. *)
Lemma FirstColumn_diagonal (s : LLLState) :
  Dense (stQR s) -> 0 < Height (stQR s) -> 0 < Width (stQR s) ->
  RealDiagonal (stQR (fst (FirstColumn ctrl s))) 1.
Proof.
  intros HD Hh Hw i Hi. replace i with 0 by lia.
  assert (HDe : Dense (stQR (Expanded 0 ctrl s))).
  { eapply Dense_shape; [|exact HD]. unfold Expanded; simpl. apply shape_ExpandQR. }
  assert (Ee : shape (stQR (Expanded 0 ctrl s)) = shape (stQR s)).
  { unfold Expanded; simpl. apply shape_ExpandQR. }
  unfold shape in Ee.
  assert (Hhe : 0 < Height (stQR (Expanded 0 ctrl s))).
  { assert (Height (stQR (Expanded 0 ctrl s)) = Height (stQR s)) by congruence. lia. }
  assert (Hwe : 0 < Width (stQR (Expanded 0 ctrl s))).
  { assert (Width (stQR (Expanded 0 ctrl s)) = Width (stQR s)) by congruence. lia. }
  pose proof (Reflect_diagonal 0 (Expanded 0 ctrl s) HDe Hhe Hwe) as Hr.
  pose proof (shapes_Reflect 0 (Expanded 0 ctrl s)) as Hsr.
  assert (Er : shape (stQR (Reflect 0 (Expanded 0 ctrl s)))
               = shape (stQR (Expanded 0 ctrl s))) by (unfold shapes in Hsr; congruence).
  unfold FirstColumn. cbv zeta.
  destruct (Rleb (FrobeniusNorm _) _); cbn [fst stQR]; [|exact Hr].
  rewrite ZeroCol_diagonal; [exact zero_real| | |].
  - eapply Dense_shape; [exact Er|exact HDe].
  - unfold shape in Er.
    assert (Width (stQR (Reflect 0 (Expanded 0 ctrl s)))
            = Width (stQR (Expanded 0 ctrl s))) by congruence. lia.
  - unfold shape in Er.
    assert (Height (stQR (Reflect 0 (Expanded 0 ctrl s)))
            = Height (stQR (Expanded 0 ctrl s))) by congruence. lia.
Qed.

Lemma FirstColumn_factor (m n k : nat) (s : LLLState) (nsw : nat) :
  1 <= n -> 1 <= m ->
  Dense (stQR s) -> Height (stQR s) = m -> Width (stQR s) = n ->
  Height (stB s) = m ->
  FactorInv m n (mkDriver (fst (FirstColumn ctrl s)) 1 k nsw).
Proof.
  intros Hn Hm HD Hh Hw HB.
  destruct (shapes_FirstColumn ctrl s) as (Hs & _).
  assert (EQ : shape (stQR (fst (FirstColumn ctrl s))) = shape (stQR s))
    by (unfold shapes in Hs; congruence).
  assert (EB : shape (stB (fst (FirstColumn ctrl s))) = shape (stB s))
    by (unfold shapes in Hs; congruence).
  unfold FactorInv; simpl.
  split; [eapply Dense_shape; eauto|].
  unfold shape in EQ, EB.
  split; [congruence|]. split; [congruence|]. split; [congruence|].
  split; [lia|].
  apply FirstColumn_diagonal; auto; lia.
Qed.

Ltac factor_inv :=
  unfold FactorInv; cbn [work cur_k];
  (split; [assumption|]); (split; [assumption|]); (split; [assumption|]);
  (split; [assumption|]); (split; [lia|]).

(** Neither driver moves [QR] after [Step]; the loop variable goes up
    by one or down. *)
Lemma Iter_factor (m n fuel : nat) (dr dr' : Driver) :
  1 <= n -> n <= m ->
  FactorInv m n dr -> cur_k dr < n ->
  UnblockedIter fuel formU formUInv ctrl dr = Ok dr' \/
  DeepIter Downdate fuel formU formUInv ctrl dr = Ok dr' ->
  FactorInv m n dr'.
Proof.
  intros Hn Hnm (HD & Hh & Hw & HB & Hk1 & Hreal) Hlt H.
  assert (Hstep : exists z s,
            Step fuel (cur_k dr) formU formUInv ctrl (work dr) = Ok (z, s) /\
            (dr' = AfterStep formU formUInv ctrl dr z s \/
             dr' = DeepAfterStep Downdate formU formUInv ctrl dr z s)).
  { destruct H as [H|H]; unfold UnblockedIter, DeepIter in H;
      destruct (Step _ _ _ _ _ _) as [[z s]| |]; simpl in H; try discriminate;
      inversion H; exists z, s; auto. }
  destruct Hstep as (z & s & Hs & Hdr).
  set (k := cur_k dr) in *.
  destruct (Step_diagonal k fuel (work dr) s z) as [Hsh Hr]; auto;
    try congruence; try lia.
  assert (EQ : shape (stQR s) = shape (stQR (work dr)))
    by (unfold shapes in Hsh; congruence).
  assert (EB : shape (stB s) = shape (stB (work dr)))
    by (unfold shapes in Hsh; congruence).
  assert (HDs : Dense (stQR s)) by (eapply Dense_shape; eauto).
  unfold shape in EQ, EB.
  assert (Hhs : Height (stQR s) = m) by congruence.
  assert (Hws : Width (stQR s) = n) by congruence.
  assert (HBs : Height (stB s) = m) by congruence.
  assert (Hdown : forall k', k' <= S k -> RealDiagonal (stQR s) k').
  { intros k' Hk' i Hi. apply Hr. lia. }
  destruct Hdr as [->| ->].
  - unfold AfterStep. fold k.
    destruct (LovaszHolds ctrl k s).
    + factor_inv. replace (k + 1) with (S k) by lia. assumption.
    + destruct (Nat.eqb_spec k 1) as [E1|E1].
      * pose proof (FirstColumn_factor m n) as Hfc.
        destruct (FirstColumn ctrl (SwapColumns k formU formUInv s)) as [s1 nl1] eqn:Ef.
        specialize (Hfc nl1 (SwapColumns k formU formUInv s) (cur_numSwaps dr + 1)).
        rewrite Ef in Hfc. cbn [fst] in Hfc. rewrite E1.
        apply Hfc; auto; lia.
      * factor_inv. apply Hdown. lia.
  - unfold DeepAfterStep. fold k.
    destruct (DeepScan _ _ _ _ _ _ _ _) as [i0|] eqn:Es.
    + apply DeepScan_bound in Es.
      destruct (Nat.eqb_spec i0 0) as [E0|E0].
      * pose proof (FirstColumn_factor m n) as Hfc.
        destruct (FirstColumn ctrl (InsertColumn i0 k formU formUInv s)) as [s1 nl1] eqn:Ef.
        specialize (Hfc nl1 (InsertColumn i0 k formU formUInv s) (cur_numSwaps dr + 1)).
        rewrite Ef in Hfc. cbn [fst] in Hfc.
        apply Hfc; auto; lia.
      * factor_inv. apply Hdown. lia.
    + factor_inv. replace (k + 1) with (S k) by lia. assumption.
Qed.

Lemma Initialize_factor (B U UInv : Matrix F) :
  1 <= Width B -> 1 <= Height B ->
  FactorInv (Height B) (Width B) (Initialize B U UInv ctrl).
Proof.
  intros Hn Hm. unfold Initialize.
  pose proof (FirstColumn_factor (Height B) (Width B)) as Hfc.
  set (s0 := mkState B U UInv _ _ _) in *.
  destruct (FirstColumn ctrl s0) as [s1 nl1] eqn:Ef.
  specialize (Hfc nl1 s0 0). rewrite Ef in Hfc. cbn [fst] in Hfc.
  apply Hfc; auto; subst s0; cbn [stQR stB]; auto.
  unfold Dense, Zeros; cbn [Height LDim Width Buffer].
  rewrite repeat_length. lia.
Qed.

(** X16. The drivers only ever call [Step(k)] -- and [Step] its
    [ExpandQR(k)], in every pass -- on a [QR] whose diagonal entries
    [QR(i,i)], [i < k], are real: on a basis with at least as many rows
    as columns, in every iteration that either driver reaches and
    every pass of [Step] reached in it, [QR] is a dense matrix of the
    dimensions of [B] with [k] inside them and a real diagonal before
    [k].  (Given that [LeftReflector] returns a real diagonal value,
    that the negative of a real scalar is real, and that zero is.) *)
Theorem drivers_expand_on_real_diagonal
    (fuel : nat) (B U UInv : Matrix F) (j p : nat) (dr : Driver) (sp : LLLState) :
  1 <= Width B -> Width B <= Height B ->
  Iterations (UnblockedIter fuel formU formUInv ctrl) j (Width B)
    (Initialize B U UInv ctrl) = Some dr \/
  Iterations (DeepIter Downdate fuel formU formUInv ctrl) j (Width B)
    (Initialize B U UInv ctrl) = Some dr ->
  cur_k dr < Width B ->
  AfterPasses p (cur_k dr) formU formUInv ctrl (work dr) = Some sp ->
  Dense (stQR sp) /\ Height (stQR sp) = Height B /\ Width (stQR sp) = Width B /\
  Height (stB sp) = Height B /\ 1 <= cur_k dr /\
  forall i, i < cur_k dr ->
    ofReal (RealPart (Get (stQR sp) i i)) = Get (stQR sp) i i.
Proof.
  intros Hn Hnm Hit Hlt Hp.
  assert (Hinv : FactorInv (Height B) (Width B) dr).
  { destruct Hit as [Hit|Hit];
      eapply (Iterations_keeps (FactorInv (Height B) (Width B))); try exact Hit;
      try (apply Initialize_factor; lia);
      intros d d' Hd Hk Hb; eapply Iter_factor; eauto. }
  destruct Hinv as (HD & Hh & Hw & HB & Hk1 & Hreal).
  destruct (AfterPasses_factor (cur_k dr) Hk1 p (work dr) sp) as [Hsh Hr];
    auto; try congruence; try lia.
  assert (EQ : shape (stQR sp) = shape (stQR (work dr)))
    by (unfold shapes in Hsh; congruence).
  assert (EB : shape (stB sp) = shape (stB (work dr)))
    by (unfold shapes in Hsh; congruence).
  split; [eapply Dense_shape; eauto|].
  unfold shape in EQ, EB.
  repeat split; try congruence; auto.
Qed.

End RealDiagonals.

Module FactorWitnesses.
Import RationalScalar GaussianScalar GaussianLaws.

(** Witness for X16: the first [Step(1)] on the complex basis [exBc],
    whose column 0 is [(1+i, 0)]. *)
Lemma drivers_expand_on_real_diagonal_witness :
  ofReal (Scalar := scalar) (RealPart (Get (stQR (work exStartC)) 0 0))
  = Get (stQR (work exStartC)) 0 0.
Proof.
  assert (H1 : 1 <= Width exBc) by evaluate.
  assert (H2 : Width exBc <= Height exBc) by evaluate.
  assert (H3 : Iterations (UnblockedIter (Sc := scalar) 20 false false ctrl0) 0
                 (Width exBc) (Initialize exBc noTransformC noTransformC ctrl0)
               = Some exStartC) by evaluate.
  assert (H4 : cur_k exStartC < Width exBc) by evaluate.
  assert (H5 : 0 < cur_k exStartC) by evaluate.
  exact (proj2 (proj2 (proj2 (proj2 (proj2
           (drivers_expand_on_real_diagonal (Sc := scalar) false false ctrl0
              gaussian_LeftReflector_real gaussian_negate_real gaussian_zero_real
              20 exBc noTransformC noTransformC 0 0 exStartC (work exStartC)
              H1 H2 (or_introl H3) H4 eq_refl))))) 0 H5).
Defined.

End FactorWitnesses.
